(** * takaichi-speech-rag: a shallow embedding of the pipeline and its properties

    The development follows the repository file by file:
    - [py], [datetime]: the fragment of Python the scripts rely on;
    - [get_diet_speeches]: the ingestion script (full and incremental fetch);
    - [update_vectorstore]: document generation and the index swap;
    - [utils], [rag_engine], [app], [ui_gradio]: the query engine, its HTTP
      front end and the chat page.

    Library calls whose result the repository does not determine (the
    upstream speech API, [str.strip], the text splitter, the similarity
    search, the language model) are parameters of the definitions that use
    them.  Text is a [string] of UTF-8 bytes, as the sources are encoded. *)

From stdpp Require Import gmap strings list fin_maps pretty.
From Stdlib Require Import ZArith Lia Ascii.

#[local] Set Warnings "-clear-no-such-hyp".

(** ** Python values and built-ins *)

Module py.

(** A decoded JSON field as the scripts see it: the upstream fields they
    read are strings, and [null] decodes to [None]. *)
Inductive json :=
| JNull
| JStr (s : string).

#[global] Instance json_eq_dec : EqDecision json.
Proof. solve_decision. Defined.

(** [d.get(k)] *)
Definition get (d : gmap string json) (k : string) : json :=
  default JNull (d !! k).

(** [d.get(k, dflt)]: a key that is present with value [None] keeps it. *)
Definition get_or (d : gmap string json) (k : string) (dflt : json) : json :=
  default dflt (d !! k).

(** Truth value of [None] and of a [str]. *)
Definition truthy (v : json) : bool :=
  match v with
  | JNull => false
  | JStr s => negb (String.eqb s "")
  end.

(** [v in s] and [s.add(v)] for a set of [str]. *)
Definition set_contains (v : json) (s : gset string) : bool :=
  match v with
  | JNull => false
  | JStr x => bool_decide (x ∈ s)
  end.

Definition set_add (v : json) (s : gset string) : gset string :=
  match v with
  | JNull => s
  | JStr x => {[x]} ∪ s
  end.

(** A metadata value: [None], a [str] or an [int]. *)
Inductive value :=
| VNone
| VStr (s : string)
| VInt (z : Z).

#[global] Instance value_eq_dec : EqDecision value.
Proof. solve_decision. Defined.

Definition of_json (v : json) : value :=
  match v with
  | JNull => VNone
  | JStr s => VStr s
  end.

(** [m.get(k)] on a metadata dictionary. *)
Definition vget (m : gmap string value) (k : string) : value :=
  default VNone (m !! k).

(** The line feed. *)
Definition nl : string := String "010"%char EmptyString.

(** [f"{v}"] *)
Definition format (v : json) : string :=
  match v with
  | JNull => "None"
  | JStr s => s
  end.

(** [a > b] on [str]: lexicographic on code points, which on well-formed
    UTF-8 is the lexicographic order of the bytes. *)
Definition str_gt (a b : string) : bool :=
  match String.compare a b with
  | Gt => true
  | _ => false
  end.

(** A byte of the form 10xxxxxx continues a multi-byte character. *)
Definition is_continuation (a : Ascii.ascii) : bool :=
  let n := Ascii.N_of_ascii a in
  (128 <=? n)%N && (n <? 192)%N.

(** [len(s)]: the number of code points of [s]. *)
Fixpoint len (s : string) : nat :=
  match s with
  | EmptyString => 0
  | String a r => (if is_continuation a then 0 else 1) + len r
  end.

(** The exceptions that the modelled code paths can raise. *)
Inductive exn :=
| HTTPError
| ValueError
| OverflowError
| TypeError
| RuntimeError
| FileNotFoundError
| NotADirectoryError
| OSError
| ValidationError.

Inductive result (A : Type) :=
| Ok (a : A)
| Raise (e : exn).
Arguments Ok {A} a.
Arguments Raise {A} e.

Definition is_ok {A} (r : result A) : bool :=
  match r with
  | Ok _ => true
  | Raise _ => false
  end.

(** A reference [str.strip] for text whose only white space is ASCII white
    space (bytes 9 to 13, 28 to 32). *)
Definition is_space (a : Ascii.ascii) : bool :=
  let n := Ascii.N_of_ascii a in
  ((9 <=? n)%N && (n <=? 13)%N) || ((28 <=? n)%N && (n <=? 32)%N).

Fixpoint lstrip (s : string) : string :=
  match s with
  | EmptyString => EmptyString
  | String a r => if is_space a then lstrip r else s
  end.

Definition ascii_strip (s : string) : string :=
  String.rev (lstrip (String.rev (lstrip s))).

End py.

(** ** [datetime.date] *)

Module datetime.
Local Open Scope Z_scope.

Record date := mkdate { year : Z; month : Z; day : Z }.

#[global] Instance date_eq_dec : EqDecision date.
Proof. solve_decision. Defined.

Definition is_leap (y : Z) : bool :=
  (y mod 4 =? 0) && (negb (y mod 100 =? 0) || (y mod 400 =? 0)).

Definition days_in_month (y m : Z) : Z :=
  if m =? 2 then (if is_leap y then 29 else 28)
  else if (m =? 4) || (m =? 6) || (m =? 9) || (m =? 11) then 30
  else 31.

(** Days of the year before the first day of month [m]. *)
Definition days_before_month (y m : Z) : Z :=
  foldr (λ k acc, days_in_month y (Z.of_nat k) + acc) 0
        (seq 1 (Z.to_nat (m - 1))).

(** Days before January 1st of year [y]. *)
Definition days_before_year (y : Z) : Z :=
  let p := y - 1 in
  p * 365 + p / 4 - p / 100 + p / 400.

(** [d.toordinal()]: 0001-01-01 is day 1. *)
Definition toordinal (d : date) : Z :=
  days_before_year (year d) + days_before_month (year d) (month d) + day d.

(** The month containing the [n]-th (from 0) day of year [y], searched
    from [m] with [fuel] months to go, and the day left over. *)
Fixpoint month_of (fuel : nat) (y m n : Z) : Z * Z :=
  match fuel with
  | O => (m, n)
  | S fuel' =>
      let dim := days_in_month y m in
      if n <? dim then (m, n) else month_of fuel' y (m + 1) (n - dim)
  end.

(** [date.fromordinal(n)], after CPython's [_ord2ymd]. *)
Definition fromordinal (n : Z) : date :=
  let n := n - 1 in
  let n400 := n / 146097 in
  let n := n mod 146097 in
  let n100 := n / 36524 in
  let n := n mod 36524 in
  let n4 := n / 1461 in
  let n := n mod 1461 in
  let n1 := n / 365 in
  let n := n mod 365 in
  let y := n400 * 400 + 1 + n100 * 100 + n4 * 4 + n1 in
  if (n1 =? 4) || (n100 =? 4) then mkdate (y - 1) 12 31
  else
    let '(m, r) := month_of 11 y 1 n in
    mkdate y m (r + 1).

Definition MAXORDINAL : Z := 3652059.

(** [d - timedelta(days=n)]; [None] is the [OverflowError] outside
    [date.min .. date.max]. *)
Definition sub_days (d : date) (n : Z) : option date :=
  let o := toordinal d - n in
  if (1 <=? o) && (o <=? MAXORDINAL) then Some (fromordinal o) else None.

Definition pad (width : nat) (s : string) : string :=
  String.concat "" (replicate (width - String.length s) "0") +:+ s.

(** [d.isoformat()] *)
Definition isoformat (d : date) : string :=
  pad 4 (pretty (year d)) +:+ "-" +:+ pad 2 (pretty (month d)) +:+ "-"
      +:+ pad 2 (pretty (day d)).

Definition digit (a : Ascii.ascii) : option Z :=
  let n := Z.of_N (Ascii.N_of_ascii a) in
  if (48 <=? n) && (n <=? 57) then Some (n - 48) else None.

Fixpoint digits (acc : Z) (l : list Ascii.ascii) : option Z :=
  match l with
  | [] => Some acc
  | a :: l' =>
      match digit a with
      | Some v => digits (acc * 10 + v) l'
      | None => None
      end
  end.

(** [date.fromisoformat(s)] on the extended format [YYYY-MM-DD], the one
    [isoformat] prints; [None] is the [ValueError]. *)
Definition fromisoformat (s : string) : option date :=
  match String.list_ascii_of_string s with
  | [y1; y2; y3; y4; "-"%char; m1; m2; "-"%char; d1; d2] =>
      match digits 0 [y1; y2; y3; y4], digits 0 [m1; m2], digits 0 [d1; d2] with
      | Some y, Some m, Some d =>
          if (1 <=? y) && (1 <=? m) && (m <=? 12) && (1 <=? d)
             && (d <=? days_in_month y m)
          then Some (mkdate y m d) else None
      | _, _, _ => None
      end
  | _ => None
  end.

End datetime.

(** ** src/get_diet_speeches.py *)

Module get_diet_speeches.
Import py datetime.

(** The three files under [data/].  [None] is a file that does not exist.
    - [out_file]: [diet_speeches.jsonl], one decoded record per line;
    - [state_file]: [fetch_state.json], the value stored under
      ["last_fetched_date"];
    - [ids_file]: [fetched_ids.txt], its lines without the terminator
      (which [str.strip] removes), one line per identifier written. *)
Record Files := mkFiles {
  out_file : option (list (gmap string json));
  state_file : option json;
  ids_file : option (list string)
}.

Definition no_files : Files := mkFiles None None None.

Definition set_out (v : option (list (gmap string json))) (fs : Files) : Files :=
  mkFiles v (state_file fs) (ids_file fs).
Definition set_state (v : option json) (fs : Files) : Files :=
  mkFiles (out_file fs) v (ids_file fs).
Definition set_ids (v : option (list string)) (fs : Files) : Files :=
  mkFiles (out_file fs) (state_file fs) v.

(** The query parameters of one [requests.get(BASE_URL, params=params)]. *)
Record Params := mkParams {
  p_from : string;
  p_until : string;
  nameOfMeeting : string;
  maximumRecords : nat;
  recordPacking : string;
  startRecord : option nat
}.

(** The ["speechRecord"] member of a reply: missing, a list, or one object. *)
Inductive speech_field :=
| SRAbsent
| SRList (l : list (gmap string json))
| SROne (r : gmap string json).

Record Response := mkResponse {
  numberOfRecords : option nat;
  speechRecord : speech_field
}.

(** The upstream service during one run; [None] is a reply on which
    [raise_for_status] raises. *)
Definition Api := Params → option Response.

Definition INIT_FROM_DATE : date := mkdate 2023 1 1.
Definition MAX_RECORDS_PER_REQUEST : nat := 100.
Definition MEETINGS : string := "本会議 予算委員会 総務委員会".

(** [math.ceil(total / per)]; the float quotient is exact for the counts
    a listing can have. *)
Definition ceil_div (total per : nat) : nat := (total + (per - 1)) / per.

(** [data.get("speechRecord", [])], a single object wrapped in a list. *)
Definition speech_records (data : Response) : list (gmap string json) :=
  match speechRecord data with
  | SRAbsent => []
  | SRList l => l
  | SROne r => [r]
  end.

Definition load_state (fs : Files) : json :=
  default JNull (state_file fs).

Definition save_state (last_date : string) (fs : Files) : Files :=
  set_state (Some (JStr last_date)) fs.

(** Every identifier of the set on a line of its own, the file rewritten. *)
Definition save_fetched_ids (ids : gset string) (fs : Files) : Files :=
  set_ids (Some (elements ids)) fs.

(** The same, appended to the file. *)
Definition append_fetched_ids (new_ids : gset string) (fs : Files) : Files :=
  set_ids (Some (default [] (ids_file fs) ++ elements new_ids)) fs.

(** [if rec_date and (latest_date is None or rec_date > latest_date)] *)
Definition update_latest (rec_date : json) (latest_date : option string)
  : option string :=
  match rec_date with
  | JNull => latest_date
  | JStr d =>
      if truthy rec_date
         && match latest_date with
            | None => true
            | Some l => str_gt d l
            end
      then Some d else latest_date
  end.

Definition get_record_count (api : Api) (from_str until_str : string)
  : result nat :=
  match api (mkParams from_str until_str MEETINGS 1 "json" None) with
  | None => Raise HTTPError
  | Some r => Ok (default 0 (numberOfRecords r))
  end.

(** Local variables of [fetch_initial]'s loops; [f_out] is what has been
    written through the open handle. *)
Record InitLoop := mkInitLoop {
  fetched : nat;
  i_latest_date : option string;
  all_ids : gset string;
  i_f_out : list (gmap string json)
}.

(** Body of [for rec in speech_records] in [fetch_initial]. *)
Definition initial_record (st : InitLoop) (rec : gmap string json) : InitLoop :=
  let speech_id := get rec "speechID" in
  mkInitLoop
    (fetched st + 1)
    (update_latest (get rec "date") (i_latest_date st))
    (if truthy speech_id then set_add speech_id (all_ids st) else all_ids st)
    (i_f_out st ++ [rec]).

(** [for i in range(pages)] of [fetch_initial], over the remaining indices. *)
Fixpoint initial_pages (api : Api) (from_str until_str : string) (total : nat)
         (idxs : list nat) (st : InitLoop) : InitLoop * result unit :=
  match idxs with
  | [] => (st, Ok tt)
  | i :: idxs' =>
      let start_record := 1 + i * MAX_RECORDS_PER_REQUEST in
      if (total <? start_record)%nat then (st, Ok tt)
      else
        match api (mkParams from_str until_str MEETINGS
                            MAX_RECORDS_PER_REQUEST "json" (Some start_record)) with
        | None => (st, Raise HTTPError)
        | Some data =>
            initial_pages api from_str until_str total idxs'
                          (foldl initial_record st (speech_records data))
        end
  end.

Definition fetch_initial (api : Api) (from_date to_date : date) (fs : Files)
  : Files * result (option string) :=
  let from_str := isoformat from_date in
  let until_str := isoformat to_date in
  match get_record_count api from_str until_str with
  | Raise e => (fs, Raise e)
  | Ok total =>
      if (total =? 0)%nat then (fs, Ok None)
      else
        let pages := ceil_div total MAX_RECORDS_PER_REQUEST in
        let '(st, r) :=
          initial_pages api from_str until_str total (seq 0 pages)
                        (mkInitLoop 0 None ∅ []) in
        let fs := set_out (Some (i_f_out st)) fs in
        match r with
        | Raise e => (fs, Raise e)
        | Ok _ => (save_fetched_ids (all_ids st) fs, Ok (i_latest_date st))
        end
  end.

(** Local variables of [fetch_incremental]'s loops; [f_out] is what has
    been appended through the open handle. *)
Record IncLoop := mkIncLoop {
  new_count : nat;
  latest_date : option string;
  existing_ids : gset string;
  new_ids : gset string;
  f_out : list (gmap string json)
}.

(** Body of [for rec in speech_records] in [fetch_incremental]; the first
    branch is the [continue]. *)
Definition incremental_record (st : IncLoop) (rec : gmap string json) : IncLoop :=
  let speech_id := get rec "speechID" in
  if truthy speech_id && set_contains speech_id (existing_ids st) then st
  else
    mkIncLoop
      (new_count st + 1)
      (update_latest (get rec "date") (latest_date st))
      (if truthy speech_id then set_add speech_id (existing_ids st)
       else existing_ids st)
      (if truthy speech_id then set_add speech_id (new_ids st) else new_ids st)
      (f_out st ++ [rec]).

Fixpoint incremental_pages (api : Api) (from_str until_str : string) (total : nat)
         (idxs : list nat) (st : IncLoop) : IncLoop * result unit :=
  match idxs with
  | [] => (st, Ok tt)
  | i :: idxs' =>
      let start_record := 1 + i * MAX_RECORDS_PER_REQUEST in
      if (total <? start_record)%nat then (st, Ok tt)
      else
        match api (mkParams from_str until_str MEETINGS
                            MAX_RECORDS_PER_REQUEST "json" (Some start_record)) with
        | None => (st, Raise HTTPError)
        | Some data =>
            incremental_pages api from_str until_str total idxs'
                              (foldl incremental_record st (speech_records data))
        end
  end.

Section with_strip.
(** [str.strip] *)
Variable strip : string → string.

(** [set(line.strip() for line in f if line.strip())] *)
Definition load_fetched_ids (fs : Files) : gset string :=
  match ids_file fs with
  | None => ∅
  | Some lines =>
      list_to_set (filter (λ l, l ≠ "") (strip <$> lines))
  end.

Definition fetch_incremental (api : Api) (from_date to_date : date) (fs : Files)
  : Files * result (option string) :=
  let from_str := isoformat from_date in
  let until_str := isoformat to_date in
  let existing_ids := load_fetched_ids fs in
  match get_record_count api from_str until_str with
  | Raise e => (fs, Raise e)
  | Ok total =>
      if (total =? 0)%nat then (fs, Ok None)
      else
        let pages := ceil_div total MAX_RECORDS_PER_REQUEST in
        let '(st, r) :=
          incremental_pages api from_str until_str total (seq 0 pages)
                            (mkIncLoop 0 None existing_ids ∅ []) in
        let fs := set_out (Some (default [] (out_file fs) ++ f_out st)) fs in
        match r with
        | Raise e => (fs, Raise e)
        | Ok _ =>
            let fs :=
              if bool_decide (new_ids st = ∅) then fs
              else append_fetched_ids (new_ids st) fs in
            (fs, Ok (latest_date st))
        end
  end.

(** [if latest: save_state(latest)] *)
Definition save_latest (latest : option string) (fs : Files) : Files :=
  match latest with
  | Some d => if truthy (JStr d) then save_state d fs else fs
  | None => fs
  end.

Definition auto_fetch (today : date) (api : Api) (fs : Files)
  : Files * result unit :=
  let state := load_state fs in
  let run :=
    match out_file fs with
    | None | Some [] => fetch_initial api INIT_FROM_DATE today fs
    | Some (_ :: _) =>
        match state with
        | JStr s =>
            if truthy state then
              match fromisoformat s with
              | None => (fs, Raise ValueError)
              | Some d =>
                  match sub_days d 3 with
                  | None => (fs, Raise OverflowError)
                  | Some from_date => fetch_incremental api from_date today fs
                  end
              end
            else fetch_incremental api INIT_FROM_DATE today fs
        | JNull => fetch_incremental api INIT_FROM_DATE today fs
        end
    end in
  match run with
  | (fs', Raise e) => (fs', Raise e)
  | (fs', Ok latest) => (save_latest latest fs', Ok tt)
  end.

(** A run of one of the two fetch operations, and a sequence of runs;
    a run that raises leaves what it had written (the scheduler starts
    the next run from there). *)
Inductive Run :=
| Full (api : Api) (from_date to_date : date)
| Incremental (api : Api) (from_date to_date : date).

Definition run (r : Run) (fs : Files) : Files * result (option string) :=
  match r with
  | Full api f t => fetch_initial api f t fs
  | Incremental api f t => fetch_incremental api f t fs
  end.

Definition runs (rs : list Run) (fs : Files) : Files :=
  foldl (λ fs r, fst (run r fs)) fs rs.

(** Every run of the sequence returned normally. *)
Fixpoint runs_ok (rs : list Run) (fs : Files) : bool :=
  match rs with
  | [] => true
  | r :: rs' => is_ok (snd (run r fs)) && runs_ok rs' (fst (run r fs))
  end.

End with_strip.

(** *** Vocabulary of the properties *)

(** The identifier a record carries, if it carries a non-empty one. *)
Definition record_id (rec : gmap string json) : option string :=
  match get rec "speechID" with
  | JStr s => if truthy (JStr s) then Some s else None
  | JNull => None
  end.

(** The date a record carries, if it carries a non-empty one. *)
Definition record_date (rec : gmap string json) : option string :=
  match get rec "date" with
  | JStr s => if truthy (JStr s) then Some s else None
  | JNull => None
  end.

Definition ids_of (recs : list (gmap string json)) : list string :=
  omap record_id recs.

Definition dates_of (recs : list (gmap string json)) : list string :=
  omap record_date recs.

(** [m] is the greatest of the dates the records carry. *)
Definition max_date (recs : list (gmap string json)) (m : string) : Prop :=
  m ∈ dates_of recs ∧ ∀ d, d ∈ dates_of recs → (d ≤ m)%string.

(** A record the upstream service hands out in some reply of a run. *)
Definition delivers (api : Api) (rec : gmap string json) : Prop :=
  ∃ p resp, api p = Some resp ∧ rec ∈ speech_records resp.

Definition api_of (r : Run) : Api :=
  match r with
  | Full api _ _ => api
  | Incremental api _ _ => api
  end.

(** No carriage return or line feed occurs in [s]. *)
Definition single_line (s : string) : bool :=
  forallb (λ a, negb (Ascii.eqb a "010" || Ascii.eqb a "013"))
          (String.list_ascii_of_string s).

(** An identifier that the line-oriented ID file stores faithfully: it
    fits one line (as [ids_file] takes every identifier written to do),
    reading it back with [strip] gives it unchanged, and it is not
    empty. *)
Definition clean (strip : string → string) (s : string) : Prop :=
  strip s = s ∧ s ≠ "" ∧ single_line s = true.

(** Every identifier that a run of [rs] is handed is [clean]. *)
Definition clean_ids (strip : string → string) (rs : list Run) : Prop :=
  ∀ r rec s, r ∈ rs → delivers (api_of r) rec → record_id rec = Some s →
             clean strip s.

(** Every record that a run of [rs] is handed carries an identifier. *)
Definition all_identified (rs : list Run) : Prop :=
  ∀ r rec, r ∈ rs → delivers (api_of r) rec → is_Some (record_id rec).

(** Every record the service hands out has its identifier in [ids]. *)
Definition all_known (api : Api) (ids : gset string) : Prop :=
  ∀ rec, delivers api rec → ∃ s, get rec "speechID" = JStr s ∧ s ∈ ids.

(** The loop invariant of [fetch_incremental], for the set [E] loaded at
    the start of the run. *)
Definition inc_inv (E : gset string) (st : IncLoop) : Prop :=
  existing_ids st = E ∪ new_ids st
  ∧ new_ids st ## E
  ∧ new_ids st = list_to_set (ids_of (f_out st))
  ∧ NoDup (ids_of (f_out st))
  ∧ new_count st = length (f_out st).

(** The loop invariant of [fetch_initial]. *)
Definition init_inv (st : InitLoop) : Prop :=
  all_ids st = list_to_set (ids_of (i_f_out st))
  ∧ fetched st = length (i_f_out st).

(** The ID file holds clean identifiers, none of them twice. *)
Definition ids_file_ok (strip : string → string) (fs : Files) : Prop :=
  NoDup (default [] (ids_file fs))
  ∧ Forall (clean strip) (default [] (ids_file fs)).

(** The ID file is as above; every record of the record file carries an
    identifier, which the ID file lists, and no two carry the same. *)
Definition files_ok (strip : string → string) (fs : Files) : Prop :=
  ids_file_ok strip fs
  ∧ NoDup (ids_of (default [] (out_file fs)))
  ∧ (∀ s, s ∈ ids_of (default [] (out_file fs)) → s ∈ default [] (ids_file fs))
  ∧ Forall (λ rec, is_Some (record_id rec)) (default [] (out_file fs)).

(** Incremental runs, each with its service and date range. *)
Definition incrementals (l : list (Api * date * date)) : list Run :=
  (λ x, Incremental x.1.1 x.1.2 x.2) <$> l.

(** The end of [auto_fetch], after either fetch operation. *)
Definition then_save_state (r : Files * result (option string))
  : Files * result unit :=
  match r with
  | (fs', Raise e) => (fs', Raise e)
  | (fs', Ok latest) => (save_latest latest fs', Ok tt)
  end.

(** The records that [fs'] holds beyond those of [fs]. *)
Definition new_records (fs fs' : Files) : list (gmap string json) :=
  drop (length (default [] (out_file fs))) (default [] (out_file fs')).

(** [latest] is what the date tracking of both loops has reached after
    the records [recs]. *)
Definition tracks (latest : option string) (recs : list (gmap string json))
  : Prop :=
  match latest with
  | None => dates_of recs = []
  | Some m => max_date recs m
  end.

(** *** The listing a run reads, and the script run day after day *)

(** The request for page [i] of a listing, as both fetch operations make
    it. *)
Definition page_request (from_str until_str : string) (i : nat) : Params :=
  mkParams from_str until_str MEETINGS MAX_RECORDS_PER_REQUEST "json"
           (Some (1 + i * MAX_RECORDS_PER_REQUEST)).

(** The records of page [i]; none when the request fails. *)
Definition page_records (api : Api) (from_str until_str : string) (i : nat)
  : list (gmap string json) :=
  match api (page_request from_str until_str i) with
  | Some data => speech_records data
  | None => []
  end.

(** The records that the page loop of either fetch operation is handed
    over the page indexes [idxs], in order, and how the loop ends. *)
Fixpoint read_pages (api : Api) (from_str until_str : string) (total : nat)
         (idxs : list nat) : list (gmap string json) * result unit :=
  match idxs with
  | [] => ([], Ok tt)
  | i :: idxs' =>
      if (total <? 1 + i * MAX_RECORDS_PER_REQUEST)%nat then ([], Ok tt)
      else
        match api (page_request from_str until_str i) with
        | None => ([], Raise HTTPError)
        | Some data =>
            let '(more, r) := read_pages api from_str until_str total idxs' in
            (speech_records data ++ more, r)
        end
  end.

(** [auto_fetch] run once a day, each day against the service as it is
    that day; a run starts from the files the one before left. *)
Definition auto_runs (strip : string → string) (days : list (date * Api))
           (fs : Files) : Files :=
  foldl (λ fs day, (auto_fetch strip day.1 day.2 fs).1) fs days.

(** Every run of the sequence returned normally. *)
Fixpoint auto_runs_ok (strip : string → string) (days : list (date * Api))
         (fs : Files) : bool :=
  match days with
  | [] => true
  | day :: days' =>
      is_ok (auto_fetch strip day.1 day.2 fs).2
      && auto_runs_ok strip days' (auto_fetch strip day.1 day.2 fs).1
  end.

End get_diet_speeches.

(** ** [langchain_core.documents.Document] *)

Record Document := mkDocument {
  page_content : string;
  metadata : gmap string py.value
}.

#[global] Instance Document_eq_dec : EqDecision Document.
Proof. solve_decision. Defined.

(** ** src/update_vectorstore.py *)

Module update_vectorstore.
Import py.

Definition COLLECTION_NAME : string := "kokkai_diet_all".
Definition MAX_LEN_NO_SPLIT : nat := 1200.
Definition CHUNK_SIZE : nat := 1200.
Definition CHUNK_OVERLAP : nat := 200.
Definition BATCH_SIZE : nat := 200.

(** The arguments given to [RecursiveCharacterTextSplitter]. *)
Record Splitter := mkSplitter {
  chunk_size : nat;
  chunk_overlap : nat;
  separators : list string
}.

Definition splitter : Splitter :=
  mkSplitter CHUNK_SIZE CHUNK_OVERLAP [nl +:+ nl; nl; "。"; "、"; " "].

(** The records of the JSONL file, in order (blank lines carry none). *)
Definition iter_speech_records (jsonl : list (gmap string json))
  : list (gmap string json) := jsonl.

(** [header + rec.get("speech", "")]; adding [None] to a [str] raises. *)
Definition build_base_text (rec : gmap string json) : result string :=
  let header :=
    "【日付】" +:+ format (get_or rec "date" (JStr "")) +:+ nl
    +:+ "【院】" +:+ format (get_or rec "nameOfHouse" (JStr "")) +:+ nl
    +:+ "【会議】" +:+ format (get_or rec "nameOfMeeting" (JStr "")) +:+ nl
    +:+ "【発言者】" +:+ format (get_or rec "speaker" (JStr "")) +:+ nl +:+ nl in
  match get_or rec "speech" (JStr "") with
  | JStr speech => Ok (header +:+ speech)
  | JNull => Raise TypeError
  end.

Definition build_metadata (rec : gmap string json) (rec_idx : nat)
  : gmap string value :=
  list_to_map
    [ ("speechID", of_json (get rec "speechID"));
      ("issueID", of_json (get rec "issueID"));
      ("date", of_json (get rec "date"));
      ("nameOfHouse", of_json (get rec "nameOfHouse"));
      ("nameOfMeeting", of_json (get rec "nameOfMeeting"));
      ("speaker", of_json (get rec "speaker"));
      ("speakerGroup", of_json (get rec "speakerGroup"));
      ("speechURL", of_json (get rec "speechURL"));
      ("meetingURL", of_json (get rec "meetingURL"));
      ("record_index", VInt (Z.of_nat rec_idx)) ].

(** [{**meta_base, "chunk_index": i, "chunk_count": n}] *)
Definition chunk_metadata (meta_base : gmap string value) (i n : nat)
  : gmap string value :=
  <["chunk_count" := VInt (Z.of_nat n)]>
    (<["chunk_index" := VInt (Z.of_nat i)]> meta_base).

Section with_splitter.
(** [splitter.split_text] of langchain, for a splitter configuration. *)
Variable split_text : Splitter → string → list string.

(** The documents one iteration of [build_documents]'s loop yields. *)
Definition record_documents (rec_idx : nat) (rec : gmap string json)
  : result (list Document) :=
  match build_base_text rec with
  | Raise e => Raise e
  | Ok base_text =>
      let meta_base := build_metadata rec rec_idx in
      if (len base_text <=? MAX_LEN_NO_SPLIT)%nat then
        Ok [mkDocument base_text (chunk_metadata meta_base 0 1)]
      else
        let chunks := split_text splitter base_text in
        let total_chunks := length chunks in
        Ok (imap (λ chunk_idx chunk,
                  mkDocument chunk
                             (chunk_metadata meta_base chunk_idx total_chunks))
                 chunks)
  end.

(** The generator from record index [rec_idx] on: the documents yielded,
    and how the iteration ended. *)
Fixpoint build_documents_from (rec_idx : nat) (recs : list (gmap string json))
  : list Document * result unit :=
  match recs with
  | [] => ([], Ok tt)
  | rec :: rest =>
      match record_documents rec_idx rec with
      | Raise e => ([], Raise e)
      | Ok docs =>
          let '(more, r) := build_documents_from (S rec_idx) rest in
          (docs ++ more, r)
      end
  end.

Definition build_documents (jsonl : list (gmap string json))
  : list Document * result unit :=
  build_documents_from 1 (iter_speech_records jsonl).

(** The batching loop of [build_vectorstore]: [store] is the collection
    so far, [batch] the pending documents. *)
Fixpoint add_batches (docs : list Document) (batch store : list Document)
  : list Document * list Document :=
  match docs with
  | [] => (batch, store)
  | doc :: rest =>
      let batch := batch ++ [doc] in
      if (BATCH_SIZE <=? length batch)%nat
      then add_batches rest [] (store ++ batch)
      else add_batches rest batch store
  end.

(** The collection [build_vectorstore] leaves in the working directory. *)
Definition build_vectorstore (jsonl : list (gmap string json))
  : list Document * result unit :=
  let '(docs, r) := build_documents jsonl in
  let '(batch, store) := add_batches docs [] [] in
  match r with
  | Raise e => (store, Raise e)
  | Ok _ => (match batch with [] => store | _ :: _ => store ++ batch end, Ok tt)
  end.

End with_splitter.

(** *** The swap of the working and the active index directory *)

(** What a directory holds under a name; the swap never looks inside. *)
Inductive entry :=
| EFile (data : string)
| EDir (children : forest)
with forest :=
| FNil
| FCons (name : string) (e : entry) (rest : forest).

(** What is found at a path: nothing, a file, or a directory with its
    identity (inode) and its items by name. *)
Inductive node :=
| Absent
| IsFile (data : string)
| IsDir (ino : positive) (items : gmap string entry).

(** The two paths [swap_active_db] is given, which are distinct and not
    nested, and the next unused inode. *)
Record Disk := mkDisk {
  temp_dir : node;
  active_dir : node;
  next_ino : positive
}.

(** [shutil.rmtree(item)] or [item.unlink()], by [item.is_dir()]. *)
Definition remove_item (name : string) (e : entry) (items : gmap string entry)
  : gmap string entry :=
  match e with
  | EDir _ => delete name items
  | EFile _ => delete name items
  end.

(** [for item in active_dir.iterdir(): ...] *)
Definition clear_items (items : gmap string entry) : gmap string entry :=
  foldl (λ m item, remove_item item.1 item.2 m) items (map_to_list items).

(** [for item in temp_dir.iterdir(): shutil.move(item, active_dir / item.name)]:
    the items left in the source and those of the target. *)
Definition move_items (src dst : gmap string entry)
  : gmap string entry * gmap string entry :=
  foldl (λ sd item, (delete item.1 sd.1, <[item.1 := item.2]> sd.2))
        (src, dst) (map_to_list src).

Definition swap_active_db (d : Disk) : Disk * result unit :=
  let cleared :=
    match active_dir d with
    | IsDir ino items => Ok (ino, clear_items items, next_ino d)
    | IsFile _ => Raise NotADirectoryError
    | Absent => Ok (next_ino d, ∅, Pos.succ (next_ino d))
    end in
  match cleared with
  | Raise e => (d, Raise e)
  | Ok (ino, items, next) =>
      match temp_dir d with
      | Absent => (mkDisk Absent (IsDir ino items) next, Raise FileNotFoundError)
      | IsFile x => (mkDisk (IsFile x) (IsDir ino items) next, Raise NotADirectoryError)
      | IsDir tino titems =>
          let '(remaining, moved) := move_items titems items in
          if bool_decide (remaining = ∅)
          then (mkDisk Absent (IsDir ino moved) next, Ok tt)
          else (mkDisk (IsDir tino remaining) (IsDir ino moved) next, Raise OSError)
      end
  end.

(** *** The calls of [add_documents], and [main] *)

(** The record file and the two index directories. *)
Record World := mkWorld {
  data_path : option (list (gmap string json));
  disk : Disk
}.

Section with_chroma.
Variable split_text : Splitter → string → list string.
(** The items that Chroma keeps in the persist directory of a collection. *)
Variable persist : list Document → gmap string entry.

(** The batching loop of [build_vectorstore] once more, now keeping the
    argument of every [vectorstore.add_documents(batch)] made inside the
    loop, and the pending batch. *)
Fixpoint batch_calls (docs : list Document) (batch : list Document)
  : list (list Document) * list Document :=
  match docs with
  | [] => ([], batch)
  | doc :: rest =>
      let batch := batch ++ [doc] in
      if (BATCH_SIZE <=? length batch)%nat
      then let '(calls, pending) := batch_calls rest [] in (batch :: calls, pending)
      else batch_calls rest batch
  end.

(** The arguments of the calls of [add_documents] that a run of
    [build_vectorstore] makes, in order; the last batch is added only
    when the generator has not raised. *)
Definition add_documents_calls (jsonl : list (gmap string json))
  : list (list Document) :=
  let '(docs, r) := build_documents split_text jsonl in
  let '(calls, pending) := batch_calls docs [] in
  match r with
  | Raise _ => calls
  | Ok _ => match pending with [] => calls | _ :: _ => calls ++ [pending] end
  end.

(** [build_vectorstore(TEMP_DB_DIR)] on the disk: what is at the path is
    removed with [shutil.rmtree], which raises on a file, and Chroma keeps
    the collection in a directory it creates there. *)
Definition build_vectorstore_in_temp (jsonl : list (gmap string json)) (d : Disk)
  : Disk * result unit :=
  match temp_dir d with
  | IsFile _ => (d, Raise NotADirectoryError)
  | Absent | IsDir _ _ =>
      let '(store, r) := build_vectorstore split_text jsonl in
      (mkDisk (IsDir (next_ino d) (persist store)) (active_dir d)
              (Pos.succ (next_ino d)),
       r)
  end.

Definition main (w : World) : World * result unit :=
  match data_path w with
  | None => (w, Raise FileNotFoundError)
  | Some jsonl =>
      match build_vectorstore_in_temp jsonl (disk w) with
      | (d, Raise e) => (mkWorld (data_path w) d, Raise e)
      | (d, Ok _) =>
          let '(d, r) := swap_active_db d in
          (mkWorld (data_path w) d, r)
      end
  end.

End with_chroma.

End update_vectorstore.

(** ** src/utils.py *)

Module utils.
Import py.

Definition COLLECTION_NAME : string := "kokkai_diet_all".
Definition EMBED_MODEL : string := "intfloat/multilingual-e5-small".

(** ["\n\n".join(d.page_content for d in docs)] *)
Definition format_docs (docs : list Document) : string :=
  String.concat (nl +:+ nl) (page_content <$> docs).

End utils.

(** ** src/rag_engine.py *)

Module rag_engine.
Import py.

Definition DEFAULT_MODEL : string := "gpt-4o-mini".
Definition DEFAULT_TOP_K : Z := 3.
Definition DEFAULT_SPEAKER : string := "高市早苗".

(** A turn kept in a [ChatMessageHistory]. *)
Inductive Message :=
| HumanMessage (content : string)
| AIMessage (content : string).

(** The pipeline [prompt | llm | StrOutputParser()] built at start-up. *)
Record Chain := mkChain { chain_model : string }.

(** The module-level state: [_vectordb], [_chain] and the session store
    that [_chain] closes over. *)
Record Engine := mkEngine {
  _vectordb : option (list Document);
  _chain : option Chain;
  _history_store : gmap string (list Message)
}.

(** One element of ["context_docs"]. *)
Record ContextEntry := mkContextEntry {
  content : string;
  source : value
}.

Record Answer := mkAnswer {
  answer : string;
  context_docs : list ContextEntry
}.

(** A [filter] of [search_kwargs]: equality on each listed metadata field. *)
Definition matches (flt : gmap string value) (d : Document) : Prop :=
  ∀ k v, flt !! k = Some v → metadata d !! k = Some v.

(** What the vector store promises for a filtered search: every hit is a
    document of the collection that passes the filter. *)
Definition honours_filter
           (retrieve : list Document → Z → gmap string value → string
                       → result (list Document)) : Prop :=
  ∀ db k flt q docs,
    retrieve db k flt q = Ok docs →
    Forall (λ d, d ∈ db ∧ matches flt d) docs.

(** [{"content": d.page_content, "source": d.metadata.get("source")}] *)
Definition to_entry (d : Document) : ContextEntry :=
  mkContextEntry (page_content d) (vget (metadata d) "source").

(** Module initialisation: [load_vectorstore] then
    [build_rag_chain_with_memory]; [persist_dir] is the collection stored
    under [PERSIST_DIR], if the directory exists. *)
Definition load_vectorstore (persist_dir : option (list Document))
  : result (list Document) :=
  match persist_dir with
  | None => Raise RuntimeError
  | Some db => Ok db
  end.

Definition initialise (persist_dir : option (list Document)) : result Engine :=
  match load_vectorstore persist_dir with
  | Raise e => Raise e
  | Ok db => Ok (mkEngine (Some db) (Some (mkChain DEFAULT_MODEL)) ∅)
  end.

Section with_services.
(** [vectordb.as_retriever(search_kwargs={"k": k, "filter": flt}).invoke(q)] *)
Variable retrieve :
  list Document → Z → gmap string value → string → result (list Document).
(** The chat model on the rendered prompt: context, prior turns, question. *)
Variable llm : Chain → string → list Message → string → result string.

(** [get_session_history] *)
Definition get_session_history (session_id : string)
           (store : gmap string (list Message))
  : gmap string (list Message) * list Message :=
  match store !! session_id with
  | Some h => (store, h)
  | None => (<[session_id := []]> store, [])
  end.

(** [_chain.invoke({"context": ..., "question": ...}, config=...)]: the
    two turns are recorded once the model has answered. *)
Definition chain_invoke (chain : Chain) (context question session_id : string)
           (store : gmap string (list Message))
  : gmap string (list Message) * result string :=
  let '(store, history) := get_session_history session_id store in
  match llm chain context history question with
  | Raise e => (store, Raise e)
  | Ok response =>
      (<[session_id := history ++ [HumanMessage question; AIMessage response]]> store,
       Ok response)
  end.

Definition answer_question (question : string) (top_k : Z) (session_id : string)
           (eng : Engine) : Engine * result Answer :=
  match _vectordb eng, _chain eng with
  | Some vectordb, Some chain =>
      let speaker_filter : gmap string value :=
        {[ "speaker" := VStr DEFAULT_SPEAKER ]} in
      match retrieve vectordb top_k speaker_filter question with
      | Raise e => (eng, Raise e)
      | Ok docs =>
          let context_text := utils.format_docs docs in
          let '(store, r) :=
            chain_invoke chain context_text question session_id
                         (_history_store eng) in
          let eng := mkEngine (_vectordb eng) (_chain eng) store in
          match r with
          | Raise e => (eng, Raise e)
          | Ok response =>
              (eng,
               Ok (mkAnswer response (to_entry <$> docs)))
          end
      end
  | _, _ => (eng, Raise RuntimeError)
  end.

End with_services.

(** A reference retriever: the first [k] documents of the collection that
    pass the filter, in stored order. *)
Definition matchesb (flt : gmap string value) (d : Document) : bool :=
  bool_decide (map_Forall (λ k v, metadata d !! k = Some v) flt).

Definition first_matching (db : list Document) (k : Z) (flt : gmap string value)
           (q : string) : result (list Document) :=
  if (k <=? 0)%Z then Raise ValueError
  else Ok (take (Z.to_nat k) (filter (λ d, matchesb flt d = true) db)).

End rag_engine.

(** ** src/app.py *)

Module app.
Import py.

Definition DEFAULT_TOP_K : Z := 10.

(** The decoded JSON body of a request; [None] is a member left out. *)
Record Body := mkBody {
  body_question : option string;
  body_top_k : option Z;
  body_session_id : option string
}.

Record AskRequest := mkAskRequest {
  question : string;
  top_k : Z;
  session_id : string
}.

Record ContextDoc := mkContextDoc {
  content : string;
  source : option string
}.

Record AskResponse := mkAskResponse {
  answer : string;
  context_docs : list ContextDoc
}.

(** The validation the declared fields of [AskRequest] impose: [question]
    is required, [top_k] defaults to [DEFAULT_TOP_K] and is checked against
    [ge=1, le=50], [session_id] defaults to ["default"]. *)
Definition validate (b : Body) : result AskRequest :=
  match body_question b with
  | None => Raise ValidationError
  | Some q =>
      match body_top_k b with
      | None => Ok (mkAskRequest q DEFAULT_TOP_K (default "default" (body_session_id b)))
      | Some k =>
          if ((1 <=? k) && (k <=? 50))%Z
          then Ok (mkAskRequest q k (default "default" (body_session_id b)))
          else Raise ValidationError
      end
  end.

(** [ContextDoc(content=..., source=...)]: [source] is [str | None]. *)
Definition to_ContextDoc (e : rag_engine.ContextEntry) : result ContextDoc :=
  match rag_engine.source e with
  | VNone => Ok (mkContextDoc (rag_engine.content e) None)
  | VStr s => Ok (mkContextDoc (rag_engine.content e) (Some s))
  | VInt _ => Raise ValidationError
  end.

Fixpoint to_ContextDocs (es : list rag_engine.ContextEntry)
  : result (list ContextDoc) :=
  match es with
  | [] => Ok []
  | e :: es' =>
      match to_ContextDoc e, to_ContextDocs es' with
      | Ok c, Ok cs => Ok (c :: cs)
      | Raise x, _ => Raise x
      | _, Raise x => Raise x
      end
  end.

Definition health_check : list (string * string) := [("status", "ok")].

Section with_engine.
(** The query engine the handler delegates to: [answer_question]. *)
Variable answer_question :
  string → Z → string → rag_engine.Engine
  → rag_engine.Engine * result rag_engine.Answer.

Definition ask (req : AskRequest) (eng : rag_engine.Engine)
  : rag_engine.Engine * result AskResponse :=
  match answer_question (question req) (top_k req) (session_id req) eng with
  | (eng, Raise e) => (eng, Raise e)
  | (eng, Ok res) =>
      match to_ContextDocs (rag_engine.context_docs res) with
      | Raise e => (eng, Raise e)
      | Ok docs => (eng, Ok (mkAskResponse (rag_engine.answer res) docs))
      end
  end.

(** [POST /ask]: the body is validated into an [AskRequest] before the
    handler runs. *)
Definition post_ask (b : Body) (eng : rag_engine.Engine)
  : rag_engine.Engine * result AskResponse :=
  match validate b with
  | Raise e => (eng, Raise e)
  | Ok req => ask req eng
  end.

End with_engine.

End app.

(** ** src/ui_gradio.py *)

Module ui_gradio.
Import py.

Definition DEFAULT_TOP_K : Z := 10.

(** One entry of the transcript: [{"role": ..., "content": ...}]. *)
Record ChatMessage := mkChatMessage {
  role : string;
  content : string
}.

Section with_engine.
(** The query engine the handler delegates to: [answer_question]. *)
Variable answer_question :
  string → Z → string → rag_engine.Engine
  → rag_engine.Engine * result rag_engine.Answer.

(** [chat_fn].  The two appends are made in place, so the result holds,
    besides the engine and the outcome (the chatbot value and the state
    value, the same list twice), what the list that was passed as
    [history] holds afterwards; [None] is replaced by a list of the
    function's own. *)
Definition chat_fn (message : string) (history : option (list ChatMessage))
           (top_k : Z) (eng : rag_engine.Engine)
  : rag_engine.Engine * option (list ChatMessage)
    * result (list ChatMessage * list ChatMessage) :=
  let h := default [] history ++ [mkChatMessage "user" message] in
  match answer_question message top_k "default" eng with
  | (eng, Raise e) =>
      (eng, match history with Some _ => Some h | None => None end, Raise e)
  | (eng, Ok result) =>
      let answer := rag_engine.answer result in
      let h := h ++ [mkChatMessage "assistant" answer] in
      (eng, match history with Some _ => Some h | None => None end, Ok (h, h))
  end.

(** [clear_history]: the chatbot value and the state value. *)
Definition clear_history : list ChatMessage * list ChatMessage := ([], []).

(** Submissions one after the other, as [build_demo] wires them: the
    state value a call returns is the [history] of the next; the first
    call that raises ends the run. *)
Fixpoint chat_turns (turns : list (string * Z)) (state : list ChatMessage)
         (eng : rag_engine.Engine)
  : rag_engine.Engine * result (list ChatMessage) :=
  match turns with
  | [] => (eng, Ok state)
  | (message, top_k) :: turns' =>
      match chat_fn message (Some state) top_k eng with
      | (eng, _, Raise e) => (eng, Raise e)
      | (eng, _, Ok (_, state)) => chat_turns turns' state eng
      end
  end.

End with_engine.

(** A turn of the engine's session memory as the transcript shows it. *)
Definition shown (m : rag_engine.Message) : ChatMessage :=
  match m with
  | rag_engine.HumanMessage c => mkChatMessage "user" c
  | rag_engine.AIMessage c => mkChatMessage "assistant" c
  end.

End ui_gradio.

(** ** Sample data *)

Module samples.
Import py datetime get_diet_speeches.

(** A service that announces [count] records, serves [recs] as the first
    page and fails on every other page. *)
Definition service (count : nat) (recs : list (gmap string json)) : Api :=
  λ p,
    match startRecord p with
    | None => Some (mkResponse (Some count) SRAbsent)
    | Some 1 => Some (mkResponse (Some count) (SRList recs))
    | Some _ => None
    end.

(** A service whose whole listing fits the first page. *)
Definition one_page (recs : list (gmap string json)) : Api :=
  service (length recs) recs.

Definition speech (id date text : string) : gmap string json :=
  list_to_map
    [ ("speechID", JStr id); ("date", JStr date); ("nameOfHouse", JStr "衆議院");
      ("nameOfMeeting", JStr "予算委員会"); ("speaker", JStr "高市早苗");
      ("speech", JStr text) ].

Definition rec1 : gmap string json := speech "S1" "2024-03-01" "経済安全保障について。".
Definition rec2 : gmap string json := speech "S2" "2024-03-04" "質問にお答えします。".
Definition rec3 : gmap string json := speech "S3" "2024-03-05" "そのとおりです。".

(** A record without identifier, and one without date. *)
Definition rec_no_id : gmap string json :=
  list_to_map [ ("date", JStr "2024-03-01"); ("speech", JStr "以上です。") ].
Definition rec_no_date : gmap string json :=
  list_to_map [ ("speechID", JStr "S9"); ("speech", JStr "以上です。") ].

(** A record whose identifier ends in a blank. *)
Definition rec_blank : gmap string json := speech "S1 " "2024-03-01" "以上です。".

Definition day1 : date := mkdate 2024 3 5.
Definition day2 : date := mkdate 2024 3 6.

(** A splitter that cuts after [chunk_size] bytes, once. *)
Definition cut_once (cfg : update_vectorstore.Splitter) (text : string)
  : list string :=
  [ String.substring 0 (update_vectorstore.chunk_size cfg) text;
    String.substring (update_vectorstore.chunk_size cfg)
                     (String.length text - update_vectorstore.chunk_size cfg) text ].

Definition long_text : string :=
  String.concat "" (replicate 1300 "a").

Definition model_says (reply : string)
  : rag_engine.Chain → string → list rag_engine.Message → string → result string :=
  λ _ _ _ _, Ok reply.

(** The formatted text of a record ([""] if formatting raises). *)
Definition text_of (rec : gmap string json) : string :=
  match update_vectorstore.build_base_text rec with
  | Ok text => text
  | Raise _ => ""
  end.

Definition rec_long : gmap string json := speech "S4" "2024-03-05" long_text.

(** A record of another speaker. *)
Definition rec_other : gmap string json :=
  <["speaker" := JStr "岸田文雄"]> rec2.

(** The runs of the examples: a full fetch on the first day, then an
    incremental fetch that is handed the same records and one more. *)
Definition first_run : Run := Full (one_page [rec1; rec2]) INIT_FROM_DATE day1.
Definition later_run : Api * date * date :=
  (one_page [rec1; rec2; rec3], mkdate 2024 3 1, day2).

(** The files after [auto_fetch] has run the full fetch of [first_run] on
    the first day. *)
Definition files1 : Files :=
  mkFiles (Some [rec1; rec2]) (Some (JStr "2024-03-04")) (Some ["S1"; "S2"]).

(** An index built from three records, and an engine that has loaded it. *)
Definition sample_db : list Document :=
  (update_vectorstore.build_vectorstore cut_once [rec1; rec_other; rec_long]).1.

Definition sample_engine : rag_engine.Engine :=
  rag_engine.mkEngine (Some sample_db)
                      (Some (rag_engine.mkChain rag_engine.DEFAULT_MODEL)) ∅.

(** What a search of [sample_db] for the target speaker returns. *)
Definition sample_hits : list Document :=
  take 10
       (filter (λ d, rag_engine.matchesb
                       {[ "speaker" := VStr rag_engine.DEFAULT_SPEAKER ]} d = true)
               sample_db).

(** A working directory with a fresh index next to an active directory
    with an old one. *)
Definition fresh_items : gmap string update_vectorstore.entry :=
  {[ "chroma.sqlite3" := update_vectorstore.EFile "new";
     "segments" := update_vectorstore.EDir
                     (update_vectorstore.FCons "data.bin"
                        (update_vectorstore.EFile "vectors")
                        update_vectorstore.FNil) ]}.

Definition sample_disk : update_vectorstore.Disk :=
  update_vectorstore.mkDisk
    (update_vectorstore.IsDir 7 fresh_items)
    (update_vectorstore.IsDir 3
       {[ "chroma.sqlite3" := update_vectorstore.EFile "old";
          "stale.lock" := update_vectorstore.EFile "" ]})
    9.

(** A record whose speech is [null]. *)
Definition rec_null : gmap string json := <["speech" := JNull]> rec2.

(** The files after the incremental fetch of [later_run] on [files1]. *)
Definition files2 : Files :=
  mkFiles (Some [rec1; rec2; rec3]) (Some (JStr "2024-03-04"))
          (Some ["S1"; "S2"; "S3"]).

(** Two days of the script. *)
Definition two_days : list (date * Api) :=
  [ (day1, one_page [rec1; rec2]); (day2, one_page [rec1; rec2; rec3]) ].

(** The document of [rec1] as the first record of a file. *)
Definition doc1 : Document :=
  mkDocument (text_of rec1)
             (update_vectorstore.chunk_metadata
                (update_vectorstore.build_metadata rec1 1) 0 1).

(** A stand-in for what Chroma keeps: one file with the texts. *)
Definition one_file (docs : list Document)
  : gmap string update_vectorstore.entry :=
  {[ "chroma.sqlite3" := update_vectorstore.EFile (utils.format_docs docs) ]}.

Definition sample_world : update_vectorstore.World :=
  update_vectorstore.mkWorld (Some [rec1]) sample_disk.

(** A model that fails. *)
Definition model_fails
  : rag_engine.Chain → string → list rag_engine.Message → string → result string :=
  λ _ _ _ _, Raise RuntimeError.

(** The sample engine with a memory for the session ["default"]. *)
Definition engine_with (history : list rag_engine.Message) : rag_engine.Engine :=
  rag_engine.mkEngine (Some sample_db)
                      (Some (rag_engine.mkChain rag_engine.DEFAULT_MODEL))
                      {[ "default" := history ]}.

Definition exchange (question : string) : list rag_engine.Message :=
  [ rag_engine.HumanMessage question; rag_engine.AIMessage "答えます。" ].

Definition shown_exchange (message : string) : list ui_gradio.ChatMessage :=
  [ ui_gradio.mkChatMessage "user" message;
    ui_gradio.mkChatMessage "assistant" "答えます。" ].

(** What [POST /ask] returns for the sample engine. *)
Definition sample_response : app.AskResponse :=
  app.mkAskResponse
    "答えます。"
    ((λ d, app.mkContextDoc (page_content d) None) <$> sample_hits).

End samples.

(** * Properties *)

(** ** The calendar *)

Section calendar.
Import datetime.
Local Open Scope Z_scope.

Lemma foldr_add_init {A} (g : A → Z) (c : Z) (l : list A) :
  foldr (λ k acc, g k + acc) c l = foldr (λ k acc, g k + acc) 0 l + c.
Proof. induction l as [|k l IH]; simpl; [done|]. rewrite IH. lia. Qed.

Lemma days_before_month_succ y m :
  1 ≤ m → days_before_month y (m + 1) = days_before_month y m + days_in_month y m.
Proof.
  intros Hm. unfold days_before_month.
  replace (Z.to_nat (m + 1 - 1)) with (S (Z.to_nat (m - 1))) by lia.
  rewrite seq_S, foldr_app. simpl. rewrite foldr_add_init.
  replace (Z.of_nat (S (Z.to_nat (m - 1)))) with m by lia. lia.
Qed.

(** The search for the month keeps the day of the year. *)
Lemma month_of_sum fuel y m n m' r :
  1 ≤ m → month_of fuel y m n = (m', r) →
  days_before_month y m' + r = days_before_month y m + n.
Proof.
  revert m n. induction fuel as [|fuel IH]; intros m n Hm; simpl.
  - by intros [= <- <-].
  - destruct (n <? days_in_month y m); [by intros [= <- <-]|].
    intros Hrec. apply IH in Hrec; [|lia].
    rewrite Hrec, days_before_month_succ by done. lia.
Qed.

Lemma days_before_month_12 y :
  days_before_month y 12 = if is_leap y then 335 else 334.
Proof.
  unfold days_before_month, days_in_month. simpl. by destruct (is_leap y).
Qed.

(** From 0001-01-01 on, the date of an ordinal has that ordinal. *)
Lemma toordinal_fromordinal n : 1 ≤ n → toordinal (fromordinal n) = n.
Proof.
  intros Hn. unfold fromordinal. cbv zeta.
  set (a := n - 1).
  set (n400 := a / 146097). set (r := a mod 146097).
  set (n100 := r / 36524). set (r1 := r mod 36524).
  set (n4 := r1 / 1461). set (r2 := r1 mod 1461).
  set (n1 := r2 / 365). set (r3 := r2 mod 365).
  set (y := n400 * 400 + 1 + n100 * 100 + n4 * 4 + n1).
  assert (n = 146097 * n400 + 36524 * n100 + 1461 * n4 + 365 * n1 + r3 + 1
          ∧ 0 ≤ n400 ∧ 0 ≤ n100 ≤ 4 ∧ 0 ≤ n4 ≤ 24 ∧ 0 ≤ n1 ≤ 4 ∧ 0 ≤ r3 < 365
          ∧ (n100 = 4 → n4 = 0 ∧ n1 = 0 ∧ r3 = 0)
          ∧ (n1 = 4 → r3 = 0 ∧ n4 ≤ 23)) as (Hdec & H400 & H100 & H4 & H1 & H3 & Hc & Hy).
  { subst n400 r n100 r1 n4 r2 n1 r3 a.
    Z.to_euclidean_division_equations. lia. }
  clearbody n400 n100 n4 n1 r3. clear a r r1 r2.
  destruct ((n1 =? 4) || (n100 =? 4)) eqn:Hlast.
  - assert (is_leap (y - 1) = true) as Hleap.
    { unfold is_leap. apply andb_true_iff. split.
      - apply Z.eqb_eq. apply orb_true_iff in Hlast as [?%Z.eqb_eq|?%Z.eqb_eq];
          subst y; Z.to_euclidean_division_equations; lia.
      - apply orb_true_iff.
        apply orb_true_iff in Hlast as [?%Z.eqb_eq|?%Z.eqb_eq].
        + left. apply negb_true_iff, Z.eqb_neq.
          subst y; Z.to_euclidean_division_equations; lia.
        + right. apply Z.eqb_eq.
          subst y; Z.to_euclidean_division_equations; lia. }
    unfold toordinal. cbn [year month day].
    rewrite days_before_month_12, Hleap. unfold days_before_year. cbv zeta.
    apply orb_true_iff in Hlast as [?%Z.eqb_eq|?%Z.eqb_eq];
      subst y; Z.to_euclidean_division_equations; lia.
  - apply orb_false_iff in Hlast as [?%Z.eqb_neq ?%Z.eqb_neq].
    destruct (month_of 11 y 1 r3) as [m r'] eqn:Hm.
    apply month_of_sum in Hm; [|lia].
    unfold toordinal. cbn [year month day].
    replace (days_before_month y 1) with 0 in Hm by reflexivity.
    unfold days_before_year. cbv zeta.
    subst y; Z.to_euclidean_division_equations; lia.
Qed.

(** Subtracting [n] days moves the ordinal back by [n]. *)
Lemma sub_days_ordinal d n d' :
  sub_days d n = Some d' → toordinal d' = toordinal d - n.
Proof.
  unfold sub_days. cbv zeta.
  destruct ((1 <=? toordinal d - n) && (toordinal d - n <=? MAXORDINAL)) eqn:Hr;
    [|done].
  intros [= <-]. apply toordinal_fromordinal. lia.
Qed.

(** The value the Python documentation gives for [fromordinal]. *)
Example fromordinal_730920 :
  fromordinal 730920 = mkdate 2002 3 11
  ∧ toordinal (mkdate 2002 3 11) = 730920
  ∧ isoformat (mkdate 2002 3 11) = "2002-03-11"
  ∧ fromisoformat "2002-03-11" = Some (mkdate 2002 3 11).
Proof. repeat split; vm_compute; reflexivity. Qed.

(** Three days back across the end of February and of the year, and
    before the first day of the calendar. *)
Example sub_days_examples :
  sub_days (mkdate 2024 3 2) 3 = Some (mkdate 2024 2 28)
  ∧ sub_days (mkdate 2023 3 2) 3 = Some (mkdate 2023 2 27)
  ∧ sub_days (mkdate 2023 1 2) 3 = Some (mkdate 2022 12 30)
  ∧ sub_days (mkdate 1 1 2) 3 = None.
Proof. repeat split; vm_compute; reflexivity. Qed.
End calendar.

(** ** Document generation *)

Section document_generation.
Import py update_vectorstore.

Variable split_text : Splitter → string → list string.

Lemma chunk_metadata_index meta i n :
  chunk_metadata meta i n !! "chunk_index" = Some (VInt (Z.of_nat i)).
Proof.
  unfold chunk_metadata.
  rewrite lookup_insert_ne by discriminate.
  apply lookup_insert_eq.
Qed.

Lemma chunk_metadata_count meta i n :
  chunk_metadata meta i n !! "chunk_count" = Some (VInt (Z.of_nat n)).
Proof. unfold chunk_metadata. apply lookup_insert_eq. Qed.

Lemma chunk_metadata_other meta i n k :
  k ≠ "chunk_index" → k ≠ "chunk_count" →
  chunk_metadata meta i n !! k = meta !! k.
Proof.
  intros Hi Hc. unfold chunk_metadata.
  rewrite !lookup_insert_ne by congruence. reflexivity.
Qed.

(** Two chunks of one record differ in metadata at most in the index. *)
Lemma chunk_metadata_delete_index meta i j n :
  delete "chunk_index" (chunk_metadata meta i n)
  = delete "chunk_index" (chunk_metadata meta j n).
Proof.
  apply map_eq; intros k.
  destruct (decide (k = "chunk_index")) as [->|Hk].
  - by rewrite !lookup_delete_eq.
  - rewrite !lookup_delete_ne by congruence.
    unfold chunk_metadata.
    destruct (decide (k = "chunk_count")) as [->|Hc].
    + by rewrite !lookup_insert_eq.
    + by rewrite !lookup_insert_ne by congruence.
Qed.

(** The generator on a file is the generator on a prefix followed, when
    the prefix went through, by the generator on the rest. *)
Lemma build_documents_from_app idx pre post :
  build_documents_from split_text idx (pre ++ post)
  = match build_documents_from split_text idx pre with
    | (docs, Raise e) => (docs, Raise e)
    | (docs, Ok _) =>
        (docs ++ (build_documents_from split_text (idx + length pre) post).1,
         (build_documents_from split_text (idx + length pre) post).2)
    end.
Proof.
  revert idx. induction pre as [|rec pre IH]; intros idx; simpl.
  - rewrite Nat.add_0_r. by destruct (build_documents_from _ _ _).
  - destruct (record_documents _ _ _) as [docs|e]; [|done].
    rewrite IH. replace (S idx + length pre) with (idx + S (length pre)) by lia.
    destruct (build_documents_from split_text (S idx) pre) as [more [[]|e]]; [|done].
    by rewrite app_assoc.
Qed.

Lemma record_documents_short rec_idx rec base_text :
  build_base_text rec = Ok base_text →
  len base_text ≤ MAX_LEN_NO_SPLIT →
  record_documents split_text rec_idx rec
  = Ok [mkDocument base_text (chunk_metadata (build_metadata rec rec_idx) 0 1)].
Proof.
  intros Hb Hlen. unfold record_documents. rewrite Hb.
  apply Nat.leb_le in Hlen. by rewrite Hlen.
Qed.

Lemma record_documents_long rec_idx rec base_text :
  build_base_text rec = Ok base_text →
  MAX_LEN_NO_SPLIT < len base_text →
  record_documents split_text rec_idx rec
  = Ok (imap (λ i chunk,
              mkDocument chunk
                (chunk_metadata (build_metadata rec rec_idx) i
                                (length (split_text splitter base_text))))
             (split_text splitter base_text)).
Proof.
  intros Hb Hlen. unfold record_documents. rewrite Hb.
  apply Nat.leb_gt in Hlen. by rewrite Hlen.
Qed.

(** Where a record's documents sit in the output of [build_documents]. *)
Lemma build_documents_at pre rec post docs :
  (build_documents_from split_text 1 pre).2 = Ok tt →
  record_documents split_text (S (length pre)) rec = Ok docs →
  (build_documents split_text (pre ++ rec :: post)).1
  = (build_documents_from split_text 1 pre).1 ++ docs
    ++ (build_documents_from split_text (S (S (length pre))) post).1.
Proof.
  intros Hpre Hrec. unfold build_documents, iter_speech_records.
  rewrite build_documents_from_app.
  destruct (build_documents_from split_text 1 pre) as [d1 r1]; simpl in *.
  subst r1. simpl. rewrite Hrec.
  by destruct (build_documents_from split_text (S (S (length pre))) post).
Qed.

(** C5. A record whose formatted text has at most 1200 characters yields
    exactly one document: its content is the formatted text, its chunk
    index is 0 and its chunk count is 1.  This holds for the loop body
    and, for a record anywhere in a file whose earlier records were
    processed, for what [build_documents] yields between the documents of
    the records before and after it. *)
Theorem C5_short_record_one_document pre rec post base_text :
  build_base_text rec = Ok base_text →
  len base_text ≤ 1200 →
  (build_documents_from split_text 1 pre).2 = Ok tt →
  ∃ d : Document,
    record_documents split_text (S (length pre)) rec = Ok [d]
    ∧ page_content d = base_text
    ∧ metadata d !! "chunk_index" = Some (VInt 0)
    ∧ metadata d !! "chunk_count" = Some (VInt 1)
    ∧ (build_documents split_text (pre ++ rec :: post)).1
      = (build_documents_from split_text 1 pre).1 ++ [d]
        ++ (build_documents_from split_text (S (S (length pre))) post).1.
Proof.
  intros Hb Hlen Hpre.
  pose proof (record_documents_short (S (length pre)) rec base_text Hb Hlen) as Hd.
  eexists. split; [exact Hd|].
  split; [reflexivity|].
  split; [apply (chunk_metadata_index _ 0 1)|].
  split; [apply (chunk_metadata_count _ 0 1)|].
  by apply build_documents_at.
Qed.

(** C6. A record whose formatted text has more than 1200 characters
    yields one document per chunk of the configured splitter (chunk size
    1200, overlap 200, separators paragraph, line, Japanese full stop,
    Japanese comma, space), in order: the [i]-th document holds the
    [i]-th chunk, has chunk index [i] and chunk count the number of
    chunks, and any two of them have the same metadata apart from the
    chunk index. *)
Theorem C6_long_record_one_document_per_chunk pre rec post base_text :
  build_base_text rec = Ok base_text →
  1200 < len base_text →
  (build_documents_from split_text 1 pre).2 = Ok tt →
  let chunks := split_text splitter base_text in
  splitter = mkSplitter 1200 200 [nl +:+ nl; nl; "。"; "、"; " "]
  ∧ ∃ docs : list Document,
      record_documents split_text (S (length pre)) rec = Ok docs
      ∧ length docs = length chunks
      ∧ (∀ i d, docs !! i = Some d →
           chunks !! i = Some (page_content d)
           ∧ metadata d !! "chunk_index" = Some (VInt (Z.of_nat i))
           ∧ metadata d !! "chunk_count" = Some (VInt (Z.of_nat (length chunks))))
      ∧ (∀ d d', d ∈ docs → d' ∈ docs →
           delete "chunk_index" (metadata d) = delete "chunk_index" (metadata d'))
      ∧ (build_documents split_text (pre ++ rec :: post)).1
        = (build_documents_from split_text 1 pre).1 ++ docs
          ++ (build_documents_from split_text (S (S (length pre))) post).1.
Proof.
  intros Hb Hlen Hpre chunks.
  split; [reflexivity|].
  pose proof (record_documents_long (S (length pre)) rec base_text Hb Hlen) as Hd.
  fold chunks in Hd.
  eexists. split; [exact Hd|].
  split; [apply length_imap|].
  split.
  { intros i d Hi. rewrite list_lookup_imap in Hi.
    destruct (chunks !! i) as [c|] eqn:Hc; simplify_eq/=.
    split; [done|]. split.
    - apply chunk_metadata_index.
    - apply chunk_metadata_count. }
  split.
  { intros d d' Hin Hin'.
    apply list_elem_of_lookup in Hin as [i Hi], Hin' as [j Hj].
    rewrite list_lookup_imap in Hi. rewrite list_lookup_imap in Hj.
    destruct (chunks !! i); destruct (chunks !! j); simplify_eq/=.
    apply chunk_metadata_delete_index. }
  by apply build_documents_at.
Qed.

End document_generation.

(** ** The index swap *)

Section index_swap.
Import py update_vectorstore.

Lemma remove_item_delete name e items : remove_item name e items = delete name items.
Proof. by destruct e. Qed.

(** Removing the listed items leaves exactly the items not listed. *)
Lemma foldl_remove_lookup (l : list (string * entry)) (m : gmap string entry) k :
  foldl (λ m item, remove_item item.1 item.2 m) m l !! k
  = if decide (k ∈ l.*1) then None else m !! k.
Proof.
  revert m. induction l as [|[name e] l IH]; intros m.
  - destruct (decide (k ∈ ([] : list (string * entry)).*1)) as [Hin|Hin]; [|done].
    by apply elem_of_nil in Hin.
  - cbn [foldl]. rewrite IH, remove_item_delete. cbn [fst snd].
    rewrite fmap_cons. cbn [fst].
    destruct (decide (k ∈ l.*1)) as [Hin|Hin].
    + rewrite decide_True; [done|]. apply elem_of_cons. by right.
    + destruct (decide (k = name)) as [->|Hne].
      * rewrite decide_True by (apply elem_of_cons; by left).
        apply lookup_delete_eq.
      * rewrite decide_False by (rewrite elem_of_cons; tauto).
        by apply lookup_delete_ne.
Qed.

Lemma clear_items_empty items : clear_items items = ∅.
Proof.
  apply map_eq; intros k. unfold clear_items.
  rewrite foldl_remove_lookup, lookup_empty.
  destruct (decide (k ∈ (map_to_list items).*1)) as [|Hn]; [done|].
  destruct (items !! k) as [e|] eqn:Hk; [|done].
  exfalso. apply Hn. apply list_elem_of_fmap. exists (k, e).
  split; [done|]. by apply elem_of_map_to_list.
Qed.

Lemma move_items_fold (l : list (string * entry)) (src dst : gmap string entry) :
  foldl (λ sd item, (delete item.1 sd.1, <[item.1 := item.2]> sd.2)) (src, dst) l
  = (foldl (λ m item, delete item.1 m) src l,
     foldl (λ m item, <[item.1 := item.2]> m) dst l).
Proof.
  revert src dst. induction l as [|item l IH]; intros src dst; simpl; [done|].
  apply IH.
Qed.

Lemma foldl_delete_lookup (l : list (string * entry)) (m : gmap string entry) k :
  foldl (λ m item, delete item.1 m) m l !! k
  = if decide (k ∈ l.*1) then None else m !! k.
Proof.
  revert m. induction l as [|[name e] l IH]; intros m.
  - destruct (decide (k ∈ ([] : list (string * entry)).*1)) as [Hin|Hin]; [|done].
    by apply elem_of_nil in Hin.
  - cbn [foldl]. rewrite IH. cbn [fst snd].
    rewrite fmap_cons. cbn [fst].
    destruct (decide (k ∈ l.*1)) as [Hin|Hin].
    + rewrite decide_True; [done|]. apply elem_of_cons. by right.
    + destruct (decide (k = name)) as [->|Hne].
      * rewrite decide_True by (apply elem_of_cons; by left).
        apply lookup_delete_eq.
      * rewrite decide_False by (rewrite elem_of_cons; tauto).
        by apply lookup_delete_ne.
Qed.

Lemma foldl_insert_lookup (l : list (string * entry)) (m : gmap string entry) k :
  NoDup l.*1 →
  foldl (λ m item, <[item.1 := item.2]> m) m l !! k
  = match (list_to_map l : gmap string entry) !! k with
    | Some e => Some e
    | None => m !! k
    end.
Proof.
  revert m. induction l as [|[name e] l IH]; intros m Hnd.
  - cbn. by rewrite lookup_empty.
  - rewrite fmap_cons in Hnd. apply NoDup_cons in Hnd as [Hname Hnd].
    cbn [foldl list_to_map foldr fst snd]. rewrite IH by done.
    destruct (decide (k = name)) as [->|Hne].
    + rewrite (not_elem_of_list_to_map_1 l name) by done.
      by rewrite !lookup_insert_eq.
    + rewrite !lookup_insert_ne by done. reflexivity.
Qed.

(** Moving every item of [src] into an empty directory empties [src] and
    fills the target with what [src] held. *)
Lemma move_items_all src : move_items src ∅ = (∅, src).
Proof.
  unfold move_items. rewrite move_items_fold. f_equal.
  - apply map_eq; intros k. rewrite foldl_delete_lookup, lookup_empty.
    destruct (decide (k ∈ (map_to_list src).*1)) as [|Hn]; [done|].
    destruct (src !! k) as [e|] eqn:Hk; [|done].
    exfalso. apply Hn. apply list_elem_of_fmap. exists (k, e).
    split; [done|]. by apply elem_of_map_to_list.
  - apply map_eq; intros k.
    rewrite foldl_insert_lookup by apply NoDup_fst_map_to_list.
    rewrite list_to_map_to_list, lookup_empty. by destruct (src !! k).
Qed.

(** The swap goes through whenever the working directory is a directory
    and the active path is not a plain file. *)
Lemma swap_active_db_succeeds d tino titems :
  temp_dir d = IsDir tino titems →
  (∀ x, active_dir d ≠ IsFile x) →
  swap_active_db d
  = (mkDisk Absent
            (IsDir match active_dir d with
                   | IsDir ino _ => ino
                   | _ => next_ino d
                   end titems)
            match active_dir d with
            | IsDir _ _ => next_ino d
            | _ => Pos.succ (next_ino d)
            end,
     Ok tt).
Proof.
  intros Ht Ha. unfold swap_active_db. rewrite Ht.
  destruct (active_dir d) as [|x|ino items]; simpl.
  - by rewrite move_items_all.
  - by destruct (Ha x).
  - by rewrite clear_items_empty, move_items_all.
Qed.

(** C2. After a successful swap the active directory holds exactly what
    the working directory held before, the working directory is gone,
    and an active directory that existed before is the same directory
    (same inode) afterwards. *)
Theorem C2_swap_replaces_contents d d' :
  swap_active_db d = (d', Ok tt) →
  ∃ tino titems ino,
    temp_dir d = IsDir tino titems
    ∧ active_dir d' = IsDir ino titems
    ∧ temp_dir d' = Absent
    ∧ (∀ ino0 items0, active_dir d = IsDir ino0 items0 → ino = ino0).
Proof.
  intros Hswap.
  destruct (temp_dir d) as [|x|tino titems] eqn:Ht.
  - unfold swap_active_db in Hswap. rewrite Ht in Hswap.
    destruct (active_dir d); simpl in Hswap; simplify_eq.
  - unfold swap_active_db in Hswap. rewrite Ht in Hswap.
    destruct (active_dir d); simpl in Hswap; simplify_eq.
  - destruct (active_dir d) as [|x|ino items] eqn:Ha.
    + rewrite (swap_active_db_succeeds d tino titems Ht) in Hswap
        by (rewrite Ha; discriminate).
      rewrite Ha in Hswap. simplify_eq. by exists tino, titems, (next_ino d).
    + unfold swap_active_db in Hswap. rewrite Ha in Hswap. simplify_eq.
    + rewrite (swap_active_db_succeeds d tino titems Ht) in Hswap
        by (rewrite Ha; discriminate).
      rewrite Ha in Hswap. simplify_eq. exists tino, titems, ino.
      repeat split. intros ino0 items0 Heq. by simplify_eq.
Qed.

End index_swap.

(** ** The answering operation *)

Section answering.
Import py update_vectorstore rag_engine.

Variable retrieve :
  list Document → Z → gmap string value → string → result (list Document).
Variable llm : Chain → string → list Message → string → result string.

(** What a successful call did: it searched the loaded collection with the
    caller's [top_k] and the fixed speaker filter, and returned the hits. *)
Lemma answer_question_inv question top_k session_id eng eng' res :
  answer_question retrieve llm question top_k session_id eng = (eng', Ok res) →
  ∃ db docs,
    _vectordb eng = Some db
    ∧ retrieve db top_k {[ "speaker" := VStr DEFAULT_SPEAKER ]} question = Ok docs
    ∧ context_docs res = to_entry <$> docs.
Proof.
  unfold answer_question. intros H.
  destruct (_vectordb eng) as [db|]; [|by simplify_eq].
  destruct (_chain eng) as [chain|]; [|by simplify_eq].
  destruct (retrieve db top_k _ question) as [docs|e] eqn:Hr; [|by simplify_eq].
  destruct (chain_invoke _ _ _ _ _ _) as [store [response|e]]; simplify_eq.
  by exists db, docs.
Qed.

(** An initialised engine answers whenever the search and the model do. *)
Lemma answer_question_returns question top_k session_id eng db chain docs response :
  _vectordb eng = Some db →
  _chain eng = Some chain →
  retrieve db top_k {[ "speaker" := VStr DEFAULT_SPEAKER ]} question = Ok docs →
  llm chain (utils.format_docs docs)
      (default [] (_history_store eng !! session_id)) question = Ok response →
  (answer_question retrieve llm question top_k session_id eng).2
  = Ok (mkAnswer response (to_entry <$> docs)).
Proof.
  intros Hdb Hch Hr Hllm. unfold answer_question.
  rewrite Hdb, Hch, Hr. unfold chain_invoke, get_session_history.
  destruct (_history_store eng !! session_id) as [h|]; simpl in *;
    by rewrite Hllm.
Qed.

(** C1. Whatever the question, the result count and the session, a call
    that returns has searched the collection with the fixed target speaker
    as filter, and the context documents it returns are those of retrieved
    documents of the collection whose speaker metadata is that speaker. *)
Theorem C1_context_docs_are_target_speaker question top_k session_id eng eng' res :
  honours_filter retrieve →
  answer_question retrieve llm question top_k session_id eng = (eng', Ok res) →
  ∃ db docs,
    _vectordb eng = Some db
    ∧ retrieve db top_k {[ "speaker" := VStr "高市早苗" ]} question = Ok docs
    ∧ context_docs res = to_entry <$> docs
    ∧ Forall (λ d, d ∈ db ∧ metadata d !! "speaker" = Some (VStr "高市早苗")) docs.
Proof.
  intros Hflt Hans.
  apply answer_question_inv in Hans as (db & docs & Hdb & Hr & Hctx).
  exists db, docs. split; [done|]. split; [done|]. split; [done|].
  apply Hflt in Hr. eapply Forall_impl; [exact Hr|].
  intros d [Hin Hm]. split; [done|].
  apply Hm. apply lookup_singleton_eq.
Qed.

Variable split_text : Splitter → string → list string.

Lemma build_metadata_no_source rec rec_idx :
  build_metadata rec rec_idx !! "source" = None.
Proof.
  unfold build_metadata. cbn [list_to_map foldr fst snd].
  rewrite !lookup_insert_ne by discriminate. apply lookup_empty.
Qed.

Lemma record_documents_no_source rec_idx rec docs :
  record_documents split_text rec_idx rec = Ok docs →
  Forall (λ d, metadata d !! "source" = None) docs.
Proof.
  unfold record_documents.
  destruct (build_base_text rec) as [base_text|]; [|done].
  destruct (len base_text <=? MAX_LEN_NO_SPLIT)%nat; intros H; simplify_eq.
  - constructor; [|constructor]. simpl.
    rewrite chunk_metadata_other by discriminate. apply build_metadata_no_source.
  - apply Forall_forall. intros d Hd.
    apply list_elem_of_lookup in Hd as [i Hi].
    rewrite list_lookup_imap in Hi.
    destruct (split_text splitter base_text !! i); simplify_eq/=.
    rewrite chunk_metadata_other by discriminate. apply build_metadata_no_source.
Qed.

Lemma build_documents_from_no_source rec_idx recs :
  Forall (λ d, metadata d !! "source" = None)
         (build_documents_from split_text rec_idx recs).1.
Proof.
  revert rec_idx. induction recs as [|rec recs IH]; intros rec_idx; simpl.
  - constructor.
  - destruct (record_documents split_text rec_idx rec) as [docs|] eqn:Hd;
      [|constructor].
    specialize (IH (S rec_idx)).
    destruct (build_documents_from split_text (S rec_idx) recs) as [more r].
    simpl in *. apply Forall_app. split; [|done].
    by eapply record_documents_no_source.
Qed.

(** The batching loop adds every document once, in order. *)
Lemma add_batches_all docs batch store :
  (add_batches docs batch store).2 ++ (add_batches docs batch store).1
  = store ++ batch ++ docs.
Proof.
  revert batch store. induction docs as [|doc docs IH]; intros batch store.
  - simpl. by rewrite app_nil_r.
  - cbn [add_batches].
    destruct (BATCH_SIZE <=? length (batch ++ [doc]))%nat; rewrite IH.
    + by rewrite <- !app_assoc.
    + by rewrite <- !app_assoc.
Qed.

(** What is in the store is a prefix of what was to be added. *)
Lemma add_batches_store docs batch store :
  ∃ pending,
    store ++ batch ++ docs = (add_batches docs batch store).2 ++ pending.
Proof.
  exists (add_batches docs batch store).1. symmetry. apply add_batches_all.
Qed.

(** A completed build stores exactly the generated documents. *)
Lemma build_vectorstore_complete jsonl :
  (build_documents split_text jsonl).2 = Ok tt →
  build_vectorstore split_text jsonl = ((build_documents split_text jsonl).1, Ok tt).
Proof.
  intros Hok. unfold build_vectorstore.
  destruct (build_documents split_text jsonl) as [docs r]. simpl in *. subst r.
  pose proof (add_batches_all docs [] []) as Hall.
  destruct (add_batches docs [] []) as [batch store]. simpl in *.
  destruct batch; f_equal; [by rewrite app_nil_r in Hall | done].
Qed.

Lemma build_vectorstore_no_source jsonl :
  Forall (λ d, metadata d !! "source" = None)
         (build_vectorstore split_text jsonl).1.
Proof.
  unfold build_vectorstore.
  pose proof (build_documents_from_no_source 1 jsonl) as Hdocs.
  unfold build_documents, iter_speech_records.
  destruct (build_documents_from split_text 1 jsonl) as [docs r]. simpl in Hdocs.
  pose proof (add_batches_all docs [] []) as Hall.
  destruct (add_batches docs [] []) as [batch store]. simpl in Hall.
  rewrite <- Hall in Hdocs. apply Forall_app in Hdocs as [Hs Hb].
  destruct r as [[]|e]; simpl; [|done].
  destruct batch; [done|]. by apply Forall_app.
Qed.

(** C10. When the collection the engine has loaded is one that
    [build_vectorstore] produced from some record file, every context
    document of every answer has [None] as its source. *)
Theorem C10_builder_index_has_no_source
        jsonl question top_k session_id eng eng' res :
  honours_filter retrieve →
  _vectordb eng = Some (build_vectorstore split_text jsonl).1 →
  answer_question retrieve llm question top_k session_id eng = (eng', Ok res) →
  Forall (λ e, source e = VNone) (context_docs res).
Proof.
  intros Hflt Hdb Hans.
  apply answer_question_inv in Hans as (db & docs & Hdb' & Hr & ->).
  rewrite Hdb in Hdb'. injection Hdb' as <-.
  apply Hflt in Hr. apply Forall_fmap. eapply Forall_impl; [exact Hr|].
  intros d [Hin _]. simpl. unfold vget.
  pose proof (build_vectorstore_no_source jsonl) as Hns.
  rewrite Forall_forall in Hns. by rewrite (Hns d Hin).
Qed.

End answering.

(** ** The HTTP front end *)

Section http_api.
Import py app.

Variable answer_question :
  string → Z → string → rag_engine.Engine
  → rag_engine.Engine * result rag_engine.Answer.

(** A request is turned down exactly when the question is missing or the
    given count is outside 1..50. *)
Lemma validate_rejects b :
  is_ok (validate b) = false
  ↔ body_question b = None
    ∨ ∃ k, body_top_k b = Some k ∧ ¬ (1 ≤ k ≤ 50)%Z.
Proof.
  unfold validate. destruct (body_question b) as [q|]; [|by split; auto].
  destruct (body_top_k b) as [k|]; simpl.
  - destruct ((1 <=? k)%Z && (k <=? 50)%Z) eqn:Hk; simpl.
    + split; [done|]. intros [|(k' & [= <-] & Hn)]; [done|]. exfalso. lia.
    + split; [|done]. intros _. right. exists k. split; [done|]. lia.
  - split; [done|]. intros [|(k' & ? & _)]; done.
Qed.

(** C7. [POST /ask] with a result count of 0 or of 51 is answered with a
    validation error, whatever the engine would do, and leaves the engine
    as it was; with a count of 1 or of 50 the request reaches the handler,
    which calls the engine with that count; with no count the handler
    calls the engine with 10. *)
Theorem C7_result_count_validation q sid eng :
  post_ask answer_question (mkBody (Some q) (Some 0%Z) sid) eng
  = (eng, Raise ValidationError)
  ∧ post_ask answer_question (mkBody (Some q) (Some 51%Z) sid) eng
    = (eng, Raise ValidationError)
  ∧ post_ask answer_question (mkBody (Some q) (Some 1%Z) sid) eng
    = ask answer_question (mkAskRequest q 1 (default "default" sid)) eng
  ∧ post_ask answer_question (mkBody (Some q) (Some 50%Z) sid) eng
    = ask answer_question (mkAskRequest q 50 (default "default" sid)) eng
  ∧ post_ask answer_question (mkBody (Some q) None sid) eng
    = ask answer_question (mkAskRequest q 10 (default "default" sid)) eng
  ∧ (∀ req, (ask answer_question req eng).1
            = (answer_question (question req) (top_k req) (session_id req) eng).1).
Proof.
  repeat split; try reflexivity.
  intros req. unfold ask.
  destruct (answer_question _ _ _ _) as [eng' [res|e]]; [|done].
  by destruct (to_ContextDocs _).
Qed.

End http_api.

(** ** Ingestion *)

Section ingestion.
Import py datetime get_diet_speeches.

Variable strip : string → string.

(** *** Dates as strings *)

Lemma str_gt_false a b : str_gt a b = false → (a ≤ b)%string.
Proof.
  unfold str_gt, String.le, String.leb.
  by destruct (String.compare a b).
Qed.

Lemma str_gt_true a b : str_gt a b = true → (b ≤ a)%string.
Proof.
  intros Hgt. destruct (total String.le a b) as [Hab|]; [|done].
  unfold str_gt in Hgt. unfold String.le, String.leb in Hab.
  by destruct (String.compare a b).
Qed.

Lemma truthy_JStr s : truthy (JStr s) = true ↔ s ≠ "".
Proof.
  simpl. destruct (String.eqb_spec s ""); split; intros; simplify_eq/=; done.
Qed.

Lemma record_id_Some rec s :
  record_id rec = Some s ↔ get rec "speechID" = JStr s ∧ s ≠ "".
Proof.
  unfold record_id. destruct (get rec "speechID") as [|x]; [naive_solver|].
  destruct (truthy (JStr x)) eqn:Ht.
  - apply truthy_JStr in Ht. naive_solver.
  - split; [done|]. intros [[= ->] Hne]. apply truthy_JStr in Hne. congruence.
Qed.

Lemma record_id_None rec :
  record_id rec = None ↔ truthy (get rec "speechID") = false.
Proof.
  unfold record_id. destruct (get rec "speechID") as [|x]; [done|].
  by destruct (truthy (JStr x)).
Qed.

Lemma ids_of_snoc recs rec :
  ids_of (recs ++ [rec]) = ids_of recs ++ option_list (record_id rec).
Proof. unfold ids_of. rewrite omap_app. simpl. by destruct (record_id rec). Qed.

Lemma dates_of_snoc recs rec :
  dates_of (recs ++ [rec]) = dates_of recs ++ option_list (record_date rec).
Proof. unfold dates_of. rewrite omap_app. simpl. by destruct (record_date rec). Qed.

(** The date tracking keeps the greatest date seen so far. *)
Lemma tracks_snoc latest recs rec :
  tracks latest recs →
  tracks (update_latest (get rec "date") latest) (recs ++ [rec]).
Proof.
  intros Ht. unfold update_latest, tracks, max_date.
  rewrite dates_of_snoc. unfold record_date.
  destruct (get rec "date") as [|d]; simpl.
  { rewrite app_nil_r. exact Ht. }
  destruct (negb (String.eqb d "")) eqn:Hd; simpl.
  2:{ rewrite app_nil_r. exact Ht. }
  destruct latest as [l|]; simpl in Ht.
  - destruct Ht as [Hin Hmax]. destruct (str_gt d l) eqn:Hgt.
    + split; [set_solver|]. intros x [Hx| ->%list_elem_of_singleton]%elem_of_app; [|done].
      etrans; [by apply Hmax|]. by apply str_gt_true.
    + split; [set_solver|]. intros x [Hx| ->%list_elem_of_singleton]%elem_of_app.
      * by apply Hmax.
      * by apply str_gt_false.
  - rewrite Ht. simpl. split; [set_solver|].
    by intros x ->%list_elem_of_singleton.
Qed.

(** *** The loops *)

Lemma incremental_record_known st rec s :
  get rec "speechID" = JStr s → s ≠ "" → s ∈ existing_ids st →
  incremental_record st rec = st.
Proof.
  intros Hid Hne Hin. unfold incremental_record. rewrite Hid.
  apply truthy_JStr in Hne. rewrite Hne. simpl.
  by rewrite bool_decide_eq_true_2.
Qed.

Lemma incremental_record_new st rec s :
  record_id rec = Some s → s ∉ existing_ids st →
  incremental_record st rec
  = mkIncLoop (new_count st + 1)
              (update_latest (get rec "date") (latest_date st))
              ({[s]} ∪ existing_ids st) ({[s]} ∪ new_ids st)
              (f_out st ++ [rec]).
Proof.
  intros [Hid Hne]%record_id_Some Hin. unfold incremental_record. rewrite Hid.
  apply truthy_JStr in Hne. rewrite Hne. simpl.
  by rewrite bool_decide_eq_false_2.
Qed.

Lemma incremental_record_anonymous st rec :
  record_id rec = None →
  incremental_record st rec
  = mkIncLoop (new_count st + 1)
              (update_latest (get rec "date") (latest_date st))
              (existing_ids st) (new_ids st) (f_out st ++ [rec]).
Proof.
  intros Hid%record_id_None. unfold incremental_record. by rewrite Hid.
Qed.

Lemma initial_record_eq st rec :
  initial_record st rec
  = mkInitLoop (fetched st + 1)
               (update_latest (get rec "date") (i_latest_date st))
               (list_to_set (option_list (record_id rec)) ∪ all_ids st)
               (i_f_out st ++ [rec]).
Proof.
  unfold initial_record, record_id. f_equal.
  destruct (get rec "speechID") as [|s]; simpl.
  - by rewrite (left_id_L ∅ (∪)).
  - destruct (negb (String.eqb s "")); simpl.
    + by rewrite (right_id_L ∅ (∪)).
    + by rewrite (left_id_L ∅ (∪)).
Qed.

(** What holds of the loop variables before the first page and is kept
    by the loop body on every record the service hands out holds when the
    page loop ends, however it ends. *)
Lemma incremental_pages_ind (Q : IncLoop → Prop) api from_str until_str total :
  (∀ st rec, delivers api rec → Q st → Q (incremental_record st rec)) →
  ∀ idxs st, Q st →
    Q (incremental_pages api from_str until_str total idxs st).1.
Proof.
  intros Hstep idxs. induction idxs as [|i idxs IH]; intros st HQ; [done|].
  cbn [incremental_pages initial_pages].
  destruct (total <? 1 + i * MAX_RECORDS_PER_REQUEST)%nat; [done|].
  destruct (api _) as [data|] eqn:Hapi; [|done].
  apply IH.
  assert (∀ recs, (∀ rec, rec ∈ recs → delivers api rec) →
                  ∀ st, Q st → Q (foldl incremental_record st recs)) as Hfold.
  { induction recs as [|rec recs IHr]; intros Hd st' HQ'; simpl; [done|].
    apply IHr; [intros; apply Hd; by right|].
    apply Hstep; [apply Hd; by left|done]. }
  apply Hfold; [|done]. intros rec Hin. by eexists _, data.
Qed.

Lemma initial_pages_ind (Q : InitLoop → Prop) api from_str until_str total :
  (∀ st rec, delivers api rec → Q st → Q (initial_record st rec)) →
  ∀ idxs st, Q st →
    Q (initial_pages api from_str until_str total idxs st).1.
Proof.
  intros Hstep idxs. induction idxs as [|i idxs IH]; intros st HQ; [done|].
  cbn [incremental_pages initial_pages].
  destruct (total <? 1 + i * MAX_RECORDS_PER_REQUEST)%nat; [done|].
  destruct (api _) as [data|] eqn:Hapi; [|done].
  apply IH.
  assert (∀ recs, (∀ rec, rec ∈ recs → delivers api rec) →
                  ∀ st, Q st → Q (foldl initial_record st recs)) as Hfold.
  { induction recs as [|rec recs IHr]; intros Hd st' HQ'; simpl; [done|].
    apply IHr; [intros; apply Hd; by right|].
    apply Hstep; [apply Hd; by left|done]. }
  apply Hfold; [|done]. intros rec Hin. by eexists _, data.
Qed.

(** The page loops only fail on a failed request. *)
Lemma incremental_pages_result api from_str until_str total idxs st :
  (incremental_pages api from_str until_str total idxs st).2 = Ok tt
  ∨ (incremental_pages api from_str until_str total idxs st).2 = Raise HTTPError.
Proof.
  revert st. induction idxs as [|i idxs IH]; intros st; [by left|].
  cbn [incremental_pages initial_pages].
  destruct (total <? 1 + i * MAX_RECORDS_PER_REQUEST)%nat; [by left|].
  destruct (api _); [apply IH|by right].
Qed.

Lemma initial_pages_result api from_str until_str total idxs st :
  (initial_pages api from_str until_str total idxs st).2 = Ok tt
  ∨ (initial_pages api from_str until_str total idxs st).2 = Raise HTTPError.
Proof.
  revert st. induction idxs as [|i idxs IH]; intros st; [by left|].
  cbn [incremental_pages initial_pages].
  destruct (total <? 1 + i * MAX_RECORDS_PER_REQUEST)%nat; [by left|].
  destruct (api _); [apply IH|by right].
Qed.

Lemma inc_inv_step E st rec :
  inc_inv E st → inc_inv E (incremental_record st rec).
Proof.
  intros (Hex & Hdisj & Hnew & Hnd & Hcnt).
  destruct (record_id rec) as [s|] eqn:Hid.
  - destruct (decide (s ∈ existing_ids st)) as [Hin|Hin].
    + apply record_id_Some in Hid as [Hid Hne].
      by rewrite (incremental_record_known st rec s).
    + rewrite (incremental_record_new st rec s) by done.
      unfold inc_inv. simpl. rewrite ids_of_snoc, Hid. simpl.
      rewrite Hex in Hin. apply not_elem_of_union in Hin as [HinE Hinn].
      split; [rewrite Hex; set_solver|].
      split; [set_solver|].
      split; [rewrite list_to_set_app_L, Hnew; set_solver|].
      split.
      * apply NoDup_app. split; [done|]. split; [|apply NoDup_singleton].
        intros x Hx ->%list_elem_of_singleton. apply Hinn. rewrite Hnew.
        by apply elem_of_list_to_set.
      * rewrite length_app. simpl. lia.
  - rewrite (incremental_record_anonymous st rec) by done.
    unfold inc_inv. simpl. rewrite ids_of_snoc, Hid. simpl. rewrite app_nil_r.
    repeat split; try done. rewrite length_app. simpl. lia.
Qed.

Lemma inc_tracks_step st rec :
  tracks (latest_date st) (f_out st) →
  tracks (latest_date (incremental_record st rec)) (f_out (incremental_record st rec)).
Proof.
  intros Ht. destruct (record_id rec) as [s|] eqn:Hid.
  - destruct (decide (s ∈ existing_ids st)) as [Hin|Hin].
    + apply record_id_Some in Hid as [Hid Hne].
      by rewrite (incremental_record_known st rec s).
    + rewrite (incremental_record_new st rec s) by done. simpl.
      by apply tracks_snoc.
  - rewrite (incremental_record_anonymous st rec) by done. simpl.
    by apply tracks_snoc.
Qed.

Lemma inc_delivered_step (P : gmap string json → Prop) st rec :
  P rec → Forall P (f_out st) → Forall P (f_out (incremental_record st rec)).
Proof.
  intros HP Hall. destruct (record_id rec) as [s|] eqn:Hid.
  - destruct (decide (s ∈ existing_ids st)) as [Hin|Hin].
    + apply record_id_Some in Hid as [Hid Hne].
      by rewrite (incremental_record_known st rec s).
    + rewrite (incremental_record_new st rec s) by done. simpl.
      apply Forall_app. split; [done|]. by constructor.
  - rewrite (incremental_record_anonymous st rec) by done. simpl.
    apply Forall_app. split; [done|]. by constructor.
Qed.

Lemma init_inv_step st rec : init_inv st → init_inv (initial_record st rec).
Proof.
  intros [Hids Hcnt]. rewrite initial_record_eq. unfold init_inv. simpl.
  rewrite ids_of_snoc, list_to_set_app_L, Hids, length_app. simpl.
  split; [set_solver|lia].
Qed.

(** *** One run *)

Lemma inc_inv_start E : inc_inv E (mkIncLoop 0 None E ∅ []).
Proof.
  unfold inc_inv. simpl. repeat split; try set_solver. constructor.
Qed.

Lemma init_inv_start : init_inv (mkInitLoop 0 None ∅ []).
Proof. by unfold init_inv. Qed.

(** What a run of [fetch_incremental] leaves: nothing changed when the
    count request failed or counted nothing; otherwise the records of a
    final loop state appended, and the new identifiers appended when the
    page loop went through. *)
Lemma fetch_incremental_spec api from_date to_date fs :
  let r := fetch_incremental strip api from_date to_date fs in
  (r.1 = fs ∧ (r.2 = Raise HTTPError ∨ r.2 = Ok None))
  ∨ ∃ st,
      inc_inv (load_fetched_ids strip fs) st
      ∧ tracks (latest_date st) (f_out st)
      ∧ Forall (delivers api) (f_out st)
      ∧ out_file r.1 = Some (default [] (out_file fs) ++ f_out st)
      ∧ state_file r.1 = state_file fs
      ∧ ((r.2 = Raise HTTPError ∧ ids_file r.1 = ids_file fs)
         ∨ (r.2 = Ok (latest_date st)
            ∧ ids_file r.1
              = if decide (new_ids st = ∅) then ids_file fs
                else Some (default [] (ids_file fs) ++ elements (new_ids st)))).
Proof.
  intros r. subst r. unfold fetch_incremental.
  destruct (get_record_count api _ _) as [total|e] eqn:Hcount.
  2:{ left. unfold get_record_count in Hcount.
      destruct (api _); simplify_eq. by split; [|left]. }
  destruct (total =? 0)%nat; [left; by split; [|right]|].
  right.
  set (E := load_fetched_ids strip fs).
  pose proof (incremental_pages_ind
    (λ st, inc_inv E st ∧ tracks (latest_date st) (f_out st)
           ∧ Forall (delivers api) (f_out st))
    api (isoformat from_date) (isoformat to_date) total) as Hind.
  pose proof (incremental_pages_result api (isoformat from_date)
    (isoformat to_date) total
    (seq 0 (ceil_div total MAX_RECORDS_PER_REQUEST))
    (mkIncLoop 0 None E ∅ [])) as Hres.
  specialize (Hind (λ st rec Hd '(conj Hi (conj Ht Hf)),
    conj (inc_inv_step E st rec Hi)
         (conj (inc_tracks_step st rec Ht)
               (inc_delivered_step _ st rec Hd Hf)))
    (seq 0 (ceil_div total MAX_RECORDS_PER_REQUEST))
    (mkIncLoop 0 None E ∅ [])
    (conj (inc_inv_start E) (conj eq_refl (Forall_nil_2 _)))).
  destruct (incremental_pages _ _ _ _ _ _) as [st res]. simpl in *.
  destruct Hind as (Hi & Ht & Hf).
  exists st. destruct Hres as [-> | ->]; simpl.
  - destruct (decide (new_ids st = ∅)) as [Hn|Hn];
      [rewrite bool_decide_eq_true_2 by done
      |rewrite bool_decide_eq_false_2 by done];
      simpl; repeat (split; [done|]); by right.
  - repeat (split; [done|]). by left.
Qed.

Lemma fetch_initial_spec api from_date to_date fs :
  let r := fetch_initial api from_date to_date fs in
  (r.1 = fs ∧ (r.2 = Raise HTTPError ∨ r.2 = Ok None))
  ∨ ∃ st,
      init_inv st
      ∧ tracks (i_latest_date st) (i_f_out st)
      ∧ Forall (delivers api) (i_f_out st)
      ∧ out_file r.1 = Some (i_f_out st)
      ∧ state_file r.1 = state_file fs
      ∧ ((r.2 = Raise HTTPError ∧ ids_file r.1 = ids_file fs)
         ∨ (r.2 = Ok (i_latest_date st)
            ∧ ids_file r.1 = Some (elements (all_ids st)))).
Proof.
  intros r. subst r. unfold fetch_initial.
  destruct (get_record_count api _ _) as [total|e] eqn:Hcount.
  2:{ left. unfold get_record_count in Hcount.
      destruct (api _); simplify_eq. by split; [|left]. }
  destruct (total =? 0)%nat; [left; by split; [|right]|].
  right.
  pose proof (initial_pages_ind
    (λ st, init_inv st ∧ tracks (i_latest_date st) (i_f_out st)
           ∧ Forall (delivers api) (i_f_out st))
    api (isoformat from_date) (isoformat to_date) total) as Hind.
  pose proof (initial_pages_result api (isoformat from_date)
    (isoformat to_date) total
    (seq 0 (ceil_div total MAX_RECORDS_PER_REQUEST))
    (mkInitLoop 0 None ∅ [])) as Hres.
  assert (∀ st rec, delivers api rec →
            init_inv st ∧ tracks (i_latest_date st) (i_f_out st)
            ∧ Forall (delivers api) (i_f_out st) →
            init_inv (initial_record st rec)
            ∧ tracks (i_latest_date (initial_record st rec))
                     (i_f_out (initial_record st rec))
            ∧ Forall (delivers api) (i_f_out (initial_record st rec))) as Hstep.
  { intros st rec Hd (Hi & Ht & Hf). split; [by apply init_inv_step|].
    split; [by apply tracks_snoc|].
    simpl. apply Forall_app. split; [done|]. by constructor. }
  specialize (Hind Hstep (seq 0 (ceil_div total MAX_RECORDS_PER_REQUEST))
    (mkInitLoop 0 None ∅ [])
    (conj init_inv_start (conj eq_refl (Forall_nil_2 _)))).
  destruct (initial_pages _ _ _ _ _ _) as [st res]. simpl in *.
  destruct Hind as (Hi & Ht & Hf).
  exists st. destruct Hres as [-> | ->]; simpl.
  - repeat (split; [done|]). by right.
  - repeat (split; [done|]). by left.
Qed.

(** *** The ID file *)

Lemma load_fetched_ids_clean fs :
  Forall (clean strip) (default [] (ids_file fs)) →
  load_fetched_ids strip fs = list_to_set (default [] (ids_file fs)).
Proof.
  unfold load_fetched_ids. destruct (ids_file fs) as [lines|]; simpl; [|done].
  intros Hc. f_equal. induction Hc as [|l lines (Hs & Hne & _) _ IH]; [done|].
  rewrite fmap_cons, Hs, filter_cons_True by done. by rewrite IH.
Qed.

Lemma load_fetched_ids_nonempty fs s :
  s ∈ load_fetched_ids strip fs → s ≠ "".
Proof.
  unfold load_fetched_ids. destruct (ids_file fs) as [lines|]; [|set_solver].
  rewrite elem_of_list_to_set, list_elem_of_filter. by intros [? _].
Qed.

Lemma delivered_ids_clean api (recs : list (gmap string json)) s :
  (∀ rec x, delivers api rec → record_id rec = Some x → clean strip x) →
  Forall (delivers api) recs →
  s ∈ ids_of recs → clean strip s.
Proof.
  intros Hclean Hall (rec & Hin & Hid)%list_elem_of_omap.
  rewrite Forall_forall in Hall. eauto.
Qed.

(** A run keeps the ID file well formed, however the run ends. *)
Lemma run_keeps_ids_file_ok r fs :
  (∀ rec s, delivers (api_of r) rec → record_id rec = Some s → clean strip s) →
  ids_file_ok strip fs →
  ids_file_ok strip (run strip r fs).1.
Proof.
  intros Hclean [Hnd Hcl]. destruct r as [api f t|api f t]; simpl in *.
  - destruct (fetch_initial_spec api f t fs) as [[-> _]|(st & [Hids _] & _ & Hdel & _ & _ & Hr)];
      [done|].
    unfold ids_file_ok.
    destruct Hr as [[_ ->]|[_ ->]]; [done|]. simpl.
    split; [apply NoDup_elements|].
    apply Forall_forall. intros s Hs%elem_of_elements.
    rewrite Hids in Hs. apply elem_of_list_to_set in Hs.
    by eapply delivered_ids_clean.
  - destruct (fetch_incremental_spec api f t fs)
      as [[-> _]|(st & (Hex & Hdisj & Hnew & Hndn & _) & _ & Hdel & _ & _ & Hr)];
      [done|].
    unfold ids_file_ok.
    destruct Hr as [[_ ->]|[_ ->]]; [done|].
    destruct (decide (new_ids st = ∅)); [done|]. simpl.
    rewrite load_fetched_ids_clean in Hdisj by done.
    split.
    + apply NoDup_app. split; [done|]. split; [|apply NoDup_elements].
      intros s Hs Hs'%elem_of_elements.
      apply (Hdisj s); [done|]. by apply elem_of_list_to_set.
    + apply Forall_app. split; [done|].
      apply Forall_forall. intros s Hs%elem_of_elements.
      rewrite Hnew in Hs. apply elem_of_list_to_set in Hs.
      by eapply delivered_ids_clean.
Qed.

Lemma runs_keep_ids_file_ok rs fs :
  clean_ids strip rs →
  ids_file_ok strip fs →
  ids_file_ok strip (runs strip rs fs).
Proof.
  revert fs. induction rs as [|r rs IH]; intros fs Hclean Hok; [done|].
  unfold runs. cbn [foldl]. apply IH.
  - intros r' rec s Hr'. apply Hclean. by right.
  - apply run_keeps_ids_file_ok; [|done].
    intros rec s. apply Hclean. by left.
Qed.

(** *** The record file *)

Lemma ids_of_app l1 l2 : ids_of (l1 ++ l2) = ids_of l1 ++ ids_of l2.
Proof. apply omap_app. Qed.

Lemma ids_of_nil_of_set (recs : list (gmap string json)) :
  (list_to_set (ids_of recs) : gset string) = ∅ → ids_of recs = [].
Proof.
  destruct (ids_of recs) as [|s l]; [done|].
  rewrite list_to_set_cons. set_solver.
Qed.

(** An incremental run that returns keeps the two files consistent. *)
Lemma incremental_keeps_files_ok api from_date to_date fs :
  (∀ rec s, delivers api rec → record_id rec = Some s → clean strip s) →
  (∀ rec, delivers api rec → is_Some (record_id rec)) →
  is_ok (fetch_incremental strip api from_date to_date fs).2 = true →
  files_ok strip fs →
  files_ok strip (fetch_incremental strip api from_date to_date fs).1.
Proof.
  intros Hclean Hident Hok Hfs.
  pose proof (run_keeps_ids_file_ok (Incremental api from_date to_date) fs Hclean
                (proj1 Hfs)) as Hids.
  simpl in Hids. split; [done|]. clear Hids.
  destruct Hfs as ([Hnd Hcl] & Hndr & Hsub & Hall).
  destruct (fetch_incremental_spec api from_date to_date fs)
    as [[-> _]|(st & (Hex & Hdisj & Hnew & Hndn & _) & _ & Hdel & Hout & _ & Hr)];
    [done|].
  destruct Hr as [[Hr _]|[_ Hidsf]]; [rewrite Hr in Hok; done|].
  rewrite Hout, Hidsf. simpl. rewrite ids_of_app.
  rewrite load_fetched_ids_clean in Hdisj by done.
  split; [|split].
  - apply NoDup_app. split; [done|]. split; [|done].
    intros s Hs Hs'. apply (Hdisj s).
    + rewrite Hnew. by apply elem_of_list_to_set.
    + apply elem_of_list_to_set. by apply Hsub.
  - intros s [Hs|Hs]%elem_of_app.
    + destruct (decide (new_ids st = ∅)); simpl; [by apply Hsub|].
      apply elem_of_app. left. by apply Hsub.
    + destruct (decide (new_ids st = ∅)) as [Hn|Hn]; simpl.
      * rewrite Hnew in Hn. apply ids_of_nil_of_set in Hn.
        rewrite Hn in Hs. by apply elem_of_nil in Hs.
      * apply elem_of_app. right. apply elem_of_elements.
        rewrite Hnew. by apply elem_of_list_to_set.
  - apply Forall_app. split; [done|].
    eapply Forall_impl; [exact Hdel|]. intros rec. apply Hident.
Qed.

(** A full run that returns leaves the two files consistent, provided it
    was not handed an identifier twice. *)
Lemma full_gives_files_ok api from_date to_date fs :
  (∀ rec s, delivers api rec → record_id rec = Some s → clean strip s) →
  (∀ rec, delivers api rec → is_Some (record_id rec)) →
  is_ok (fetch_initial api from_date to_date fs).2 = true →
  NoDup (ids_of (default [] (out_file (fetch_initial api from_date to_date fs).1))) →
  files_ok strip fs →
  files_ok strip (fetch_initial api from_date to_date fs).1.
Proof.
  intros Hclean Hident Hok Hnd Hfs.
  destruct (fetch_initial_spec api from_date to_date fs)
    as [[-> _]|(st & [Hids _] & _ & Hdel & Hout & _ & Hr)]; [done|].
  destruct Hr as [[Hr _]|[_ Hidsf]]; [rewrite Hr in Hok; done|].
  unfold files_ok, ids_file_ok. rewrite Hout in Hnd |- *. rewrite Hidsf. simpl in *.
  split; [split|split; [done|split]].
  - apply NoDup_elements.
  - apply Forall_forall. intros s Hs%elem_of_elements.
    rewrite Hids in Hs. apply elem_of_list_to_set in Hs.
    by eapply delivered_ids_clean.
  - intros s Hs. apply elem_of_elements. rewrite Hids.
    by apply elem_of_list_to_set.
  - eapply Forall_impl; [exact Hdel|]. intros rec. apply Hident.
Qed.

Lemma files_ok_no_files : files_ok strip no_files.
Proof.
  unfold files_ok, ids_file_ok. simpl.
  repeat split; try constructor. intros s Hs. by apply elem_of_nil in Hs.
Qed.

Lemma incrementals_keep_files_ok incs fs :
  clean_ids strip (incrementals incs) →
  all_identified (incrementals incs) →
  runs_ok strip (incrementals incs) fs = true →
  files_ok strip fs →
  files_ok strip (runs strip (incrementals incs) fs).
Proof.
  revert fs. induction incs as [|[[api f] t] incs IH]; intros fs Hclean Hident Hok Hfs;
    [done|].
  unfold runs. cbn [incrementals fmap list_fmap foldl] in *.
  cbn [runs_ok run fst snd] in Hok. apply andb_true_iff in Hok as [Hok1 Hok2].
  apply IH.
  - intros r' rec s Hr'. apply Hclean. by right.
  - intros r' rec Hr'. apply Hident. by right.
  - done.
  - apply incremental_keeps_files_ok; [| |done|done].
    + intros rec s. apply (Hclean (Incremental api f t)). by left.
    + intros rec. apply (Hident (Incremental api f t)). by left.
Qed.

(** When every record carries an identifier and no identifier occurs
    twice, no value of the identifier field occurs twice. *)
Lemma NoDup_speechID (recs : list (gmap string json)) :
  Forall (λ rec, is_Some (record_id rec)) recs →
  NoDup (ids_of recs) →
  NoDup ((λ rec, get rec "speechID") <$> recs).
Proof.
  induction 1 as [|rec recs [s Hs] Hall IH]; intros Hnd; [constructor|].
  unfold ids_of in Hnd. cbn [omap list_omap] in Hnd. rewrite Hs in Hnd.
  apply NoDup_cons in Hnd as [Hnin Hnd].
  rewrite fmap_cons. apply NoDup_cons. split; [|by apply IH].
  intros (rec' & Heq & Hin)%list_elem_of_fmap. apply Hnin.
  apply list_elem_of_omap. exists rec'. split; [done|].
  unfold record_id in *. by rewrite <- Heq.
Qed.

(** *** Runs that see nothing new *)

Lemma set_out_same fs recs : out_file fs = Some recs → set_out (Some recs) fs = fs.
Proof. destruct fs. simpl. by intros ->. Qed.

Lemma fetch_incremental_all_known api from_date to_date fs :
  is_Some (out_file fs) →
  all_known api (load_fetched_ids strip fs) →
  fetch_incremental strip api from_date to_date fs = (fs, Ok None)
  ∨ fetch_incremental strip api from_date to_date fs = (fs, Raise HTTPError).
Proof.
  intros [recs Hout] Hknown. unfold fetch_incremental.
  destruct (get_record_count api _ _) as [total|e] eqn:Hcount.
  2:{ right. unfold get_record_count in Hcount. by destruct (api _); simplify_eq. }
  destruct (total =? 0)%nat; [by left|].
  set (start := mkIncLoop 0 None (load_fetched_ids strip fs) ∅ []).
  pose proof (incremental_pages_ind (λ st, st = start)
    api (isoformat from_date) (isoformat to_date) total) as Hind.
  pose proof (incremental_pages_result api (isoformat from_date)
    (isoformat to_date) total
    (seq 0 (ceil_div total MAX_RECORDS_PER_REQUEST)) start) as Hres.
  assert (∀ st rec, delivers api rec → st = start →
                    incremental_record st rec = start) as Hstep.
  { intros st rec Hd ->. destruct (Hknown rec Hd) as (s & Hid & Hin).
    apply (incremental_record_known start rec s); [done| |done].
    by eapply load_fetched_ids_nonempty. }
  specialize (Hind Hstep (seq 0 (ceil_div total MAX_RECORDS_PER_REQUEST))
                   start eq_refl).
  destruct (incremental_pages _ _ _ _ _ _) as [st res]. simpl in *. subst st.
  simpl. rewrite Hout. simpl. rewrite app_nil_r, (set_out_same fs recs Hout).
  destruct Hres as [-> | ->]; [left|by right].
  by rewrite bool_decide_eq_true_2.
Qed.

Lemma auto_fetch_incremental_mode today api fs rec recs :
  out_file fs = Some (rec :: recs) →
  auto_fetch strip today api fs = (fs, Raise ValueError)
  ∨ auto_fetch strip today api fs = (fs, Raise OverflowError)
  ∨ ∃ from_date,
      auto_fetch strip today api fs
      = then_save_state (fetch_incremental strip api from_date today fs).
Proof.
  intros Hout. unfold auto_fetch. rewrite Hout.
  destruct (load_state fs) as [|s].
  { right. right. by exists INIT_FROM_DATE. }
  destruct (truthy (JStr s)).
  2:{ right. right. by exists INIT_FROM_DATE. }
  destruct (fromisoformat s) as [d|]; [|by left].
  destruct (sub_days d 3) as [from_date|]; [|by right; left].
  right. right. by exists from_date.
Qed.

Lemma auto_fetch_all_known today api fs rec recs :
  out_file fs = Some (rec :: recs) →
  all_known api (load_fetched_ids strip fs) →
  (auto_fetch strip today api fs).1 = fs.
Proof.
  intros Hout Hknown.
  destruct (auto_fetch_incremental_mode today api fs rec recs Hout)
    as [-> | [-> | [from_date ->]]]; [done..|].
  by destruct (fetch_incremental_all_known api from_date today fs) as [-> | ->].
Qed.

(** Once an incremental run has gone past the count, there is a record
    file. *)
Lemma fetch_incremental_leaves_file api from_date to_date fs :
  (fetch_incremental strip api from_date to_date fs).1 = fs
  ∧ ((fetch_incremental strip api from_date to_date fs).2 = Raise HTTPError
     ∨ (fetch_incremental strip api from_date to_date fs).2 = Ok None)
  ∨ is_Some (out_file (fetch_incremental strip api from_date to_date fs).1).
Proof.
  destruct (fetch_incremental_spec api from_date to_date fs)
    as [Hsame|(st & _ & _ & _ & -> & _)]; [by left|by right].
Qed.


(** *** Sequences of runs *)

Lemma ids_file_ok_no_files : ids_file_ok strip no_files.
Proof. unfold ids_file_ok. simpl. split; constructor. Qed.

(** A full run leaves the ID file alone or rewrites it from a set. *)
Lemma fetch_initial_ids_file api from_date to_date fs :
  ids_file (fetch_initial api from_date to_date fs).1 = ids_file fs
  ∨ ∃ ids : gset string,
      ids_file (fetch_initial api from_date to_date fs).1 = Some (elements ids).
Proof.
  destruct (fetch_initial_spec api from_date to_date fs)
    as [[-> _]|(st & _ & _ & _ & _ & _ & [[_ ->]|[_ ->]])]; [by left..|].
  right. by exists (all_ids st).
Qed.

(** An incremental run appends to the ID file the elements of a set that
    shares nothing with the set it loaded. *)
Lemma fetch_incremental_ids_file api from_date to_date fs :
  ∃ ids : gset string,
    ids ## load_fetched_ids strip fs
    ∧ default [] (ids_file (fetch_incremental strip api from_date to_date fs).1)
      = default [] (ids_file fs) ++ elements ids.
Proof.
  destruct (fetch_incremental_spec api from_date to_date fs)
    as [[-> _]|(st & (_ & Hdisj & _) & _ & _ & _ & _ & [[_ ->]|[_ ->]])].
  - exists ∅. split; [set_solver|]. by rewrite elements_empty, app_nil_r.
  - exists ∅. split; [set_solver|]. by rewrite elements_empty, app_nil_r.
  - destruct (decide (new_ids st = ∅)).
    + exists ∅. split; [set_solver|]. by rewrite elements_empty, app_nil_r.
    + by exists (new_ids st).
Qed.

(** An incremental run appends to the record file; what it appends
    carries no identifier of the set it loaded, nor one identifier twice. *)
Lemma fetch_incremental_appends api from_date to_date fs :
  ∃ appended,
    default [] (out_file (fetch_incremental strip api from_date to_date fs).1)
    = default [] (out_file fs) ++ appended
    ∧ NoDup (ids_of appended)
    ∧ ∀ s, s ∈ ids_of appended → s ∉ load_fetched_ids strip fs.
Proof.
  destruct (fetch_incremental_spec api from_date to_date fs)
    as [[-> _]|(st & (_ & Hdisj & Hnew & Hnd & _) & _ & _ & -> & _)].
  - exists []. rewrite app_nil_r. split; [done|]. split; [constructor|].
    intros s Hs. by apply elem_of_nil in Hs.
  - exists (f_out st). split; [done|]. split; [done|].
    intros s Hs Hin. apply (Hdisj s); [|done].
    rewrite Hnew. by apply elem_of_list_to_set.
Qed.


(** C3 (amended). Start with no files, run a full fetch and then any
    number of incremental fetches, all of which return.  If every record
    the service hands out carries an identifier that is non-empty, fits
    one line and is unchanged by [strip], and the full fetch wrote no
    identifier twice, then no two records of the record file carry the
    same identifier, so no record occurs twice.  Besides, whatever the
    records: an incremental fetch only appends to the record file, and
    what it appends carries no identifier of the set it loaded and no
    identifier twice. *)
Theorem C3_record_file_has_no_duplicate api0 from0 to0 incs :
  runs_ok strip (Full api0 from0 to0 :: incrementals incs) no_files = true →
  clean_ids strip (Full api0 from0 to0 :: incrementals incs) →
  all_identified (Full api0 from0 to0 :: incrementals incs) →
  NoDup (ids_of (default [] (out_file (fetch_initial api0 from0 to0 no_files).1))) →
  let recs :=
    default [] (out_file
      (runs strip (Full api0 from0 to0 :: incrementals incs) no_files)) in
  NoDup ((λ rec, get rec "speechID") <$> recs)
  ∧ NoDup recs
  ∧ (∀ api from_date to_date fs,
       ∃ appended,
         default [] (out_file (fetch_incremental strip api from_date to_date fs).1)
         = default [] (out_file fs) ++ appended
         ∧ NoDup (ids_of appended)
         ∧ ∀ s, s ∈ ids_of appended → s ∉ load_fetched_ids strip fs).
Proof.
  intros Hok Hclean Hident Hfull recs.
  cbn [runs_ok run] in Hok. apply andb_true_iff in Hok as [Hok0 Hoks].
  assert (files_ok strip (fetch_initial api0 from0 to0 no_files).1) as Hfs1.
  { apply full_gives_files_ok; [| |done|done|apply files_ok_no_files].
    - intros rec s. apply (Hclean (Full api0 from0 to0)). by left.
    - intros rec. apply (Hident (Full api0 from0 to0)). by left. }
  assert (files_ok strip
            (runs strip (Full api0 from0 to0 :: incrementals incs) no_files))
    as (_ & Hnd & _ & Hall).
  { unfold runs. cbn [foldl run].
    apply incrementals_keep_files_ok; [| |done|done].
    - intros r rec s Hr. apply Hclean. by right.
    - intros r rec Hr. apply Hident. by right. }
  fold recs in Hnd, Hall.
  assert (NoDup ((λ rec, get rec "speechID") <$> recs)) as Hids
    by by apply NoDup_speechID.
  split; [done|]. split; [by eapply NoDup_fmap_1|].
  apply fetch_incremental_appends.
Qed.

(** *** Dispatch and the fetch state *)

Lemma new_records_same fs : new_records fs fs = [].
Proof. unfold new_records. apply drop_all. Qed.

Lemma record_date_nonempty (recs : list (gmap string json)) d :
  d ∈ dates_of recs → d ≠ "".
Proof.
  intros (rec & _ & Hd)%list_elem_of_omap. unfold record_date in Hd.
  destruct (get rec "date") as [|x]; [done|].
  destruct (truthy (JStr x)) eqn:Ht; simplify_eq. by apply truthy_JStr.
Qed.

(** When an incremental run returns, the date it returns tracks the
    records it appended. *)
Lemma fetch_incremental_latest api from_date to_date fs fs' latest :
  fetch_incremental strip api from_date to_date fs = (fs', Ok latest) →
  tracks latest (new_records fs fs') ∧ state_file fs' = state_file fs.
Proof.
  intros Hrun.
  destruct (fetch_incremental_spec api from_date to_date fs)
    as [[Hfs Hr]|(st & _ & Ht & _ & Hout & Hst & Hr)]; rewrite Hrun in *; simpl in *.
  - subst fs'. rewrite new_records_same.
    destruct Hr as [?|?]; by simplify_eq.
  - destruct Hr as [[? _]|[? _]]; simplify_eq. split; [|done].
    unfold new_records. rewrite Hout. simpl. by rewrite drop_app_length.
Qed.

(** The same for a full run that starts without records. *)
Lemma fetch_initial_latest api from_date to_date fs fs' latest :
  out_file fs = None ∨ out_file fs = Some [] →
  fetch_initial api from_date to_date fs = (fs', Ok latest) →
  tracks latest (new_records fs fs') ∧ state_file fs' = state_file fs.
Proof.
  intros Hempty Hrun.
  destruct (fetch_initial_spec api from_date to_date fs)
    as [[Hfs Hr]|(st & _ & Ht & _ & Hout & Hst & Hr)]; rewrite Hrun in *; simpl in *.
  - subst fs'. rewrite new_records_same.
    destruct Hr as [?|?]; by simplify_eq.
  - destruct Hr as [[? _]|[? _]]; simplify_eq. split; [|done].
    unfold new_records. rewrite Hout.
    by destruct Hempty as [-> | ->].
Qed.

Lemma then_save_state_persists fs r fs' :
  (∀ fs1 latest, r = (fs1, Ok latest) →
     tracks latest (new_records fs fs1) ∧ state_file fs1 = state_file fs) →
  then_save_state r = (fs', Ok tt) →
  (∀ d, d ∈ dates_of (new_records fs fs') →
     ∃ m, max_date (new_records fs fs') m ∧ state_file fs' = Some (JStr m))
  ∧ (dates_of (new_records fs fs') = [] → state_file fs' = state_file fs).
Proof.
  intros Hr Hsave. destruct r as [fs1 [latest|e]]; simpl in Hsave; [|done].
  destruct (Hr fs1 latest eq_refl) as [Ht Hst]. simplify_eq.
  assert (new_records fs (save_latest latest fs1) = new_records fs fs1) as ->.
  { unfold save_latest. destruct latest as [m|]; [|done].
    by destruct (truthy (JStr m)). }
  destruct latest as [m|]; simpl in *.
  - assert (m ≠ "") as Hm by (eapply record_date_nonempty, Ht).
    apply truthy_JStr in Hm. simpl in Hm. rewrite Hm. simpl. split.
    + intros _ _. by exists m.
    + intros Hnil. destruct Ht as [Hin _]. rewrite Hnil in Hin.
      by apply elem_of_nil in Hin.
  - split; [|done]. intros d Hd. rewrite Ht in Hd. by apply elem_of_nil in Hd.
Qed.

Lemma auto_fetch_full_mode today api fs :
  out_file fs = None ∨ out_file fs = Some [] →
  auto_fetch strip today api fs
  = then_save_state (fetch_initial api INIT_FROM_DATE today fs).
Proof. intros [Hout|Hout]; unfold auto_fetch; by rewrite Hout. Qed.

Lemma auto_fetch_window today api fs rec recs s d from_date :
  out_file fs = Some (rec :: recs) →
  state_file fs = Some (JStr s) → s ≠ "" →
  fromisoformat s = Some d → sub_days d 3 = Some from_date →
  auto_fetch strip today api fs
  = then_save_state (fetch_incremental strip api from_date today fs).
Proof.
  intros Hout Hst Hs Hd Hfrom. unfold auto_fetch, load_state.
  rewrite Hout, Hst. simpl. apply truthy_JStr in Hs. simpl in Hs.
  by rewrite Hs, Hd, Hfrom.
Qed.

Lemma auto_fetch_no_state today api fs rec recs :
  out_file fs = Some (rec :: recs) →
  truthy (load_state fs) = false →
  auto_fetch strip today api fs
  = then_save_state (fetch_incremental strip api INIT_FROM_DATE today fs).
Proof.
  intros Hout Hst. unfold auto_fetch. rewrite Hout.
  destruct (load_state fs) as [|s]; [done|]. by rewrite Hst.
Qed.

End ingestion.

(** ** The pages of a listing *)

Section pages.
Import py datetime get_diet_speeches.

(** Both page loops are a fold of the record step over what [read_pages]
    reads. *)
Lemma initial_pages_read api from_str until_str total idxs st :
  initial_pages api from_str until_str total idxs st
  = (foldl initial_record st (read_pages api from_str until_str total idxs).1,
     (read_pages api from_str until_str total idxs).2).
Proof.
  revert st. induction idxs as [|i idxs IH]; intros st; [done|].
  cbn [initial_pages read_pages]. unfold page_request.
  destruct (total <? 1 + i * MAX_RECORDS_PER_REQUEST)%nat; [done|].
  destruct (api _) as [data|]; [|done].
  rewrite IH.
  destruct (read_pages api from_str until_str total idxs) as [more r].
  cbn [fst snd]. by rewrite foldl_app.
Qed.

Lemma incremental_pages_read api from_str until_str total idxs st :
  incremental_pages api from_str until_str total idxs st
  = (foldl incremental_record st (read_pages api from_str until_str total idxs).1,
     (read_pages api from_str until_str total idxs).2).
Proof.
  revert st. induction idxs as [|i idxs IH]; intros st; [done|].
  cbn [incremental_pages read_pages]. unfold page_request.
  destruct (total <? 1 + i * MAX_RECORDS_PER_REQUEST)%nat; [done|].
  destruct (api _) as [data|]; [|done].
  rewrite IH.
  destruct (read_pages api from_str until_str total idxs) as [more r].
  cbn [fst snd]. by rewrite foldl_app.
Qed.

Lemma ceil_div_pages total i :
  (i < ceil_div total MAX_RECORDS_PER_REQUEST)%nat →
  (1 + i * MAX_RECORDS_PER_REQUEST ≤ total)%nat.
Proof.
  unfold ceil_div, MAX_RECORDS_PER_REQUEST. intros Hi.
  pose proof (Nat.div_mod_eq (total + (100 - 1)) 100) as Hdm.
  pose proof (Nat.mod_upper_bound (total + (100 - 1)) 100 ltac:(lia)) as Hm.
  nia.
Qed.

(** A loop that is not left early and meets no failure reads the pages of
    its indexes one after the other. *)
Lemma read_pages_complete api from_str until_str total idxs :
  Forall (λ i, (1 + i * MAX_RECORDS_PER_REQUEST ≤ total)%nat) idxs →
  (read_pages api from_str until_str total idxs).2 = Ok tt →
  (read_pages api from_str until_str total idxs).1
  = flat_map (page_records api from_str until_str) idxs
  ∧ Forall (λ i, is_Some (api (page_request from_str until_str i))) idxs.
Proof.
  induction 1 as [|i idxs Hi _ IH]; [done|].
  cbn [read_pages flat_map]. unfold page_records at 1.
  destruct (Nat.ltb_spec total (1 + i * MAX_RECORDS_PER_REQUEST)) as [?|_];
    [lia|].
  destruct (api (page_request from_str until_str i)) as [data|] eqn:Hd;
    [|done].
  destruct (read_pages api from_str until_str total idxs) as [more r].
  cbn [fst snd] in *. intros Hr. destruct (IH Hr) as [-> Hall].
  split; [done|]. constructor; [by rewrite Hd|done].
Qed.

Lemma seq_pages total :
  Forall (λ i, (1 + i * MAX_RECORDS_PER_REQUEST ≤ total)%nat)
         (seq 0 (ceil_div total MAX_RECORDS_PER_REQUEST)).
Proof.
  apply Forall_forall. intros i Hi. apply elem_of_seq in Hi.
  apply ceil_div_pages. lia.
Qed.


Lemma foldl_initial_record recs st :
  init_inv st →
  init_inv (foldl initial_record st recs)
  ∧ i_f_out (foldl initial_record st recs) = i_f_out st ++ recs.
Proof.
  revert st. induction recs as [|rec recs IH]; intros st Hst.
  - by rewrite app_nil_r.
  - cbn [foldl]. destruct (IH (initial_record st rec)) as [? ->].
    { by apply (init_inv_step id). }
    split; [done|]. cbn [initial_record i_f_out]. by rewrite <- app_assoc.
Qed.

(** X2. A full fetch of a listing that is not empty, when it returns,
    has been served every page; it has replaced the record file, whatever
    it held, by the records of the pages in order, has rewritten the ID
    file with the identifiers that these records carry, and has left the
    state file alone. *)
Theorem X2_full_fetch_writes_the_listing
        api from_date to_date fs fs' latest total :
  get_record_count api (isoformat from_date) (isoformat to_date) = Ok total →
  total ≠ 0%nat →
  fetch_initial api from_date to_date fs = (fs', Ok latest) →
  let pages := seq 0 (ceil_div total MAX_RECORDS_PER_REQUEST) in
  let listing :=
    flat_map (page_records api (isoformat from_date) (isoformat to_date)) pages in
  Forall (λ i, is_Some (api (page_request (isoformat from_date)
                                          (isoformat to_date) i))) pages
  ∧ fs' = mkFiles (Some listing) (state_file fs)
                  (Some (elements (list_to_set (ids_of listing) : gset string))).
Proof.
  intros Hc Hne. unfold fetch_initial. rewrite Hc.
  destruct (Nat.eqb_spec total 0) as [?|_]; [done|].
  rewrite initial_pages_read.
  pose proof (read_pages_complete api (isoformat from_date) (isoformat to_date)
                total _ (seq_pages total)) as Hread.
  destruct (read_pages api (isoformat from_date) (isoformat to_date) total
              (seq 0 (ceil_div total MAX_RECORDS_PER_REQUEST))) as [recs r].
  cbn [fst snd] in *.
  destruct r as [[]|e]; [|done].
  destruct (Hread eq_refl) as [-> Hall]. intros [= <- <-].
  split; [done|].
  set (listing := flat_map _ _).
  destruct (foldl_initial_record listing _ init_inv_start) as [[Hids _] Hout].
  unfold save_fetched_ids, set_ids, set_out. cbn [out_file state_file ids_file].
  rewrite Hids, Hout. done.
Qed.

Lemma read_pages_delivers api from_str until_str total idxs :
  Forall (delivers api) (read_pages api from_str until_str total idxs).1.
Proof.
  induction idxs as [|i idxs IH]; [constructor|].
  cbn [read_pages].
  destruct (total <? 1 + i * MAX_RECORDS_PER_REQUEST)%nat; [constructor|].
  destruct (api (page_request from_str until_str i)) as [data|] eqn:Hd;
    [|constructor].
  destruct (read_pages api from_str until_str total idxs) as [more r].
  cbn [fst snd] in *. apply Forall_app. split; [|done].
  apply Forall_forall. intros rec Hin. by exists (page_request from_str until_str i), data.
Qed.

Lemma fetch_initial_out api from_date to_date fs :
  (fetch_initial api from_date to_date fs).1 = fs
  ∨ out_file (fetch_initial api from_date to_date fs).1
    = out_file (fetch_initial api from_date to_date no_files).1.
Proof.
  unfold fetch_initial.
  destruct (get_record_count _ _ _) as [total|e]; [|by left].
  destruct (total =? 0)%nat; [by left|].
  destruct (initial_pages _ _ _ _ _ _) as [st [[]|e]]; by right.
Qed.

End pages.

(** ** Incremental runs and the script day after day *)

Section daily_runs.
Import py datetime get_diet_speeches.

Variable strip : string → string.

(** Reading back what was written for clean identifiers. *)
Lemma load_lines_clean (ids : gset string) :
  (∀ s, s ∈ ids → clean strip s) →
  (list_to_set (filter (λ l, l ≠ "") (strip <$> elements ids)) : gset string)
  = ids.
Proof.
  intros Hc. apply set_eq. intros x.
  rewrite elem_of_list_to_set, list_elem_of_filter, list_elem_of_fmap.
  split.
  - intros (_ & y & -> & Hy%elem_of_elements).
    destruct (Hc y Hy) as (-> & _). done.
  - intros Hx. destruct (Hc x Hx) as (Hs & Hne & _).
    split; [done|]. exists x. split; [done|]. by apply elem_of_elements.
Qed.

Lemma load_append_clean new fs :
  (∀ s, s ∈ new → clean strip s) →
  load_fetched_ids strip (append_fetched_ids new fs)
  = load_fetched_ids strip fs ∪ new.
Proof.
  intros Hc. unfold load_fetched_ids, append_fetched_ids, set_ids.
  cbn [ids_file]. rewrite fmap_app, filter_app, list_to_set_app_L.
  rewrite (load_lines_clean new Hc).
  destruct (ids_file fs) as [lines|]; [done|]. cbn [default fmap list_fmap].
  by rewrite filter_nil.
Qed.

(** X3. Clean identifiers are read back from the ID file as they were
    written: after [save_fetched_ids] the set loaded is the set saved, and
    [append_fetched_ids] adds exactly the appended identifiers to what is
    loaded. *)
Theorem X3_ids_file_round_trip (ids new : gset string) fs :
  (∀ s, s ∈ ids ∪ new → clean strip s) →
  load_fetched_ids strip (save_fetched_ids ids fs) = ids
  ∧ load_fetched_ids strip (append_fetched_ids new fs)
    = load_fetched_ids strip fs ∪ new
  ∧ load_fetched_ids strip (append_fetched_ids new (save_fetched_ids ids fs))
    = ids ∪ new.
Proof.
  intros Hc.
  assert (load_fetched_ids strip (save_fetched_ids ids fs) = ids) as Hsave.
  { unfold load_fetched_ids, save_fetched_ids, set_ids. cbn [ids_file].
    apply load_lines_clean. intros s Hs. apply Hc. set_solver. }
  split; [done|].
  assert (∀ s, s ∈ new → clean strip s) as Hn.
  { intros s Hs. apply Hc. set_solver. }
  split; [by apply load_append_clean|].
  rewrite load_append_clean by done. by rewrite Hsave.
Qed.

(** *** The incremental loop over a listing *)

Lemma incremental_record_cases st rec :
  existing_ids st ⊆ existing_ids (incremental_record st rec)
  ∧ (∃ more, f_out (incremental_record st rec) = f_out st ++ more)
  ∧ match record_id rec with
    | Some s => s ∈ existing_ids (incremental_record st rec)
    | None => rec ∈ f_out (incremental_record st rec)
    end.
Proof.
  destruct (record_id rec) as [s|] eqn:Hid.
  - destruct (decide (s ∈ existing_ids st)) as [Hin|Hnin].
    + apply (record_id_Some strip) in Hid as [Hget Hne].
      rewrite (incremental_record_known st rec s) by done.
      split; [done|]. split; [|done]. exists []. by rewrite app_nil_r.
    + rewrite (incremental_record_new strip st rec s) by done. cbn.
      split; [set_solver|]. split; [by eexists|set_solver].
  - rewrite (incremental_record_anonymous st rec) by done. cbn.
    split; [done|]. split; [by eexists|]. apply elem_of_app. right. by left.
Qed.

Lemma foldl_incremental_record recs st :
  existing_ids st ⊆ existing_ids (foldl incremental_record st recs)
  ∧ (∃ more, f_out (foldl incremental_record st recs) = f_out st ++ more)
  ∧ ∀ rec, rec ∈ recs →
      match record_id rec with
      | Some s => s ∈ existing_ids (foldl incremental_record st recs)
      | None => rec ∈ f_out (foldl incremental_record st recs)
      end.
Proof.
  revert st. induction recs as [|rec recs IH]; intros st.
  - split; [done|]. split; [exists []; by rewrite app_nil_r|].
    intros rec Hin. by apply elem_of_nil in Hin.
  - cbn [foldl].
    destruct (incremental_record_cases st rec) as (Hsub & [more Hout] & Hrec).
    destruct (IH (incremental_record st rec)) as (Hsub' & [more' Hout'] & Hall).
    split; [set_solver|]. split.
    { exists (more ++ more'). by rewrite Hout', Hout, <- app_assoc. }
    intros rec' [->|Hin]%elem_of_cons; [|by apply Hall].
    destruct (record_id rec).
    + set_solver.
    + rewrite Hout'. apply elem_of_app. by left.
Qed.

Lemma foldl_incremental_inv E recs st :
  inc_inv E st → inc_inv E (foldl incremental_record st recs).
Proof.
  revert st. induction recs as [|rec recs IH]; intros st Hst; [done|].
  cbn [foldl]. apply IH. by apply (inc_inv_step strip).
Qed.

Lemma foldl_incremental_known recs st :
  Forall (λ rec, ∃ s, record_id rec = Some s ∧ s ∈ existing_ids st) recs →
  foldl incremental_record st recs = st.
Proof.
  induction 1 as [|rec recs (s & Hid & Hin) _ IH]; [done|].
  cbn [foldl]. apply (record_id_Some strip) in Hid as [Hget Hne].
  by rewrite (incremental_record_known st rec s).
Qed.

(** What an incremental fetch leaves when it returns. *)
Lemma fetch_incremental_returns api from_date to_date fs fs' latest total :
  get_record_count api (isoformat from_date) (isoformat to_date) = Ok total →
  total ≠ 0%nat →
  fetch_incremental strip api from_date to_date fs = (fs', Ok latest) →
  let listing :=
    (read_pages api (isoformat from_date) (isoformat to_date) total
                (seq 0 (ceil_div total MAX_RECORDS_PER_REQUEST))).1 in
  let st := foldl incremental_record
                  (mkIncLoop 0 None (load_fetched_ids strip fs) ∅ []) listing in
  (read_pages api (isoformat from_date) (isoformat to_date) total
              (seq 0 (ceil_div total MAX_RECORDS_PER_REQUEST))).2 = Ok tt
  ∧ latest = latest_date st
  ∧ fs' = mkFiles (Some (default [] (out_file fs) ++ f_out st)) (state_file fs)
                  (if decide (new_ids st = ∅) then ids_file fs
                   else Some (default [] (ids_file fs) ++ elements (new_ids st))).
Proof.
  intros Hc Hne. unfold fetch_incremental. rewrite Hc.
  destruct (Nat.eqb_spec total 0) as [?|_]; [done|].
  rewrite incremental_pages_read.
  destruct (read_pages api (isoformat from_date) (isoformat to_date) total
              (seq 0 (ceil_div total MAX_RECORDS_PER_REQUEST))) as [recs r].
  cbn [fst snd].
  destruct r as [[]|e]; [|done]. intros [= <- <-].
  split; [done|]. split; [done|].
  unfold append_fetched_ids, set_ids, set_out.
  destruct (decide _) as [->|Hn].
  - rewrite bool_decide_eq_true_2 by done. by destruct fs.
  - rewrite bool_decide_eq_false_2 by done. done.
Qed.

(** The identifiers loaded after a run that returned. *)
Lemma fetch_incremental_loaded api from_date to_date fs fs' latest :
  (∀ rec s, delivers api rec → record_id rec = Some s → clean strip s) →
  fetch_incremental strip api from_date to_date fs = (fs', Ok latest) →
  load_fetched_ids strip fs'
  = load_fetched_ids strip fs ∪ list_to_set (ids_of (new_records fs fs')).
Proof.
  intros Hclean Hrun.
  pose proof (fetch_incremental_spec strip api from_date to_date fs) as Hspec.
  rewrite Hrun in Hspec. cbn [fst snd] in Hspec.
  destruct Hspec as [[-> _]|(st & Hinv & _ & Hdel & Hout & _ & Hids)].
  { rewrite new_records_same. cbn. set_solver. }
  destruct Hinv as (_ & _ & Hnew & _).
  assert (new_records fs fs' = f_out st) as ->.
  { unfold new_records. rewrite Hout. cbn [default from_option id].
    by rewrite drop_app_length. }
  destruct Hids as [[? _]|[_ Hids]]; [done|].
  rewrite <- Hnew.
  destruct (decide (new_ids st = ∅)) as [Hempty|Hne].
  - unfold load_fetched_ids. rewrite Hids, Hempty. set_solver.
  - rewrite <- (load_append_clean (new_ids st) fs).
    + unfold load_fetched_ids, append_fetched_ids, set_ids. cbn [ids_file].
      by rewrite Hids.
    + intros s Hs. rewrite Hnew in Hs. apply elem_of_list_to_set in Hs.
      by eapply delivered_ids_clean.
Qed.

(** X4. After an incremental fetch that returned, the identifiers
    loaded from the ID file are those loaded before together with those
    of the appended records (identifiers being clean); the state file is
    untouched and the ID file has grown at its end only. *)
Theorem X4_appended_identifiers_are_remembered
        api from_date to_date fs fs' latest :
  (∀ rec s, delivers api rec → record_id rec = Some s → clean strip s) →
  fetch_incremental strip api from_date to_date fs = (fs', Ok latest) →
  load_fetched_ids strip fs'
  = load_fetched_ids strip fs ∪ list_to_set (ids_of (new_records fs fs'))
  ∧ state_file fs' = state_file fs
  ∧ ∃ more, default [] (ids_file fs') = default [] (ids_file fs) ++ more.
Proof.
  intros Hclean Hrun. split; [by eapply fetch_incremental_loaded|].
  split.
  - by destruct (fetch_incremental_latest strip _ _ _ _ _ _ Hrun).
  - destruct (fetch_incremental_ids_file strip api from_date to_date fs)
      as (ids & _ & Hids).
    rewrite Hrun in Hids. by eexists.
Qed.

(** X5. When every record that the service hands out carries a clean
    identifier, an incremental fetch that has returned can be repeated
    over the same dates against the same service: the second run returns
    without a date and leaves the three files exactly as they are. *)
Theorem X5_fetching_the_same_listing_again_changes_nothing
        api from_date to_date fs fs1 latest :
  (∀ rec, delivers api rec → ∃ s, record_id rec = Some s ∧ clean strip s) →
  fetch_incremental strip api from_date to_date fs = (fs1, Ok latest) →
  fetch_incremental strip api from_date to_date fs1 = (fs1, Ok None).
Proof.
  intros Hid Hrun.
  assert (∀ rec s, delivers api rec → record_id rec = Some s → clean strip s)
    as Hclean.
  { intros rec s Hd Hs. destruct (Hid rec Hd) as (s' & Hs' & Hc). congruence. }
  pose proof (fetch_incremental_loaded _ _ _ _ _ _ Hclean Hrun) as Hload.
  destruct (get_record_count api (isoformat from_date) (isoformat to_date))
    as [total|e] eqn:Hc; [|by unfold fetch_incremental in Hrun; rewrite Hc in Hrun].
  destruct (decide (total = 0%nat)) as [->|Hne].
  { unfold fetch_incremental in *. rewrite Hc in *. cbn in *. by simplify_eq. }
  pose proof (fetch_incremental_returns _ _ _ _ _ _ _ Hc Hne Hrun)
    as (Hok & _ & Hfs1).
  set (listing := (read_pages api (isoformat from_date) (isoformat to_date) total
                     (seq 0 (ceil_div total MAX_RECORDS_PER_REQUEST))).1) in *.
  set (st0 := mkIncLoop 0 None (load_fetched_ids strip fs) ∅ []) in *.
  set (st := foldl incremental_record st0 listing) in *.
  assert (new_records fs fs1 = f_out st) as Hnew.
  { unfold new_records. rewrite Hfs1. cbn [out_file default from_option id].
    by rewrite drop_app_length. }
  assert (inc_inv (load_fetched_ids strip fs) st) as (Hex & _ & Hn & _).
  { apply foldl_incremental_inv, (inc_inv_start strip). }
  assert (load_fetched_ids strip fs1 = existing_ids st) as Hload1.
  { rewrite Hload, Hnew, Hex, Hn. done. }
  unfold fetch_incremental. rewrite Hc.
  destruct (Nat.eqb_spec total 0) as [?|_]; [done|].
  rewrite incremental_pages_read. fold listing. rewrite Hok. cbn [fst snd].
  rewrite foldl_incremental_known.
  - cbn [f_out new_ids latest_date]. rewrite bool_decide_eq_true_2 by done.
    rewrite app_nil_r. f_equal. rewrite Hfs1. done.
  - cbn [existing_ids]. rewrite Hload1.
    destruct (foldl_incremental_record listing st0) as (_ & _ & Hall).
    apply Forall_forall. intros rec Hin.
    assert (delivers api rec) as Hd.
    { pose proof (read_pages_delivers api (isoformat from_date)
                    (isoformat to_date) total
                    (seq 0 (ceil_div total MAX_RECORDS_PER_REQUEST))) as Hdel.
      rewrite Forall_forall in Hdel. by apply Hdel. }
    destruct (Hid rec Hd) as (s & Hs & _). exists s. split; [done|].
    specialize (Hall rec Hin). by rewrite Hs in Hall.
Qed.

(** X6. An incremental fetch that returns leaves out no new record:
    a record on a page of the listing either carries an identifier that
    the ID file already held or that an appended record carries, or it
    carries none and is itself appended. *)
Theorem X6_no_new_record_is_left_out
        api from_date to_date fs fs' latest total rec :
  get_record_count api (isoformat from_date) (isoformat to_date) = Ok total →
  fetch_incremental strip api from_date to_date fs = (fs', Ok latest) →
  rec ∈ flat_map (page_records api (isoformat from_date) (isoformat to_date))
                 (seq 0 (ceil_div total MAX_RECORDS_PER_REQUEST)) →
  match record_id rec with
  | Some s => s ∈ load_fetched_ids strip fs ∨ s ∈ ids_of (new_records fs fs')
  | None => rec ∈ new_records fs fs'
  end.
Proof.
  intros Hc Hrun Hin.
  destruct (decide (total = 0%nat)) as [->|Hne].
  { by apply elem_of_nil in Hin. }
  pose proof (fetch_incremental_returns _ _ _ _ _ _ _ Hc Hne Hrun)
    as (Hok & _ & Hfs').
  destruct (read_pages_complete api (isoformat from_date) (isoformat to_date)
              total _ (seq_pages total) Hok) as [Hlist _].
  rewrite Hlist in Hfs'.
  set (listing := flat_map _ _) in *.
  set (st0 := mkIncLoop 0 None (load_fetched_ids strip fs) ∅ []) in *.
  set (st := foldl incremental_record st0 listing) in *.
  assert (new_records fs fs' = f_out st) as ->.
  { unfold new_records. rewrite Hfs'. cbn [out_file default from_option id].
    by rewrite drop_app_length. }
  assert (inc_inv (load_fetched_ids strip fs) st) as (Hex & _ & Hn & _).
  { apply foldl_incremental_inv, (inc_inv_start strip). }
  destruct (foldl_incremental_record listing st0) as (_ & _ & Hall).
  specialize (Hall rec Hin). fold st in Hall.
  destruct (record_id rec) as [s|]; [|done].
  rewrite Hex, Hn in Hall. set_solver.
Qed.

(** *** The script over several days *)

Lemma save_latest_files_ok latest fs :
  files_ok strip fs → files_ok strip (save_latest latest fs).
Proof.
  unfold save_latest. destruct latest as [d|]; [|done].
  by destruct (truthy (JStr d)).
Qed.

Lemma then_save_state_files_ok r :
  is_ok (then_save_state r).2 = true →
  (is_ok r.2 = true → files_ok strip r.1) →
  files_ok strip (then_save_state r).1.
Proof.
  destruct r as [fs' [latest|e]]; [|done]. cbn. intros _ H.
  apply save_latest_files_ok. by apply H.
Qed.

Lemma auto_fetch_keeps_files_ok today api fs :
  (∀ rec s, delivers api rec → record_id rec = Some s → clean strip s) →
  (∀ rec, delivers api rec → is_Some (record_id rec)) →
  NoDup (ids_of (default [] (out_file
           (fetch_initial api INIT_FROM_DATE today no_files).1))) →
  is_ok (auto_fetch strip today api fs).2 = true →
  files_ok strip fs →
  files_ok strip (auto_fetch strip today api fs).1.
Proof.
  intros Hclean Hid Hnd Hok Hfs.
  destruct (out_file fs) as [[|rec recs]|] eqn:Hout.
  2:{ destruct (auto_fetch_incremental_mode strip today api fs rec recs Hout)
        as [H|[H|[from_date H]]]; rewrite H in *; [done..|].
      apply then_save_state_files_ok; [done|]. intros Hok'.
      by apply incremental_keeps_files_ok. }
  all: rewrite (auto_fetch_full_mode strip today api fs) in * by auto;
    apply then_save_state_files_ok; [done|]; intros Hok';
    apply full_gives_files_ok; try done;
    destruct (fetch_initial_out api INIT_FROM_DATE today fs) as [->| ->];
    try done; rewrite Hout; constructor.
Qed.

(** X7. The script run day after day on files that are in order, for
    instance on no files at all: when every run returns, every record
    handed out carries a clean identifier and no listing of a full fetch
    repeats one, then neither the record file nor the ID file ever holds
    an identifier twice, and the ID file lists the identifier of every
    record of the record file. *)
Theorem X7_daily_runs_keep_the_record_file_free_of_duplicates days fs :
  (∀ day rec, day ∈ days → delivers day.2 rec →
     ∃ s, record_id rec = Some s ∧ clean strip s) →
  (∀ day, day ∈ days →
     NoDup (ids_of (default [] (out_file
              (fetch_initial day.2 INIT_FROM_DATE day.1 no_files).1)))) →
  auto_runs_ok strip days fs = true →
  files_ok strip fs →
  let fs' := auto_runs strip days fs in
  NoDup ((λ rec, get rec "speechID") <$> default [] (out_file fs'))
  ∧ NoDup (default [] (ids_file fs'))
  ∧ ∀ rec, rec ∈ default [] (out_file fs') →
      ∃ s, get rec "speechID" = JStr s ∧ s ≠ ""
           ∧ s ∈ default [] (ids_file fs').
Proof.
  intros Hid Hnd Hok Hfs fs'.
  assert (files_ok strip fs') as ((Hids & _) & Hrecs & Hsub & Hall).
  { unfold fs'. clear fs'. revert fs Hok Hfs.
    induction days as [|day days IH]; intros fs Hok Hfs; [done|].
    cbn [auto_runs_ok] in Hok. apply andb_prop in Hok as [Hok1 Hok2].
    unfold auto_runs. cbn [foldl]. apply IH.
    - intros d rec Hd. apply Hid. by right.
    - intros d Hd. apply Hnd. by right.
    - done.
    - apply auto_fetch_keeps_files_ok; try done.
      + intros rec s Hd Hs.
        destruct (Hid day rec ltac:(by left) Hd) as (s' & Hs' & Hc). congruence.
      + intros rec Hd.
        destruct (Hid day rec ltac:(by left) Hd) as (s' & Hs' & _). by eexists.
      + apply Hnd. by left. }
  split; [by apply NoDup_speechID|]. split; [done|].
  intros rec Hin. rewrite Forall_forall in Hall.
  destruct (Hall rec Hin) as [s Hs]. exists s.
  pose proof (proj1 (record_id_Some strip rec s) Hs) as [Hget Hne].
  split; [done|]. split; [done|]. apply Hsub.
  apply list_elem_of_omap. by exists rec.
Qed.

(** X8. Whatever its outcome, [auto_fetch] keeps the records that the
    record file held, in place, in front of what it adds.  When it raises,
    the state file and the ID file are as they were. *)
Theorem X8_a_run_keeps_what_is_in_the_record_file today api fs :
  let r := auto_fetch strip today api fs in
  (∃ more, default [] (out_file r.1) = default [] (out_file fs) ++ more)
  ∧ ∀ e, r.2 = Raise e →
      state_file r.1 = state_file fs ∧ ids_file r.1 = ids_file fs.
Proof.
  intros r.
  assert (∀ latest fs', out_file (save_latest latest fs') = out_file fs')
    as Hsave.
  { intros [d|] fs'; [|done]. cbn. by destruct (negb _). }
  assert (∀ x : Files * result (option string),
            out_file (then_save_state x).1 = out_file x.1) as Hthen.
  { intros [fs' [latest|e]]; [apply Hsave|done]. }
  assert (∀ (x : Files * result (option string)) e,
            (then_save_state x).2 = Raise e →
            x.2 = Raise e ∧ (then_save_state x).1 = x.1) as Hraise.
  { intros [fs' [latest|e']] e; [done|]. cbn. by intros [= ->]. }
  assert (out_file fs = None ∨ out_file fs = Some []
          ∨ ∃ rec recs, out_file fs = Some (rec :: recs)) as Hcases.
  { destruct (out_file fs) as [[|rec recs]|]; eauto. }
  assert ((out_file fs = None ∨ out_file fs = Some []) ∨
          ∃ rec recs, out_file fs = Some (rec :: recs))
    as [Hfull|(rec & recs & Hout)] by tauto.
  - subst r. rewrite (auto_fetch_full_mode strip today api fs) by done.
    rewrite Hthen. split.
    { assert (default [] (out_file fs) = []) as -> by (by destruct Hfull as [-> | ->]).
      by eexists. }
    intros e [He ->]%Hraise.
    pose proof (fetch_initial_spec strip api INIT_FROM_DATE today fs) as Hspec.
    cbn zeta in Hspec. rewrite He in Hspec.
    destruct Hspec as [[-> [Hx|Hx]]|(st & _ & _ & _ & _ & Hst & Hids)].
    + simplify_eq. auto.
    + done.
    + destruct Hids as [[Hx ?]|[Hx _]]; [|done]. simplify_eq. auto.
  - destruct (auto_fetch_incremental_mode strip today api fs rec recs Hout)
      as [H|[H|[from_date H]]]; subst r; rewrite H; cbn [fst snd].
    + split; [exists []; by rewrite app_nil_r|]. intros e [= <-]. auto.
    + split; [exists []; by rewrite app_nil_r|]. intros e [= <-]. auto.
    + rewrite Hthen. split.
      * destruct (fetch_incremental_appends strip api from_date today fs)
          as (more & Happ & _).
        by exists more.
      * intros e [He ->]%Hraise.
        pose proof (fetch_incremental_spec strip api from_date today fs)
          as Hspec. cbn zeta in Hspec. rewrite He in Hspec.
        destruct Hspec as [[-> [Hx|Hx]]|(st & _ & _ & _ & _ & Hst & Hids)].
        -- simplify_eq. auto.
        -- done.
        -- destruct Hids as [[Hx ?]|[Hx _]]; [|done]. simplify_eq. auto.
Qed.

End daily_runs.

(** ** More on document generation and on the build *)

Section build.
Import py update_vectorstore.

Lemma len_app a b : len (a +:+ b) = (len a + len b)%nat.
Proof.
  induction a as [|c a IH]; [done|].
  simpl. rewrite IH. lia.
Qed.

(** The batching loop in one step, for a pending batch below the batch
    size. *)
Lemma add_batches_spec docs batch store :
  (length batch < BATCH_SIZE)%nat →
  let all := batch ++ docs in
  let full := (BATCH_SIZE * (length all / BATCH_SIZE))%nat in
  add_batches docs batch store = (drop full all, store ++ take full all).
Proof.
  unfold BATCH_SIZE. revert batch store.
  induction docs as [|doc docs IH]; intros batch store Hlen; cbn zeta.
  - rewrite app_nil_r. rewrite Nat.div_small by done.
    cbn [add_batches]. rewrite Nat.mul_0_r. cbn [take drop].
    by rewrite app_nil_r.
  - cbn [add_batches]. unfold BATCH_SIZE.
    destruct (Nat.leb_spec 200 (length (batch ++ [doc]))) as [Hfull|Hless].
    + rewrite length_app in Hfull. cbn [length] in Hfull.
      rewrite (IH [] (store ++ batch ++ [doc])) by (cbn; lia). cbn zeta.
      cbn [app].
      assert (length (batch ++ doc :: docs) = 1 * 200 + length docs)%nat as ->.
      { rewrite length_app. cbn [length]. lia. }
      rewrite Nat.div_add_l by done.
      replace (200 * (1 + length docs / 200))%nat
        with (length (batch ++ [doc]) + 200 * (length docs / 200))%nat
        by (rewrite length_app; cbn [length]; lia).
      replace (batch ++ doc :: docs) with ((batch ++ [doc]) ++ docs)
        by (by rewrite <- app_assoc).
      rewrite take_app_add, drop_app_add. by rewrite <- !app_assoc.
    + rewrite (IH (batch ++ [doc]) store) by done. cbn zeta.
      by rewrite <- !app_assoc.
Qed.

(** The calls of [add_documents] made inside the loop take a full batch
    each; between them and the pending batch, every document is there
    once, in order. *)
Lemma batch_calls_spec docs batch :
  (length batch < BATCH_SIZE)%nat →
  concat (batch_calls docs batch).1 ++ (batch_calls docs batch).2 = batch ++ docs
  ∧ Forall (λ c, length c = BATCH_SIZE) (batch_calls docs batch).1
  ∧ (length (batch_calls docs batch).2 < BATCH_SIZE)%nat.
Proof.
  revert batch. induction docs as [|doc docs IH]; intros batch Hlen.
  - cbn. by rewrite app_nil_r.
  - cbn [batch_calls].
    destruct (Nat.leb_spec BATCH_SIZE (length (batch ++ [doc]))) as [Hfull|Hless].
    + destruct (IH []) as (Hall & Hcalls & Hpending); [unfold BATCH_SIZE; cbn; lia|].
      destruct (batch_calls docs []) as [calls pending]. cbn [fst snd] in *.
      cbn [concat]. split; [by rewrite <- !app_assoc, Hall|].
      split; [|done]. constructor; [|done].
      rewrite length_app in *. cbn [length] in *. lia.
    + destruct (IH (batch ++ [doc]) Hless) as (Hall & Hcalls & Hpending).
      split; [by rewrite Hall, <- app_assoc|done].
Qed.

Lemma add_batches_calls docs batch store :
  add_batches docs batch store
  = ((batch_calls docs batch).2, store ++ concat (batch_calls docs batch).1).
Proof.
  revert batch store. induction docs as [|doc docs IH]; intros batch store.
  - cbn. by rewrite app_nil_r.
  - cbn [add_batches batch_calls].
    destruct (BATCH_SIZE <=? length (batch ++ [doc]))%nat.
    + rewrite IH. destruct (batch_calls docs []) as [calls pending].
      cbn [fst snd concat]. by rewrite <- !app_assoc.
    + apply IH.
Qed.

Variable split_text : Splitter → string → list string.

(** X9. The text of a record counts its header: its length is the 21
    characters of the labels and line ends, the four header fields as
    they are formatted, and the speech.  It is this length that is
    compared with 1200 to choose between a single document with the whole
    text and the chunks of the splitter. *)
Theorem X9_the_header_counts_towards_the_limit rec text :
  build_base_text rec = Ok text →
  ∃ speech,
    get_or rec "speech" (JStr "") = JStr speech
    ∧ len text
      = (21 + len (format (get_or rec "date" (JStr "")))
         + len (format (get_or rec "nameOfHouse" (JStr "")))
         + len (format (get_or rec "nameOfMeeting" (JStr "")))
         + len (format (get_or rec "speaker" (JStr "")))
         + len speech)%nat
    ∧ ∀ rec_idx docs,
        record_documents split_text rec_idx rec = Ok docs →
        if (len text <=? 1200)%nat
        then docs = [mkDocument text (chunk_metadata (build_metadata rec rec_idx) 0 1)]
        else page_content <$> docs = split_text splitter text.
Proof.
  unfold build_base_text.
  destruct (get_or rec "speech" (JStr "")) as [|speech] eqn:Hs; [done|].
  intros [= <-]. exists speech. split; [done|]. split.
  - rewrite !len_app.
    change (len "【日付】") with 4%nat. change (len "【院】") with 3%nat.
    change (len "【会議】") with 4%nat. change (len "【発言者】") with 5%nat.
    change (len nl) with 1%nat. lia.
  - intros rec_idx docs. unfold record_documents, build_base_text. rewrite Hs.
    change MAX_LEN_NO_SPLIT with 1200%nat.
    destruct (_ <=? 1200)%nat; intros [= <-]; [done|].
    apply list_eq. intros i. rewrite list_lookup_fmap, list_lookup_imap.
    by destruct (_ !! i).
Qed.

(** What a record's documents carry: the position among them and their
    number. *)
Lemma record_documents_metadata rec_idx rec docs i d :
  record_documents split_text rec_idx rec = Ok docs →
  docs !! i = Some d →
  metadata d = chunk_metadata (build_metadata rec rec_idx) i (length docs).
Proof.
  unfold record_documents.
  destruct (build_base_text rec) as [text|]; [|done].
  destruct (_ <=? _)%nat; intros [= <-].
  - destruct i as [|i]; [|done]. by intros [= <-].
  - rewrite list_lookup_imap, length_imap.
    destruct (_ !! i); [|done]. by intros [= <-].
Qed.

Lemma build_documents_from_origin rec_idx recs d :
  d ∈ (build_documents_from split_text rec_idx recs).1 →
  ∃ k rec docs i,
    recs !! k = Some rec
    ∧ record_documents split_text (rec_idx + k) rec = Ok docs
    ∧ docs !! i = Some d.
Proof.
  revert rec_idx. induction recs as [|rec recs IH]; intros rec_idx.
  - intros Hin. by apply elem_of_nil in Hin.
  - cbn [build_documents_from].
    destruct (record_documents split_text rec_idx rec) as [docs|e] eqn:Hdocs.
    2:{ intros Hin. by apply elem_of_nil in Hin. }
    specialize (IH (S rec_idx)).
    destruct (build_documents_from split_text (S rec_idx) recs) as [more r].
    cbn [fst] in *. intros [Hin|Hin]%elem_of_app.
    + apply list_elem_of_lookup in Hin as [i Hi].
      exists 0%nat, rec, docs, i. by rewrite Nat.add_0_r.
    + destruct (IH Hin) as (k & rec' & docs' & i & Hk & Hd & Hi).
      exists (S k), rec', docs', i. split; [done|]. split; [|done].
      by rewrite Nat.add_succ_r.
Qed.

(** What is stored is among what was generated. *)
Lemma build_vectorstore_subseteq jsonl d :
  d ∈ (build_vectorstore split_text jsonl).1 →
  d ∈ (build_documents split_text jsonl).1.
Proof.
  unfold build_vectorstore.
  destruct (build_documents split_text jsonl) as [docs r]. cbn [fst].
  pose proof (add_batches_all docs [] []) as Hall.
  destruct (add_batches docs [] []) as [batch store]. cbn [fst snd] in Hall.
  cbn [app] in Hall. rewrite <- Hall.
  destruct r as [[]|e]; cbn [fst].
  - destruct batch; [by rewrite app_nil_r|done].
  - intros Hin. apply elem_of_app. by left.
Qed.

(** X10. Every document that is generated, and so every document that
    is stored, comes from a record of the file: its [record_index] is the
    position of the record counted from 1, its [speechID], [speaker] and
    [date] are those of the record, and its [chunk_index] is below its
    [chunk_count]. *)
Theorem X10_every_document_comes_from_a_record jsonl d :
  d ∈ (build_documents split_text jsonl).1
  ∨ d ∈ (build_vectorstore split_text jsonl).1 →
  ∃ k rec i n,
    jsonl !! k = Some rec
    ∧ metadata d !! "record_index" = Some (VInt (Z.of_nat (k + 1)))
    ∧ metadata d !! "speechID" = Some (of_json (get rec "speechID"))
    ∧ metadata d !! "speaker" = Some (of_json (get rec "speaker"))
    ∧ metadata d !! "date" = Some (of_json (get rec "date"))
    ∧ metadata d !! "chunk_index" = Some (VInt (Z.of_nat i))
    ∧ metadata d !! "chunk_count" = Some (VInt (Z.of_nat n))
    ∧ (i < n)%nat.
Proof.
  intros Hin.
  assert (d ∈ (build_documents split_text jsonl).1) as Hd.
  { destruct Hin as [|Hin]; [done|]. by apply build_vectorstore_subseteq. }
  apply build_documents_from_origin in Hd as (k & rec & docs & i & Hk & Hdocs & Hi).
  exists k, rec, i, (length docs). split; [done|].
  rewrite (record_documents_metadata _ _ _ _ _ Hdocs Hi).
  rewrite chunk_metadata_index, chunk_metadata_count.
  rewrite !chunk_metadata_other by discriminate.
  unfold build_metadata. cbn [list_to_map foldr fst snd].
  replace (1 + k)%nat with (k + 1)%nat by lia.
  repeat split; try done.
  by apply lookup_lt_Some in Hi.
Qed.

(** X11. Every document carries the same twelve metadata keys and no
    other; the nine that are copied from the record hold what the record
    holds, [None] where it holds nothing. *)
Theorem X11_every_document_has_the_same_twelve_keys jsonl d :
  d ∈ (build_documents split_text jsonl).1
  ∨ d ∈ (build_vectorstore split_text jsonl).1 →
  dom (metadata d)
  = list_to_set
      [ "speechID"; "issueID"; "date"; "nameOfHouse"; "nameOfMeeting";
        "speaker"; "speakerGroup"; "speechURL"; "meetingURL"; "record_index";
        "chunk_index"; "chunk_count" ]
  ∧ ∃ k rec,
      jsonl !! k = Some rec
      ∧ ∀ key, key ∈ [ "speechID"; "issueID"; "date"; "nameOfHouse";
                        "nameOfMeeting"; "speaker"; "speakerGroup";
                        "speechURL"; "meetingURL" ] →
               metadata d !! key = Some (of_json (get rec key)).
Proof.
  intros Hin.
  assert (d ∈ (build_documents split_text jsonl).1) as Hd.
  { destruct Hin as [|Hin]; [done|]. by apply build_vectorstore_subseteq. }
  apply build_documents_from_origin in Hd as (k & rec & docs & i & Hk & Hdocs & Hi).
  rewrite (record_documents_metadata _ _ _ _ _ Hdocs Hi).
  split.
  - unfold chunk_metadata, build_metadata. cbn [list_to_map foldr fst snd].
    rewrite !dom_insert_L, dom_empty_L. cbn [list_to_set]. set_solver.
  - exists k, rec. split; [done|]. intros key Hkey.
    rewrite chunk_metadata_other
      by (intros ->; repeat (apply elem_of_cons in Hkey as [?|Hkey]; [done|]);
          by apply elem_of_nil in Hkey).
    unfold build_metadata. cbn [list_to_map foldr fst snd].
    repeat (apply elem_of_cons in Hkey as [->|Hkey]; [done|]).
    by apply elem_of_nil in Hkey.
Qed.

Lemma build_documents_from_raises rec_idx rec rest :
  get_or rec "speech" (JStr "") = JNull →
  build_documents_from split_text rec_idx (rec :: rest) = ([], Raise TypeError).
Proof.
  intros Hs. cbn [build_documents_from].
  unfold record_documents, build_base_text. by rewrite Hs.
Qed.

(** X12. A record whose speech is [null] stops the build with a
    [TypeError]: the documents of the records before it have been
    generated, and of these the store holds the batches of 200 that were
    full, not the rest. *)
Theorem X12_a_record_without_speech_text_aborts_the_build good bad rest :
  (build_documents split_text good).2 = Ok tt →
  bad !! "speech" = Some JNull →
  let docs := (build_documents split_text good).1 in
  build_documents split_text (good ++ bad :: rest) = (docs, Raise TypeError)
  ∧ build_vectorstore split_text (good ++ bad :: rest)
    = (take (200 * (length docs / 200)) docs, Raise TypeError).
Proof.
  intros Hgood Hbad docs.
  assert (build_documents split_text (good ++ bad :: rest)
          = (docs, Raise TypeError)) as Hdocs.
  { unfold build_documents, iter_speech_records in *.
    rewrite build_documents_from_app. subst docs.
    destruct (build_documents_from split_text 1 good) as [ds r].
    cbn [fst snd] in *. subst r.
    rewrite build_documents_from_raises by (unfold get_or; by rewrite Hbad).
    cbn [fst snd]. by rewrite app_nil_r. }
  split; [done|].
  unfold build_vectorstore. rewrite Hdocs.
  rewrite (add_batches_spec docs [] []) by (cbn; unfold BATCH_SIZE; lia).
  done.
Qed.

(** X13. The documents are added by calls of [add_documents] that take
    between 1 and 200 documents each, exactly 200 in all but the last.
    Together the calls add what the store ends up with; when the
    generation completes that is every generated document, in
    [ceil(n / 200)] calls. *)
Theorem X13_documents_are_added_in_batches_of_200 jsonl :
  let calls := add_documents_calls split_text jsonl in
  concat calls = (build_vectorstore split_text jsonl).1
  ∧ Forall (λ c, (0 < length c ≤ 200)%nat) calls
  ∧ (∀ i c, calls !! i = Some c → (S i < length calls)%nat → length c = 200%nat)
  ∧ ((build_documents split_text jsonl).2 = Ok tt →
       concat calls = (build_documents split_text jsonl).1
       ∧ length calls
         = ((length (build_documents split_text jsonl).1 + 199) / 200)%nat).
Proof.
  intros calls. subst calls. unfold add_documents_calls, build_vectorstore.
  destruct (build_documents split_text jsonl) as [docs r]. cbn [fst snd].
  rewrite add_batches_calls.
  destruct (batch_calls_spec docs []) as (Hall & Hcalls & Hpending);
    [unfold BATCH_SIZE; cbn; lia|].
  destruct (batch_calls docs []) as [calls pending]. cbn [fst snd app] in *.
  unfold BATCH_SIZE in *.
  assert (Forall (λ c : list Document, (0 < length c ≤ 200)%nat) calls) as Hb.
  { eapply Forall_impl; [exact Hcalls|]. cbn. lia. }
  assert (length (concat calls) = 200 * length calls)%nat as Hlen.
  { clear -Hcalls. induction Hcalls as [|c cs Hc _ IH]; [done|].
    cbn [concat length]. rewrite length_app. lia. }
  destruct r as [[]|e].
  - destruct pending as [|p pending].
    + rewrite app_nil_r in Hall. subst docs.
      split; [done|]. split; [done|]. split.
      { intros i c Hi _. rewrite Forall_forall in Hcalls. apply Hcalls.
        by eapply list_elem_of_lookup_2. }
      intros _. split; [done|]. rewrite Hlen.
      replace (200 * length calls + 199)%nat
        with (199 + length calls * 200)%nat by lia.
      rewrite Nat.div_add by done. done.
    + split; [by rewrite concat_app; cbn; rewrite app_nil_r|].
      split.
      { apply Forall_app. split; [done|]. constructor; [|done].
        cbn [length] in *. lia. }
      split.
      { intros i c Hi Hlt. rewrite length_app in Hlt. cbn [length] in Hlt.
        rewrite lookup_app_l in Hi by lia.
        rewrite Forall_forall in Hcalls. apply Hcalls.
        by eapply list_elem_of_lookup_2. }
      intros _. rewrite concat_app. cbn [concat]. rewrite app_nil_r.
      split; [done|]. rewrite <- Hall, !length_app, Hlen. cbn [length] in *.
      replace (200 * length calls + S (length pending) + 199)%nat
        with (S (length pending) + 199 + length calls * 200)%nat by lia.
      rewrite Nat.div_add by done.
      assert ((S (length pending) + 199) / 200 = 1)%nat as ->; [|lia].
      symmetry. apply Nat.div_unique with (r := length pending); lia.
  - split; [done|]. split; [done|]. split; [|done].
    intros i c Hi _. rewrite Forall_forall in Hcalls. apply Hcalls.
    by eapply list_elem_of_lookup_2.
Qed.

End build.

(** ** More on the swap, and the build script as a whole *)

Section promotion.
Import py update_vectorstore.

(** X14. The swap returns normally only when the working path is a
    directory and the active path is not a plain file.  When the active
    path is a plain file it raises [NotADirectoryError] before it has
    changed anything; when the working path is a plain file it raises
    [NotADirectoryError] after it has emptied the active directory. *)
Theorem X14_what_the_swap_needs d :
  ((swap_active_db d).2 = Ok tt →
     (∃ tino titems, temp_dir d = IsDir tino titems)
     ∧ ∀ x, active_dir d ≠ IsFile x)
  ∧ (∀ x, active_dir d = IsFile x →
          swap_active_db d = (d, Raise NotADirectoryError))
  ∧ (∀ x, temp_dir d = IsFile x → (∀ y, active_dir d ≠ IsFile y) →
          ∃ ino next,
            swap_active_db d
            = (mkDisk (IsFile x) (IsDir ino ∅) next, Raise NotADirectoryError)).
Proof.
  split; [|split].
  - intros Hok.
    destruct (active_dir d) as [|x|ino items] eqn:Ha;
      destruct (temp_dir d) as [|y|tino titems] eqn:Ht;
      unfold swap_active_db in Hok; rewrite ?Ha, ?Ht in Hok; try done;
      (split; [by eexists _, _|done]).
  - intros x Ha. unfold swap_active_db. by rewrite Ha.
  - intros x Ht Ha. unfold swap_active_db. rewrite Ht.
    destruct (active_dir d) as [|y|ino items]; cbn.
    + by eexists _, _.
    + by destruct (Ha y).
    + rewrite clear_items_empty. by eexists _, _.
Qed.

(** A swap that finds no working directory has emptied the active one. *)
Lemma swap_active_db_no_temp d :
  temp_dir d = Absent →
  (∀ x, active_dir d ≠ IsFile x) →
  swap_active_db d
  = (mkDisk Absent
            (IsDir match active_dir d with
                   | IsDir ino _ => ino
                   | _ => next_ino d
                   end ∅)
            match active_dir d with
            | IsDir _ _ => next_ino d
            | _ => Pos.succ (next_ino d)
            end,
     Raise FileNotFoundError).
Proof.
  intros Ht Ha. unfold swap_active_db. rewrite Ht.
  destruct (active_dir d) as [|x|ino items]; cbn.
  - done.
  - by destruct (Ha x).
  - by rewrite clear_items_empty.
Qed.

(** X15. A swap that finds no working directory raises
    [FileNotFoundError] only after it has emptied the active directory. *)
Theorem X15_a_swap_without_working_directory_empties_the_index d ino items :
  temp_dir d = Absent →
  active_dir d = IsDir ino items →
  swap_active_db d
  = (mkDisk Absent (IsDir ino ∅) (next_ino d), Raise FileNotFoundError).
Proof.
  intros Ht Ha. rewrite (swap_active_db_no_temp d Ht) by (rewrite Ha; done).
  by rewrite Ha.
Qed.

(** X16. A second swap after a successful one empties the active
    directory and raises [FileNotFoundError]. *)
Theorem X16_a_second_swap_empties_the_index d d1 :
  swap_active_db d = (d1, Ok tt) →
  ∃ ino titems,
    active_dir d1 = IsDir ino titems
    ∧ swap_active_db d1
      = (mkDisk Absent (IsDir ino ∅) (next_ino d1), Raise FileNotFoundError).
Proof.
  intros Hswap.
  assert (is_ok (swap_active_db d).2 = true) as Hok by (by rewrite Hswap).
  destruct (temp_dir d) as [|y|tino titems] eqn:Ht;
    [unfold swap_active_db in Hok; rewrite Ht in Hok;
     destruct (active_dir d); done..|].
  assert (∀ x, active_dir d ≠ IsFile x) as Ha.
  { intros x Hx. unfold swap_active_db in Hok. by rewrite Hx in Hok. }
  rewrite (swap_active_db_succeeds d tino titems Ht Ha) in Hswap.
  injection Hswap as <-. eexists _, titems. split; [done|].
  rewrite swap_active_db_no_temp; done.
Qed.

Variable split_text : Splitter → string → list string.
Variable persist : list Document → gmap string entry.

Lemma build_vectorstore_result jsonl :
  (build_vectorstore split_text jsonl).2 = (build_documents split_text jsonl).2.
Proof.
  unfold build_vectorstore.
  destruct (build_documents split_text jsonl) as [docs [[]|e]];
    by destruct (add_batches docs [] []).
Qed.

(** The build script in its four cases. *)
Lemma main_cases w :
  (data_path w = None ∧ main split_text persist w = (w, Raise FileNotFoundError))
  ∨ (∃ jsonl x,
       data_path w = Some jsonl ∧ temp_dir (disk w) = IsFile x
       ∧ main split_text persist w = (w, Raise NotADirectoryError))
  ∨ (∃ jsonl e,
       data_path w = Some jsonl ∧ (∀ x, temp_dir (disk w) ≠ IsFile x)
       ∧ (build_documents split_text jsonl).2 = Raise e
       ∧ main split_text persist w
         = (mkWorld (Some jsonl)
              (mkDisk (IsDir (next_ino (disk w))
                             (persist (build_vectorstore split_text jsonl).1))
                      (active_dir (disk w)) (Pos.succ (next_ino (disk w)))),
            Raise e))
  ∨ (∃ jsonl,
       data_path w = Some jsonl ∧ (∀ x, temp_dir (disk w) ≠ IsFile x)
       ∧ (build_documents split_text jsonl).2 = Ok tt
       ∧ main split_text persist w
         = let '(d, r) :=
             swap_active_db
               (mkDisk (IsDir (next_ino (disk w))
                              (persist (build_documents split_text jsonl).1))
                       (active_dir (disk w)) (Pos.succ (next_ino (disk w)))) in
           (mkWorld (Some jsonl) d, r)).
Proof.
  unfold main. destruct (data_path w) as [jsonl|] eqn:Hdata; [|by left].
  right. unfold build_vectorstore_in_temp.
  destruct (temp_dir (disk w)) as [|x|tino titems] eqn:Ht.
  2:{ left. exists jsonl, x. destruct w. cbn in *. by subst. }
  all: right;
    pose proof (build_vectorstore_result jsonl) as Hres;
    pose proof (build_vectorstore_complete split_text jsonl) as Hdone;
    destruct (build_vectorstore split_text jsonl) as [store r] eqn:Hbv;
    cbn [fst snd] in *; symmetry in Hres;
    destruct r as [[]|e].
  all: try (left; exists jsonl, e; rewrite Hbv; split; [done|]; split; [done|];
            split; [exact Hres|]; done).
  all: right; exists jsonl; split; [done|]; split; [done|];
    split; [exact Hres|];
    specialize (Hdone Hres); injection Hdone as ->; done.
Qed.

(** X17. The build script never changes the record file, and it either
    returns normally or leaves the active directory as it was.  It returns
    normally only if the record file exists, every record can be
    formatted, and neither index path is a plain file. *)
Theorem X17_the_build_script_is_all_or_nothing w :
  data_path (main split_text persist w).1 = data_path w
  ∧ ((main split_text persist w).2 = Ok tt
     ∨ active_dir (disk (main split_text persist w).1) = active_dir (disk w))
  ∧ ((main split_text persist w).2 = Ok tt
     → ∃ jsonl,
         data_path w = Some jsonl
         ∧ (build_documents split_text jsonl).2 = Ok tt
         ∧ (∀ x, temp_dir (disk w) ≠ IsFile x)
         ∧ (∀ x, active_dir (disk w) ≠ IsFile x)).
Proof.
  destruct (main_cases w)
    as [[Hd ->]|[(jsonl & x & Hd & Ht & ->)|[(jsonl & e & Hd & Ht & Hb & ->)
       |(jsonl & Hd & Ht & Hb & ->)]]]; cbn [fst snd data_path disk active_dir].
  - split; [done|]. split; [by right|done].
  - split; [done|]. split; [by right|done].
  - split; [done|]. split; [by right|done].
  - set (d := mkDisk _ _ _).
    destruct (active_dir (disk w)) as [|x|ino items] eqn:Ha.
    2:{ assert (swap_active_db d = (d, Raise NotADirectoryError)) as ->.
        { unfold swap_active_db, d. by cbn. }
        cbn. split; [done|]. split; [by right|done]. }
    all: rewrite (swap_active_db_succeeds d _ _ eq_refl) by done;
      cbn; split; [done|]; split; [by left|];
      intros _; exists jsonl; by repeat split.
Qed.

(** X18. When the build script returns, the store holds every generated
    document, the active directory holds what Chroma keeps for them, under
    the inode it had before if it existed, and the working directory is
    gone. *)
Theorem X18_a_completed_build_script_serves_every_document w w' :
  main split_text persist w = (w', Ok tt) →
  ∃ jsonl ino,
    data_path w = Some jsonl
    ∧ (build_vectorstore split_text jsonl).1 = (build_documents split_text jsonl).1
    ∧ temp_dir (disk w') = Absent
    ∧ active_dir (disk w')
      = IsDir ino (persist (build_documents split_text jsonl).1)
    ∧ (∀ ino0 items0, active_dir (disk w) = IsDir ino0 items0 → ino = ino0).
Proof.
  destruct (main_cases w)
    as [[Hd ->]|[(jsonl & x & Hd & Ht & ->)|[(jsonl & e & Hd & Ht & Hb & ->)
       |(jsonl & Hd & Ht & Hb & ->)]]]; [done..|].
  set (d := mkDisk _ _ _).
  assert ((build_vectorstore split_text jsonl).1
          = (build_documents split_text jsonl).1) as Hall.
  { by rewrite (build_vectorstore_complete split_text jsonl Hb). }
  destruct (active_dir (disk w)) as [|x|ino items] eqn:Ha.
  2:{ assert (swap_active_db d = (d, Raise NotADirectoryError)) as ->.
      { unfold swap_active_db, d. by cbn. }
      done. }
  all: rewrite (swap_active_db_succeeds d _ _ eq_refl) by done;
    cbn; intros [= <-]; eexists jsonl, _; repeat split; try done;
    intros ino0 items0 Heq; by simplify_eq.
Qed.

End promotion.

(** ** The context text *)

Section context_text.
Import py utils.

Lemma format_docs_cons d ds :
  ds ≠ [] →
  format_docs (d :: ds) = page_content d +:+ (nl +:+ nl) +:+ format_docs ds.
Proof. unfold format_docs. by destruct ds. Qed.

Lemma append_assoc (a b c : string) : (a +:+ b) +:+ c = a +:+ (b +:+ c).
Proof.
  induction a as [|x a IH]; [done|].
  change (String x ((a +:+ b) +:+ c) = String x (a +:+ (b +:+ c))).
  by rewrite IH.
Qed.

(** X19. The context text joins the texts of the documents with an
    empty line between them: for two lists that are not empty it is the
    text of the first, the separator and the text of the second, two
    characters longer than both together; for no document it is empty. *)
Theorem X19_the_context_text_joins_the_documents docs1 docs2 :
  docs1 ≠ [] → docs2 ≠ [] →
  format_docs (docs1 ++ docs2)
  = format_docs docs1 +:+ (nl +:+ nl) +:+ format_docs docs2
  ∧ len (format_docs (docs1 ++ docs2))
    = (len (format_docs docs1) + 2 + len (format_docs docs2))%nat
  ∧ format_docs [] = "".
Proof.
  intros H1 H2.
  assert (format_docs (docs1 ++ docs2)
          = format_docs docs1 +:+ (nl +:+ nl) +:+ format_docs docs2) as Hcat.
  { induction docs1 as [|d docs1 IH]; [done|].
    destruct docs1 as [|d' docs1].
    - cbn [app]. by rewrite format_docs_cons.
    - change ((d :: d' :: docs1) ++ docs2) with (d :: (d' :: docs1) ++ docs2).
      rewrite format_docs_cons by done. rewrite IH by done.
      rewrite (format_docs_cons d (d' :: docs1)) by done.
      by rewrite !append_assoc. }
  split; [done|]. split; [|done].
  rewrite Hcat, !len_app. change (len nl) with 1%nat. lia.
Qed.

End context_text.

(** ** Session memory *)

Section memory.
Import py update_vectorstore rag_engine.

Variable retrieve :
  list Document → Z → gmap string value → string → result (list Document).
Variable llm : Chain → string → list Message → string → result string.

(** Every call in full: what it asked of the search and of the model, and
    what it left in the session store. *)
Lemma answer_question_cases question top_k session_id eng :
  let r := answer_question retrieve llm question top_k session_id eng in
  let history := default [] (_history_store eng !! session_id) in
  let flt : gmap string value := {[ "speaker" := VStr DEFAULT_SPEAKER ]} in
  ((_vectordb eng = None ∨ _chain eng = None) ∧ r = (eng, Raise RuntimeError))
  ∨ ∃ db chain,
      _vectordb eng = Some db ∧ _chain eng = Some chain
      ∧ ((∃ e, retrieve db top_k flt question = Raise e ∧ r = (eng, Raise e))
         ∨ ∃ docs,
             retrieve db top_k flt question = Ok docs
             ∧ ((∃ e, llm chain (utils.format_docs docs) history question = Raise e
                      ∧ r = (mkEngine (Some db) (Some chain)
                               (<[session_id := history]> (_history_store eng)),
                             Raise e))
                ∨ ∃ response,
                    llm chain (utils.format_docs docs) history question
                    = Ok response
                    ∧ r = (mkEngine (Some db) (Some chain)
                             (<[session_id :=
                                  history ++ [HumanMessage question;
                                              AIMessage response]]>
                                (_history_store eng)),
                           Ok (mkAnswer response (to_entry <$> docs))))).
Proof.
  cbn zeta. unfold answer_question.
  destruct (_vectordb eng) as [db|] eqn:Hdb; [|left; auto].
  destruct (_chain eng) as [chain|] eqn:Hch; [|left; auto].
  right. exists db, chain. split; [done|]. split; [done|].
  destruct (retrieve db top_k _ question) as [docs|e] eqn:Hr;
    [|left; by exists e].
  right. exists docs. split; [done|].
  unfold chain_invoke, get_session_history.
  destruct (_history_store eng !! session_id) as [h|] eqn:Hs; cbn [default].
  - destruct (llm chain _ h question) as [response|e] eqn:Hllm.
    + right. exists response. split; [done|]. done.
    + left. exists e. split; [done|]. by rewrite insert_id.
  - cbn [from_option id].
    destruct (llm chain _ [] question) as [response|e] eqn:Hllm.
    + right. exists response. split; [done|]. by rewrite insert_insert_eq.
    + left. exists e. split; done.
Qed.

(** A call that returns has searched, has consulted the model with the
    history of its session, and has recorded the turn. *)
Lemma answer_question_ok question top_k session_id eng eng' res :
  answer_question retrieve llm question top_k session_id eng = (eng', Ok res) →
  let history := default [] (_history_store eng !! session_id) in
  ∃ db chain docs,
    _vectordb eng = Some db ∧ _chain eng = Some chain
    ∧ retrieve db top_k {[ "speaker" := VStr DEFAULT_SPEAKER ]} question
      = Ok docs
    ∧ llm chain (utils.format_docs docs) history question = Ok (answer res)
    ∧ eng' = mkEngine (Some db) (Some chain)
               (<[session_id :=
                    history ++ [HumanMessage question; AIMessage (answer res)]]>
                  (_history_store eng)).
Proof.
  intros Hans history.
  pose proof (answer_question_cases question top_k session_id eng) as Hc.
  cbn zeta in Hc. rewrite Hans in Hc.
  destruct Hc as [[_ ?]|(db & chain & Hdb & Hch & [(e & _ & ?)|(docs & Hr & Hc)])];
    [done..|].
  destruct Hc as [(e & _ & ?)|(response & Hllm & Heq)]; [done|].
  injection Heq as -> ->. by exists db, chain, docs.
Qed.

(** X20. A call that returns appends the question and the answer, in
    this order, to the history of its session, and leaves every other
    session, the collection and the chain as they were; the model had been
    given the context text of the hits and the earlier turns of the
    session. *)
Theorem X20_an_answer_extends_the_history_of_its_session_only
        question top_k session_id eng eng' res :
  answer_question retrieve llm question top_k session_id eng = (eng', Ok res) →
  let history := default [] (_history_store eng !! session_id) in
  _vectordb eng' = _vectordb eng
  ∧ _chain eng' = _chain eng
  ∧ _history_store eng' !! session_id
    = Some (history ++ [HumanMessage question; AIMessage (answer res)])
  ∧ (∀ other, other ≠ session_id →
       _history_store eng' !! other = _history_store eng !! other)
  ∧ ∃ db chain docs,
      _vectordb eng = Some db ∧ _chain eng = Some chain
      ∧ retrieve db top_k {[ "speaker" := VStr DEFAULT_SPEAKER ]} question
        = Ok docs
      ∧ llm chain (utils.format_docs docs) history question = Ok (answer res).
Proof.
  intros Hans history.
  destruct (answer_question_ok _ _ _ _ _ _ Hans)
    as (db & chain & docs & Hdb & Hch & Hr & Hllm & ->).
  cbn. split; [done|]. split; [done|]. split; [by rewrite lookup_insert_eq|].
  split; [by intros other Ho; rewrite lookup_insert_ne|].
  by exists db, chain, docs.
Qed.

(** What any call leaves of the engine. *)
Lemma answer_question_frame question top_k session_id eng :
  let eng' := (answer_question retrieve llm question top_k session_id eng).1 in
  _vectordb eng' = _vectordb eng
  ∧ _chain eng' = _chain eng
  ∧ ∀ other, other ≠ session_id →
      _history_store eng' !! other = _history_store eng !! other.
Proof.
  pose proof (answer_question_cases question top_k session_id eng) as Hc.
  cbn zeta in *.
  destruct Hc as [[_ ->]|(db & chain & Hdb & Hch & [(e & _ & ->)|(docs & Hr & Hc)])];
    [done..|].
  destruct Hc as [(e & _ & ->)|(response & Hllm & ->)]; cbn;
    (split; [done|]); (split; [done|]);
    intros other Ho; by rewrite lookup_insert_ne.
Qed.

(** The outcome of a call depends on the engine through the collection,
    the chain and the history of the session only. *)
Lemma answer_question_result_ext question top_k session_id eng1 eng2 :
  _vectordb eng1 = _vectordb eng2 →
  _chain eng1 = _chain eng2 →
  _history_store eng1 !! session_id = _history_store eng2 !! session_id →
  (answer_question retrieve llm question top_k session_id eng1).2
  = (answer_question retrieve llm question top_k session_id eng2).2.
Proof.
  intros Hdb Hch Hs. unfold answer_question. rewrite Hdb, Hch.
  destruct (_vectordb eng2) as [db|]; [|done].
  destruct (_chain eng2) as [chain|]; [|done].
  destruct (retrieve db top_k _ question) as [docs|e]; [|done].
  unfold chain_invoke, get_session_history. rewrite Hs.
  destruct (_history_store eng2 !! session_id) as [h|];
    by destruct (llm chain _ _ question).
Qed.

(** X21. A call in one session changes neither the outcome of a later
    call in another session nor the history of that session, whether the
    first call returns or raises. *)
Theorem X21_sessions_do_not_see_each_other
        question1 top_k1 session1 question2 top_k2 session2 eng :
  session1 ≠ session2 →
  let eng1 := (answer_question retrieve llm question1 top_k1 session1 eng).1 in
  (answer_question retrieve llm question2 top_k2 session2 eng1).2
  = (answer_question retrieve llm question2 top_k2 session2 eng).2
  ∧ _history_store eng1 !! session2 = _history_store eng !! session2.
Proof.
  intros Hne eng1.
  destruct (answer_question_frame question1 top_k1 session1 eng)
    as (Hdb & Hch & Hs).
  split; [|by apply Hs].
  apply answer_question_result_ext; [done..|]. by apply Hs.
Qed.

(** X22. A call that raises records no turn in any session; when the
    engine was not initialised the error is [RuntimeError], and then, as
    whenever the session existed before, the engine is exactly as it
    was. *)
Theorem X22_a_failed_call_records_no_turn
        question top_k session_id eng eng' e :
  answer_question retrieve llm question top_k session_id eng = (eng', Raise e) →
  _vectordb eng' = _vectordb eng
  ∧ _chain eng' = _chain eng
  ∧ (∀ s, default [] (_history_store eng' !! s)
          = default [] (_history_store eng !! s))
  ∧ (_vectordb eng = None ∨ _chain eng = None → e = RuntimeError ∧ eng' = eng)
  ∧ (is_Some (_history_store eng !! session_id) → eng' = eng).
Proof.
  intros Hans.
  pose proof (answer_question_cases question top_k session_id eng) as Hc.
  cbn zeta in Hc. rewrite Hans in Hc.
  destruct Hc as [[Hnone Heq]|(db & chain & Hdb & Hch & Hc)].
  { injection Heq as -> ->. repeat split; done. }
  assert (¬ (_vectordb eng = None ∨ _chain eng = None)) as Hinit.
  { intros [?|?]; congruence. }
  destruct Hc as [(e' & _ & Heq)|(docs & Hr & [(e' & _ & Heq)|(? & _ & ?)])];
    [| |done].
  { injection Heq as -> ->. repeat split; done. }
  injection Heq as -> ->. cbn. split; [done|]. split; [done|]. split; [|split].
  - intros s. destruct (decide (s = session_id)) as [->|Hs].
    + by rewrite lookup_insert_eq.
    + by rewrite lookup_insert_ne.
  - done.
  - intros [h Hh]. rewrite Hh. cbn. rewrite insert_id by done.
    destruct eng; cbn in *; by subst.
Qed.

End memory.

(** ** Requests to the HTTP front end *)

Section front_ends.
Import py update_vectorstore rag_engine.

Lemma to_ContextDocs_no_source es :
  Forall (λ e, source e = VNone) es →
  app.to_ContextDocs es = Ok ((λ e, app.mkContextDoc (content e) None) <$> es).
Proof.
  induction 1 as [|e es He _ IH]; [done|].
  cbn [app.to_ContextDocs]. rewrite IH. unfold app.to_ContextDoc. by rewrite He.
Qed.

Variable answer_question :
  string → Z → string → Engine → Engine * result Answer.

(** X23. [POST /ask] either turns the request down with a validation
    error, without calling the engine or changing it (no question, or a
    count outside 1..50), or runs the handler with the question, a count
    between 1 and 50 (10 when none is given) and the session (["default"]
    when none is given). *)
Theorem X23_the_engine_is_called_within_the_limits_only b eng :
  ((app.body_question b = None
    ∨ ∃ k, app.body_top_k b = Some k ∧ ¬ (1 ≤ k ≤ 50)%Z)
   ∧ app.post_ask answer_question b eng = (eng, Raise ValidationError))
  ∨ ∃ q,
      app.body_question b = Some q
      ∧ (1 ≤ default 10%Z (app.body_top_k b) ≤ 50)%Z
      ∧ app.post_ask answer_question b eng
        = app.ask answer_question
            (app.mkAskRequest q (default 10%Z (app.body_top_k b))
                              (default "default" (app.body_session_id b)))
            eng.
Proof.
  unfold app.post_ask, app.validate.
  destruct (app.body_question b) as [q|]; [|left; auto].
  destruct (app.body_top_k b) as [k|]; cbn [default from_option id].
  - destruct ((1 <=? k)%Z && (k <=? 50)%Z) eqn:Hk.
    + right. exists q. split; [done|]. split; [lia|done].
    + left. split; [|done]. right. exists k. split; [done|lia].
  - right. exists q. split; [done|]. split; [lia|done].
Qed.

End front_ends.

Section served_index.
Import py update_vectorstore rag_engine.

Variable retrieve :
  list Document → Z → gmap string value → string → result (list Document).
Variable llm : Chain → string → list Message → string → result string.
Variable split_text : Splitter → string → list string.


End served_index.

(** ** The chat page *)

Section chat_page.
Import py update_vectorstore rag_engine.

Variable retrieve :
  list Document → Z → gmap string value → string → result (list Document).
Variable llm : Chain → string → list Message → string → result string.

Lemma chat_fn_returns message history top_k eng eng' obj t t' :
  ui_gradio.chat_fn (answer_question retrieve llm) message history top_k eng
  = (eng', obj, Ok (t, t')) →
  ∃ res,
    answer_question retrieve llm message top_k "default" eng = (eng', Ok res)
    ∧ t = default [] history
          ++ [ui_gradio.mkChatMessage "user" message;
              ui_gradio.mkChatMessage "assistant" (answer res)]
    ∧ t' = t.
Proof.
  unfold ui_gradio.chat_fn.
  destruct (answer_question retrieve llm message top_k "default" eng)
    as [eng1 [res|e]]; [|done].
  intros [= <- _ <- <-]. exists res. by rewrite <- app_assoc.
Qed.

(** X25. Submissions on the chat page that all return: when the
    transcript shows the memory of the session ["default"] before them, it
    does so after them; it has grown at its end, by two entries for every
    submission. *)
Theorem X25_the_transcript_mirrors_the_session_memory
        turns state eng eng' state' :
  ui_gradio.chat_turns (answer_question retrieve llm) turns state eng
  = (eng', Ok state') →
  state = ui_gradio.shown <$> default [] (_history_store eng !! "default") →
  state' = ui_gradio.shown <$> default [] (_history_store eng' !! "default")
  ∧ length state' = (length state + 2 * length turns)%nat
  ∧ ∃ more, state' = state ++ more.
Proof.
  revert state eng. induction turns as [|[message top_k] turns IH];
    intros state eng.
  - cbn. intros [= <- <-] Hst. split; [done|]. split; [lia|].
    exists []. by rewrite app_nil_r.
  - cbn [ui_gradio.chat_turns].
    destruct (ui_gradio.chat_fn _ message (Some state) top_k eng)
      as [[eng1 obj] [[t t']|e]] eqn:Hchat; [|done].
    apply chat_fn_returns in Hchat as (res & Hans & -> & ->).
    intros Hrun Hst.
    destruct (answer_question_ok retrieve llm _ _ _ _ _ _ Hans)
      as (db & chain & docs & _ & _ & _ & _ & ->).
    destruct (IH _ _ Hrun) as (Hmirror & Hlen & more & Hmore).
    { cbn [_history_store]. rewrite lookup_insert_eq.
      cbn [default from_option id]. rewrite fmap_app, <- Hst. done. }
    split; [done|]. split.
    + rewrite Hlen, length_app. cbn [length default from_option id]. lia.
    + eexists. rewrite Hmore. cbn [default from_option id].
      by rewrite <- app_assoc.
Qed.

(** X26. Clearing the transcript does not clear the memory: the first
    submission after it shows its own two entries only, yet the model is
    given the turns from before as history, and the memory of the session
    holds both exchanges. *)
Theorem X26_clearing_the_transcript_leaves_the_memory
        message1 history top_k1 eng eng1 obj1 t1 t1'
        message2 top_k2 eng2 obj2 t2 t2' :
  ui_gradio.chat_fn (answer_question retrieve llm) message1 history top_k1 eng
  = (eng1, obj1, Ok (t1, t1')) →
  ui_gradio.chat_fn (answer_question retrieve llm) message2
                    (Some ui_gradio.clear_history.2) top_k2 eng1
  = (eng2, obj2, Ok (t2, t2')) →
  let memory := default [] (_history_store eng !! "default") in
  ∃ answer1 answer2 db chain docs,
    t2 = [ui_gradio.mkChatMessage "user" message2;
          ui_gradio.mkChatMessage "assistant" answer2]
    ∧ _vectordb eng = Some db ∧ _chain eng = Some chain
    ∧ retrieve db top_k2 {[ "speaker" := VStr DEFAULT_SPEAKER ]} message2
      = Ok docs
    ∧ llm chain (utils.format_docs docs)
          (memory ++ [HumanMessage message1; AIMessage answer1]) message2
      = Ok answer2
    ∧ _history_store eng2 !! "default"
      = Some (memory ++ [HumanMessage message1; AIMessage answer1;
                         HumanMessage message2; AIMessage answer2]).
Proof.
  intros H1 H2 memory.
  apply chat_fn_returns in H1 as (res1 & Hans1 & _ & _).
  apply chat_fn_returns in H2 as (res2 & Hans2 & -> & _).
  destruct (answer_question_ok retrieve llm _ _ _ _ _ _ Hans1)
    as (db & chain & docs1 & Hdb & Hch & _ & _ & ->).
  destruct (answer_question_ok retrieve llm _ _ _ _ _ _ Hans2)
    as (db' & chain' & docs & Hdb' & Hch' & Hr & Hllm & ->).
  cbn [_vectordb _chain _history_store] in *.
  rewrite lookup_insert_eq in *. cbn [default from_option id] in Hllm.
  simplify_eq.
  exists (answer res1), (answer res2), db', chain', docs.
  split; [done|]. split; [done|]. split; [done|]. split; [done|].
  split; [done|]. rewrite lookup_insert_eq. cbn [default from_option id].
  by rewrite <- app_assoc.
Qed.

(** X27. The chat page and the requests to [POST /ask] that name no
    session share the session ["default"]: after a submission on the
    page, the model that answers such a request is given the exchange of
    the page as history. *)
Theorem X27_the_chat_page_and_the_api_share_a_session
        message history top_k eng eng1 obj t t' q k eng2 resp :
  ui_gradio.chat_fn (answer_question retrieve llm) message history top_k eng
  = (eng1, obj, Ok (t, t')) →
  app.post_ask (answer_question retrieve llm) (app.mkBody (Some q) k None) eng1
  = (eng2, Ok resp) →
  let memory := default [] (_history_store eng !! "default") in
  ∃ answer1 db chain docs,
    last t = Some (ui_gradio.mkChatMessage "assistant" answer1)
    ∧ _vectordb eng = Some db ∧ _chain eng = Some chain
    ∧ retrieve db (default 10%Z k) {[ "speaker" := VStr DEFAULT_SPEAKER ]} q
      = Ok docs
    ∧ llm chain (utils.format_docs docs)
          (memory ++ [HumanMessage message; AIMessage answer1]) q
      = Ok (app.answer resp).
Proof.
  intros H1 H2 memory.
  apply chat_fn_returns in H1 as (res1 & Hans1 & -> & _).
  destruct (answer_question_ok retrieve llm _ _ _ _ _ _ Hans1)
    as (db & chain & docs1 & Hdb & Hch & _ & _ & ->).
  unfold app.post_ask in H2.
  destruct (app.validate (app.mkBody (Some q) k None)) as [req|e] eqn:Hv;
    [|done].
  assert (req = app.mkAskRequest q (default 10%Z k) "default") as ->.
  { unfold app.validate in Hv. cbn in Hv. destruct k as [k|]; cbn in *.
    - destruct ((1 <=? k)%Z && (k <=? 50)%Z); by simplify_eq.
    - by simplify_eq. }
  unfold app.ask in H2. cbn [app.question app.top_k app.session_id] in H2.
  destruct (answer_question retrieve llm q (default 10%Z k) "default" _)
    as [eng2' [res2|e]] eqn:Hans2; [|done].
  destruct (app.to_ContextDocs (context_docs res2)) as [cds|e]; [|done].
  injection H2 as <- <-. cbn [app.answer].
  destruct (answer_question_ok retrieve llm _ _ _ _ _ _ Hans2)
    as (db' & chain' & docs & Hdb' & Hch' & Hr & Hllm & _).
  cbn [_vectordb _chain _history_store] in *.
  rewrite lookup_insert_eq in Hllm. cbn [default from_option id] in Hllm.
  simplify_eq.
  exists (answer res1), db', chain', docs.
  split; [|done].
  match goal with
  | |- last (?l ++ [?a; ?b]) = _ =>
      change (l ++ [a; b]) with (l ++ [a] ++ [b]);
      by rewrite app_assoc, last_snoc
  end.
Qed.

End chat_page.

(** ** The properties on sample data *)

Import py datetime get_diet_speeches update_vectorstore rag_engine samples.

(** Closes an equation whose two sides evaluate to the same value. *)
Ltac evaluated :=
  lazymatch goal with
  | |- _ = ?rhs => vm_cast_no_check (@eq_refl _ rhs)
  end.

Lemma delivers_service count recs rec :
  delivers (service count recs) rec → rec ∈ recs.
Proof.
  intros (p & resp & Hapi & Hin). unfold service in Hapi.
  destruct (startRecord p) as [[|[|n]]|]; simplify_eq; simpl in Hin;
    [by apply elem_of_nil in Hin..|done|by apply elem_of_nil in Hin].
Qed.

Lemma not_NoDup_twice {A} (x : A) l : ¬ NoDup (x :: x :: l).
Proof. intros [Hx _]%NoDup_cons. apply Hx. by left. Qed.

Lemma sample_runs_clean :
  clean_ids ascii_strip (first_run :: incrementals [later_run]).
Proof.
  intros r rec s Hr Hd Hid.
  repeat (apply elem_of_cons in Hr as [->|Hr]); [..|by apply elem_of_nil in Hr];
    apply delivers_service in Hd;
    repeat (apply elem_of_cons in Hd as [->|Hd]); try (by apply elem_of_nil in Hd);
    vm_compute in Hid; simplify_eq; by vm_compute.
Qed.

Lemma sample_runs_identified :
  all_identified (first_run :: incrementals [later_run]).
Proof.
  intros r rec Hr Hd.
  repeat (apply elem_of_cons in Hr as [->|Hr]); [..|by apply elem_of_nil in Hr];
    apply delivers_service in Hd;
    repeat (apply elem_of_cons in Hd as [->|Hd]); try (by apply elem_of_nil in Hd);
    vm_compute; by eexists.
Qed.

Lemma first_matching_honours_filter : honours_filter first_matching.
Proof.
  intros db k flt q docs. unfold first_matching.
  destruct (k <=? 0)%Z; [done|]. intros [= <-].
  apply Forall_forall. intros d Hd%subseteq_take%list_elem_of_filter.
  destruct Hd as [Hm Hin]. split; [done|].
  unfold matchesb in Hm. apply bool_decide_eq_true in Hm.
  intros key v Hkey. by apply (Hm key v).
Qed.

(** Three records with identifiers: fetched, then fetched again together
    with a new one. *)
Lemma C3_witness :
  runs_ok ascii_strip (first_run :: incrementals [later_run]) no_files = true
  ∧ out_file (runs ascii_strip (first_run :: incrementals [later_run]) no_files)
    = Some [rec1; rec2; rec3]
  ∧ NoDup (default [] (out_file
             (runs ascii_strip (first_run :: incrementals [later_run]) no_files))).
Proof.
  split; [evaluated|]. split; [evaluated|].
  refine (proj1 (proj2 (C3_record_file_has_no_duplicate ascii_strip
            (one_page [rec1; rec2]) INIT_FROM_DATE day1 [later_run]
            _ sample_runs_clean sample_runs_identified _))).
  - evaluated.
  - replace (ids_of _) with ["S1"; "S2"] by (symmetry; evaluated). compute_done.
Defined.

(** A record without identifier is written by the full fetch and again by
    the next incremental fetch, directly and through [auto_fetch]; so is a
    record with an identifier when the full fetch fails after writing it,
    when the service lists it twice, or when its identifier ends in a
    blank. *)
Lemma C3_counterexample :
  (runs_ok ascii_strip
     [Full (one_page [rec_no_id]) INIT_FROM_DATE day1;
      Incremental (one_page [rec_no_id]) (mkdate 2024 2 27) day2] no_files = true
   ∧ out_file (runs ascii_strip
       [Full (one_page [rec_no_id]) INIT_FROM_DATE day1;
        Incremental (one_page [rec_no_id]) (mkdate 2024 2 27) day2] no_files)
     = Some [rec_no_id; rec_no_id]
   ∧ out_file (auto_fetch ascii_strip day2 (one_page [rec_no_id])
                 (auto_fetch ascii_strip day1 (one_page [rec_no_id]) no_files).1).1
     = Some [rec_no_id; rec_no_id]
   ∧ ¬ NoDup [rec_no_id; rec_no_id])
  ∧ out_file (runs ascii_strip
       [Full (service 101 [rec1; rec2]) INIT_FROM_DATE day1;
        Incremental (one_page [rec1; rec2]) INIT_FROM_DATE day2] no_files)
    = Some [rec1; rec2; rec1; rec2]
  ∧ out_file (runs ascii_strip
       [Full (one_page [rec1; rec1]) INIT_FROM_DATE day1] no_files)
    = Some [rec1; rec1]
  ∧ out_file (runs ascii_strip
       [Full (one_page [rec_blank]) INIT_FROM_DATE day1;
        Incremental (one_page [rec_blank]) INIT_FROM_DATE day2] no_files)
    = Some [rec_blank; rec_blank].
Proof.
  repeat split; try evaluated. apply not_NoDup_twice.
Qed.

Lemma sample_all_known :
  all_known (one_page [rec1; rec2; rec3])
    (load_fetched_ids ascii_strip
       (fetch_incremental ascii_strip (one_page [rec1; rec2; rec3])
                          (mkdate 2024 3 1) day2 files1).1).
Proof.
  replace (load_fetched_ids _ _) with ({["S1"; "S2"; "S3"]} : gset string)
    by (symmetry; evaluated).
  intros rec Hd. apply delivers_service in Hd.
  repeat (apply elem_of_cons in Hd as [->|Hd]); [..|by apply elem_of_nil in Hd];
    [exists "S1"|exists "S2"|exists "S3"]; (split; [evaluated|set_solver]).
Qed.






(** A short record between two others. *)
Lemma C5_witness :
  build_base_text rec1 = Ok (text_of rec1)
  ∧ len (text_of rec1) = 54
  ∧ ∃ d, record_documents cut_once 2 rec1 = Ok [d]
         ∧ page_content d = text_of rec1
         ∧ metadata d !! "chunk_index" = Some (VInt 0)
         ∧ metadata d !! "chunk_count" = Some (VInt 1)
         ∧ (build_documents cut_once ([rec2] ++ rec1 :: [rec3])).1
           = (build_documents_from cut_once 1 [rec2]).1 ++ [d]
             ++ (build_documents_from cut_once 3 [rec3]).1.
Proof.
  split; [evaluated|]. split; [evaluated|].
  apply (C5_short_record_one_document cut_once [rec2] rec1 [rec3] (text_of rec1)).
  - evaluated.
  - apply Nat.leb_le. evaluated.
  - evaluated.
Defined.

(** A record of 1343 characters, cut in two. *)
Lemma C6_witness :
  build_base_text rec_long = Ok (text_of rec_long)
  ∧ len (text_of rec_long) = 1343
  ∧ length (cut_once splitter (text_of rec_long)) = 2
  ∧ ∃ docs, record_documents cut_once 1 rec_long = Ok docs
            ∧ length docs = length (cut_once splitter (text_of rec_long)).
Proof.
  split; [evaluated|]. split; [evaluated|]. split; [evaluated|].
  destruct (C6_long_record_one_document_per_chunk cut_once [] rec_long []
              (text_of rec_long)) as (_ & docs & Hdocs & Hlen & _).
  - evaluated.
  - apply Nat.ltb_lt. evaluated.
  - reflexivity.
  - exists docs. by split.
Defined.

(** The swap on the sample disk. *)
Lemma C2_witness :
  swap_active_db sample_disk = (mkDisk Absent (IsDir 3 fresh_items) 9, Ok tt)
  ∧ ∃ tino titems ino,
      temp_dir sample_disk = IsDir tino titems
      ∧ active_dir (mkDisk Absent (IsDir 3 fresh_items) 9) = IsDir ino titems
      ∧ temp_dir (mkDisk Absent (IsDir 3 fresh_items) 9) = Absent
      ∧ (∀ ino0 items0, active_dir sample_disk = IsDir ino0 items0 → ino = ino0).
Proof.
  assert (swap_active_db sample_disk
          = (mkDisk Absent (IsDir 3 fresh_items) 9, Ok tt)) as Hswap
    by evaluated.
  split; [exact Hswap|].
  exact (C2_swap_replaces_contents sample_disk _ Hswap).
Defined.

(** What the sample engine answers, whatever the question. *)
Lemma sample_answer question session_id :
  ∃ eng',
    answer_question first_matching (model_says "答えます。") question 10
                    session_id sample_engine
    = (eng', Ok (mkAnswer "答えます。" (to_entry <$> sample_hits))).
Proof.
  pose proof (answer_question_returns first_matching (model_says "答えます。")
                question 10 session_id sample_engine sample_db
                (mkChain DEFAULT_MODEL) sample_hits "答えます。"
                eq_refl eq_refl eq_refl eq_refl) as Hret.
  destruct (answer_question _ _ _ _ _ _) as [eng' r]. simpl in Hret. subst r.
  by exists eng'.
Qed.

(** A question to an engine over an index with two speakers. *)
Lemma C1_witness :
  honours_filter first_matching
  ∧ ∃ eng' res,
      answer_question first_matching (model_says "答えます。") "経済政策は" 10
                      "default" sample_engine = (eng', Ok res)
      ∧ length (context_docs res) = 3
      ∧ ∃ db docs,
          _vectordb sample_engine = Some db
          ∧ first_matching db 10 {[ "speaker" := VStr "高市早苗" ]} "経済政策は"
            = Ok docs
          ∧ context_docs res = to_entry <$> docs
          ∧ Forall (λ d, d ∈ db ∧ metadata d !! "speaker" = Some (VStr "高市早苗"))
                   docs.
Proof.
  split; [apply first_matching_honours_filter|].
  destruct (sample_answer "経済政策は" "default") as [eng' Hans].
  exists eng', (mkAnswer "答えます。" (to_entry <$> sample_hits)).
  split; [exact Hans|]. split; [evaluated|].
  exact (C1_context_docs_are_target_speaker first_matching (model_says "答えます。")
           "経済政策は" 10 "default" sample_engine eng' _
           first_matching_honours_filter Hans).
Defined.

Lemma C10_witness :
  ∃ eng' res,
    answer_question first_matching (model_says "答えます。") "経済政策は" 10
                    "default" sample_engine = (eng', Ok res)
    ∧ length (context_docs res) = 3
    ∧ Forall (λ e, source e = VNone) (context_docs res).
Proof.
  destruct (sample_answer "経済政策は" "default") as [eng' Hans].
  exists eng', (mkAnswer "答えます。" (to_entry <$> sample_hits)).
  split; [exact Hans|]. split; [evaluated|].
  exact (C10_builder_index_has_no_source first_matching (model_says "答えます。")
           cut_once [rec1; rec_other; rec_long] "経済政策は" 10 "default"
           sample_engine eng' _ first_matching_honours_filter eq_refl Hans).
Defined.

(** ** The further properties on sample data *)

Lemma later_service_clean rec :
  delivers (one_page [rec1; rec2; rec3]) rec →
  ∃ s, record_id rec = Some s ∧ clean ascii_strip s.
Proof.
  intros Hd%delivers_service.
  repeat (apply elem_of_cons in Hd as [->|Hd]); [..|by apply elem_of_nil in Hd];
    [exists "S1"|exists "S2"|exists "S3"]; by vm_compute.
Qed.

Lemma later_service_clean_ids rec s :
  delivers (one_page [rec1; rec2; rec3]) rec → record_id rec = Some s →
  clean ascii_strip s.
Proof.
  intros Hd Hs. destruct (later_service_clean rec Hd) as (s' & Hs' & Hc).
  congruence.
Qed.

Lemma later_fetch :
  fetch_incremental ascii_strip (one_page [rec1; rec2; rec3])
                    (mkdate 2024 3 1) day2 files1
  = (files2, Ok (Some "2024-03-05")).
Proof. evaluated. Qed.


(** A full fetch of two records over a record file that held another. *)
Lemma X2_witness :
  fetch_initial (one_page [rec1; rec2]) INIT_FROM_DATE day1
                (mkFiles (Some [rec3]) (Some (JStr "2024-03-04")) (Some ["S3"]))
  = (files1, Ok (Some "2024-03-04"))
  ∧ out_file files1
    = Some (flat_map (page_records (one_page [rec1; rec2])
                                   (isoformat INIT_FROM_DATE) (isoformat day1))
                     (seq 0 1)).
Proof.
  assert (fetch_initial (one_page [rec1; rec2]) INIT_FROM_DATE day1
            (mkFiles (Some [rec3]) (Some (JStr "2024-03-04")) (Some ["S3"]))
          = (files1, Ok (Some "2024-03-04"))) as Hrun by evaluated.
  split; [exact Hrun|].
  refine (f_equal out_file
            (proj2 (X2_full_fetch_writes_the_listing (one_page [rec1; rec2])
                      INIT_FROM_DATE day1 _ files1 (Some "2024-03-04") 2
                      _ ltac:(lia) Hrun))).
  evaluated.
Defined.

Lemma sample_ids_clean s :
  s ∈ ({["S1"]} ∪ {["S2"]} : gset string) → clean ascii_strip s.
Proof.
  intros [->%elem_of_singleton| ->%elem_of_singleton]%elem_of_union;
    by vm_compute.
Qed.

(** One identifier saved, one appended, both read back. *)
Lemma X3_witness :
  load_fetched_ids ascii_strip
    (append_fetched_ids {["S2"]} (save_fetched_ids {["S1"]} no_files))
  = {["S1"]} ∪ {["S2"]}.
Proof.
  exact (proj2 (proj2 (X3_ids_file_round_trip ascii_strip {["S1"]} {["S2"]}
                         no_files sample_ids_clean))).
Defined.

(** The incremental fetch of [later_run] adds S3 to what is loaded. *)
Lemma X4_witness :
  new_records files1 files2 = [rec3]
  ∧ load_fetched_ids ascii_strip files2
    = load_fetched_ids ascii_strip files1
      ∪ list_to_set (ids_of (new_records files1 files2)).
Proof.
  split; [reflexivity|].
  exact (proj1 (X4_appended_identifiers_are_remembered ascii_strip
                  (one_page [rec1; rec2; rec3]) (mkdate 2024 3 1) day2
                  files1 files2 (Some "2024-03-05")
                  later_service_clean_ids later_fetch)).
Defined.

(** The incremental fetch of [later_run] once more. *)
Lemma X5_witness :
  fetch_incremental ascii_strip (one_page [rec1; rec2; rec3])
                    (mkdate 2024 3 1) day2 files2
  = (files2, Ok None).
Proof.
  exact (X5_fetching_the_same_listing_again_changes_nothing ascii_strip
           (one_page [rec1; rec2; rec3]) (mkdate 2024 3 1) day2 files1 files2
           (Some "2024-03-05") later_service_clean later_fetch).
Defined.

(** The record S3 of the listing is new and is appended. *)
Lemma X6_witness :
  match record_id rec3 with
  | Some s => s ∈ load_fetched_ids ascii_strip files1
              ∨ s ∈ ids_of (new_records files1 files2)
  | None => rec3 ∈ new_records files1 files2
  end.
Proof.
  refine (X6_no_new_record_is_left_out ascii_strip (one_page [rec1; rec2; rec3])
            (mkdate 2024 3 1) day2 files1 files2 (Some "2024-03-05") 3 rec3
            _ later_fetch _).
  - evaluated.
  - replace (flat_map _ _) with [rec1; rec2; rec3] by (symmetry; evaluated).
    apply elem_of_cons; right. apply elem_of_cons; right. apply elem_of_cons; by left.
Defined.

Lemma two_days_clean day rec :
  day ∈ two_days → delivers day.2 rec →
  ∃ s, record_id rec = Some s ∧ clean ascii_strip s.
Proof.
  intros Hday Hd.
  repeat (apply elem_of_cons in Hday as [->|Hday]);
    [..|by apply elem_of_nil in Hday];
    apply delivers_service in Hd;
    repeat (apply elem_of_cons in Hd as [->|Hd]); try (by apply elem_of_nil in Hd);
    first [by (exists "S1"; vm_compute)|by (exists "S2"; vm_compute)
          |by (exists "S3"; vm_compute)].
Qed.

Lemma two_days_listings day :
  day ∈ two_days →
  NoDup (ids_of (default [] (out_file
           (fetch_initial day.2 INIT_FROM_DATE day.1 no_files).1))).
Proof.
  intros Hday.
  repeat (apply elem_of_cons in Hday as [->|Hday]);
    [..|by apply elem_of_nil in Hday].
  - replace (ids_of _) with ["S1"; "S2"] by (symmetry; evaluated). compute_done.
  - replace (ids_of _) with ["S1"; "S2"; "S3"] by (symmetry; evaluated).
    compute_done.
Qed.

(** Two days of the script, the second with one record more. *)
Lemma X7_witness :
  auto_runs_ok ascii_strip two_days no_files = true
  ∧ out_file (auto_runs ascii_strip two_days no_files) = Some [rec1; rec2; rec3]
  ∧ NoDup ((λ rec, get rec "speechID")
             <$> default [] (out_file (auto_runs ascii_strip two_days no_files))).
Proof.
  assert (auto_runs_ok ascii_strip two_days no_files = true) as Hok by evaluated.
  split; [exact Hok|]. split; [evaluated|].
  exact (proj1 (X7_daily_runs_keep_the_record_file_free_of_duplicates
                  ascii_strip two_days no_files two_days_clean two_days_listings
                  Hok (files_ok_no_files ascii_strip))).
Defined.

(** The text of [rec1]: 21 characters, four fields and the speech. *)
Lemma X9_witness :
  len (text_of rec1) = 54%nat
  ∧ ∃ speech,
      get_or rec1 "speech" (JStr "") = JStr speech
      ∧ len (text_of rec1)
        = (21 + len (format (get_or rec1 "date" (JStr "")))
           + len (format (get_or rec1 "nameOfHouse" (JStr "")))
           + len (format (get_or rec1 "nameOfMeeting" (JStr "")))
           + len (format (get_or rec1 "speaker" (JStr "")))
           + len speech)%nat.
Proof.
  split; [evaluated|].
  destruct (X9_the_header_counts_towards_the_limit cut_once rec1 (text_of rec1))
    as (speech & Hs & Hlen & _).
  - evaluated.
  - exists speech. by split.
Defined.

Lemma doc1_generated :
  doc1 ∈ (build_documents cut_once [rec1; rec_other; rec_long]).1.
Proof. apply (list_elem_of_lookup_2 _ 0). evaluated. Qed.

(** The first document of the sample index comes from the first record. *)
Lemma X10_witness :
  ∃ k rec i n,
    [rec1; rec_other; rec_long] !! k = Some rec
    ∧ metadata doc1 !! "record_index" = Some (VInt (Z.of_nat (k + 1)))
    ∧ metadata doc1 !! "speechID" = Some (of_json (get rec "speechID"))
    ∧ metadata doc1 !! "speaker" = Some (of_json (get rec "speaker"))
    ∧ metadata doc1 !! "date" = Some (of_json (get rec "date"))
    ∧ metadata doc1 !! "chunk_index" = Some (VInt (Z.of_nat i))
    ∧ metadata doc1 !! "chunk_count" = Some (VInt (Z.of_nat n))
    ∧ (i < n)%nat.
Proof.
  exact (X10_every_document_comes_from_a_record cut_once
           [rec1; rec_other; rec_long] doc1 (or_introl doc1_generated)).
Defined.

(** The keys of the first document of the sample index; the sample
    records have no [issueID], which is stored as [None]. *)
Lemma X11_witness :
  metadata doc1 !! "issueID" = Some VNone
  ∧ dom (metadata doc1)
    = list_to_set
        [ "speechID"; "issueID"; "date"; "nameOfHouse"; "nameOfMeeting";
          "speaker"; "speakerGroup"; "speechURL"; "meetingURL"; "record_index";
          "chunk_index"; "chunk_count" ].
Proof.
  split; [reflexivity|].
  exact (proj1 (X11_every_document_has_the_same_twelve_keys cut_once
                  [rec1; rec_other; rec_long] doc1 (or_introl doc1_generated))).
Defined.

(** A record without speech text between two others: the one document
    generated before it is not stored. *)
Lemma X12_witness :
  (build_documents cut_once [rec1]).1 = [doc1]
  ∧ build_vectorstore cut_once ([rec1] ++ rec_null :: [rec3])
    = (take (200 * (length (build_documents cut_once [rec1]).1 / 200))
            (build_documents cut_once [rec1]).1,
       Raise TypeError).
Proof.
  split; [evaluated|].
  refine (proj2 (X12_a_record_without_speech_text_aborts_the_build cut_once
                   [rec1] rec_null [rec3] _ _)).
  - evaluated.
  - evaluated.
Defined.

(** The swap on a disk without working directory. *)
Lemma X15_witness :
  swap_active_db (mkDisk Absent (IsDir 3 fresh_items) 9)
  = (mkDisk Absent (IsDir 3 ∅) 9, Raise FileNotFoundError).
Proof.
  exact (X15_a_swap_without_working_directory_empties_the_index
           (mkDisk Absent (IsDir 3 fresh_items) 9) 3 fresh_items
           eq_refl eq_refl).
Defined.

(** The swap on the sample disk, twice. *)
Lemma X16_witness :
  swap_active_db sample_disk = (mkDisk Absent (IsDir 3 fresh_items) 9, Ok tt)
  ∧ ∃ ino titems,
      active_dir (mkDisk Absent (IsDir 3 fresh_items) 9) = IsDir ino titems
      ∧ swap_active_db (mkDisk Absent (IsDir 3 fresh_items) 9)
        = (mkDisk Absent (IsDir ino ∅)
                  (next_ino (mkDisk Absent (IsDir 3 fresh_items) 9)),
           Raise FileNotFoundError).
Proof.
  assert (swap_active_db sample_disk
          = (mkDisk Absent (IsDir 3 fresh_items) 9, Ok tt)) as Hswap
    by evaluated.
  split; [exact Hswap|].
  exact (X16_a_second_swap_empties_the_index sample_disk _ Hswap).
Defined.

(** The build script on a record file of one record. *)
Lemma X18_witness :
  main cut_once one_file sample_world
  = (mkWorld (Some [rec1]) (mkDisk Absent (IsDir 3 (one_file [doc1])) 10), Ok tt)
  ∧ ∃ jsonl ino,
      data_path sample_world = Some jsonl
      ∧ (build_vectorstore cut_once jsonl).1 = (build_documents cut_once jsonl).1
      ∧ temp_dir (mkDisk Absent (IsDir 3 (one_file [doc1])) 10) = Absent
      ∧ active_dir (mkDisk Absent (IsDir 3 (one_file [doc1])) 10)
        = IsDir ino (one_file (build_documents cut_once jsonl).1)
      ∧ (∀ ino0 items0,
           active_dir (disk sample_world) = IsDir ino0 items0 → ino = ino0).
Proof.
  assert (main cut_once one_file sample_world
          = (mkWorld (Some [rec1])
                     (mkDisk Absent (IsDir 3 (one_file [doc1])) 10), Ok tt))
    as Hmain by evaluated.
  split; [exact Hmain|].
  exact (X18_a_completed_build_script_serves_every_document cut_once one_file
           sample_world _ Hmain).
Defined.

(** The context text of two documents. *)
Lemma X19_witness :
  utils.format_docs ([doc1] ++ [doc1])
  = utils.format_docs [doc1] +:+ (nl +:+ nl) +:+ utils.format_docs [doc1].
Proof.
  exact (proj1 (X19_the_context_text_joins_the_documents [doc1] [doc1]
                  ltac:(discriminate) ltac:(discriminate))).
Defined.

(** One call of the sample engine in a fresh session. *)
Lemma X20_witness :
  ∃ eng',
    answer_question first_matching (model_says "答えます。") "経済政策は" 10
                    "default" sample_engine
    = (eng', Ok (mkAnswer "答えます。" (to_entry <$> sample_hits)))
    ∧ _history_store eng' !! "default"
      = Some ([] ++ [HumanMessage "経済政策は"; AIMessage "答えます。"]).
Proof.
  destruct (sample_answer "経済政策は" "default") as [eng' Hans].
  exists eng'. split; [exact Hans|].
  exact (proj1 (proj2 (proj2
           (X20_an_answer_extends_the_history_of_its_session_only
              first_matching (model_says "答えます。") "経済政策は" 10 "default"
              sample_engine eng' _ Hans)))).
Defined.

(** A call in the session ["a"], then one in the session ["b"]. *)
Lemma X21_witness :
  (answer_question first_matching (model_says "答えます。") "外交は" 5 "b"
     (answer_question first_matching (model_says "答えます。") "経済政策は" 10 "a"
                      sample_engine).1).2
  = (answer_question first_matching (model_says "答えます。") "外交は" 5 "b"
                     sample_engine).2.
Proof.
  exact (proj1 (X21_sessions_do_not_see_each_other first_matching
                  (model_says "答えます。") "経済政策は" 10 "a" "外交は" 5 "b"
                  sample_engine ltac:(discriminate))).
Defined.

(** A call in which the model fails, in a fresh session. *)
Lemma X22_witness :
  answer_question first_matching model_fails "経済政策は" 10 "default"
                  sample_engine
  = (engine_with [], Raise RuntimeError)
  ∧ ∀ s, default [] (_history_store (engine_with []) !! s)
         = default [] (_history_store sample_engine !! s).
Proof.
  assert (answer_question first_matching model_fails "経済政策は" 10 "default"
                          sample_engine
          = (engine_with [], Raise RuntimeError)) as Hans by evaluated.
  split; [exact Hans|].
  exact (proj1 (proj2 (proj2 (X22_a_failed_call_records_no_turn first_matching
                  model_fails "経済政策は" 10 "default" sample_engine _ _ Hans)))).
Defined.


Lemma first_submission :
  ui_gradio.chat_fn (answer_question first_matching (model_says "答えます。"))
                    "経済政策は" None 10 sample_engine
  = (engine_with (exchange "経済政策は"), None,
     Ok (shown_exchange "経済政策は", shown_exchange "経済政策は")).
Proof. evaluated. Qed.

(** Two submissions on the chat page. *)
Lemma X25_witness :
  ui_gradio.chat_turns (answer_question first_matching (model_says "答えます。"))
                       [("経済政策は", 10%Z); ("外交は", 5%Z)] [] sample_engine
  = (engine_with (exchange "経済政策は" ++ exchange "外交は"),
     Ok (shown_exchange "経済政策は" ++ shown_exchange "外交は"))
  ∧ shown_exchange "経済政策は" ++ shown_exchange "外交は"
    = ui_gradio.shown
        <$> default [] (_history_store
                          (engine_with (exchange "経済政策は" ++ exchange "外交は"))
                          !! "default").
Proof.
  assert (ui_gradio.chat_turns
            (answer_question first_matching (model_says "答えます。"))
            [("経済政策は", 10%Z); ("外交は", 5%Z)] [] sample_engine
          = (engine_with (exchange "経済政策は" ++ exchange "外交は"),
             Ok (shown_exchange "経済政策は" ++ shown_exchange "外交は")))
    as Hrun by evaluated.
  split; [exact Hrun|].
  exact (proj1 (X25_the_transcript_mirrors_the_session_memory first_matching
                  (model_says "答えます。") _ [] sample_engine _ _ Hrun eq_refl)).
Defined.

(** A submission, the transcript cleared, another submission. *)
Lemma X26_witness :
  ∃ answer1 answer2 db chain docs,
    shown_exchange "外交は"
    = [ui_gradio.mkChatMessage "user" "外交は";
       ui_gradio.mkChatMessage "assistant" answer2]
    ∧ _vectordb sample_engine = Some db ∧ _chain sample_engine = Some chain
    ∧ first_matching db 5 {[ "speaker" := VStr DEFAULT_SPEAKER ]} "外交は"
      = Ok docs
    ∧ model_says "答えます。" chain (utils.format_docs docs)
        (default [] (_history_store sample_engine !! "default")
         ++ [HumanMessage "経済政策は"; AIMessage answer1]) "外交は"
      = Ok answer2
    ∧ _history_store (engine_with (exchange "経済政策は" ++ exchange "外交は"))
        !! "default"
      = Some (default [] (_history_store sample_engine !! "default")
              ++ [HumanMessage "経済政策は"; AIMessage answer1;
                  HumanMessage "外交は"; AIMessage answer2]).
Proof.
  refine (X26_clearing_the_transcript_leaves_the_memory first_matching
            (model_says "答えます。") "経済政策は" None 10 sample_engine
            (engine_with (exchange "経済政策は")) None
            (shown_exchange "経済政策は") (shown_exchange "経済政策は")
            "外交は" 5
            (engine_with (exchange "経済政策は" ++ exchange "外交は"))
            (Some (shown_exchange "外交は"))
            (shown_exchange "外交は") (shown_exchange "外交は")
            first_submission _).
  evaluated.
Defined.

(** A submission on the chat page, then a request that names no session. *)
Lemma X27_witness :
  ∃ answer1 db chain docs,
    last (shown_exchange "経済政策は")
    = Some (ui_gradio.mkChatMessage "assistant" answer1)
    ∧ _vectordb sample_engine = Some db ∧ _chain sample_engine = Some chain
    ∧ first_matching db (default 10%Z None)
                     {[ "speaker" := VStr DEFAULT_SPEAKER ]} "外交は"
      = Ok docs
    ∧ model_says "答えます。" chain (utils.format_docs docs)
        (default [] (_history_store sample_engine !! "default")
         ++ [HumanMessage "経済政策は"; AIMessage answer1]) "外交は"
      = Ok (app.answer sample_response).
Proof.
  refine (X27_the_chat_page_and_the_api_share_a_session first_matching
            (model_says "答えます。") "経済政策は" None 10 sample_engine
            (engine_with (exchange "経済政策は")) None
            (shown_exchange "経済政策は") (shown_exchange "経済政策は")
            "外交は" None
            (engine_with (exchange "経済政策は" ++ exchange "外交は"))
            sample_response first_submission _).
  evaluated.
Defined.
